(** * SplitSurface: the planar partition operation of src/SplitSurface.js

    A shallow embedding of [splitSurface], [scaleUpPath] and
    [scaleDownPath], and of the part of the component state they read.

    Numbers.  The file embeds the partition operation twice.  In the first
    embedding a JavaScript number is a real number ([R]) and a lattice
    coordinate an integer ([Z]): the arithmetic is exact, and binary64
    rounding, NaN and the infinities are outside it.  It carries the
    properties of the control flow, which do not depend on how a number is
    rounded: what is returned with no cuts, on failure, on a canvas that is
    not positive, for a cut of length zero.  In the second embedding, the
    module [Binary64], a number is an IEEE 754 binary64 value (Rocq's
    primitive floats) and every operation rounds as the source does.  It
    carries the numerical properties: the rounding rule of the mapper, its
    round trip, the blade builder, and the determinism of a run.

    The clipping engine.  [ClipperLib] is an npm dependency, not code of
    this repository.  It is an interface here ([ClipperLib] below): an
    abstract engine state with [AddPath] and [Execute], each a function of
    its arguments.  In [Binary64] the interface is wider: the library
    keeps state of its own between calls, so that an engine whose answers
    depend on earlier calls is not excluded by construction.  Theorems
    quantify over every engine; closed examples use small concrete
    engines.  An engine call that throws is outside both models.

    Effects.  The calls made on the engine and on the console are recorded,
    in order, in a [World] that is threaded through the code.

    The rest of the file.  [hexToRgb], [rgbToHex], [getColor] with its
    table of colour sets, [generateLightning] and the generators of the
    Horizontal Grid, the fractal and the gradient lines are embedded after
    the partition operation, over the reals.  Colour components are
    integers and colour strings are [string]s.  [uuidv4] and [Math.random]
    are functions from the rank of a call to its value, with the number of
    calls made so far threaded through the code.  A loop or a recursion
    that may not end takes a bound on its iterations or on its depth, and
    answers [None] when the bound is reached. *)

From Stdlib Require Import Ascii String Reals Lra Lia ZArith List Psatz.
From Stdlib Require Import QArith Qabs Qpower Qround Morphisms.
From Stdlib Require Floats.
Import ListNotations.
Set Warnings "-inexact-float".
Local Open Scope R_scope.

(** ** Data model *)

(** [{ x, y }]: a point of the canvas. *)
Record Point : Type := mkPoint { x : R; y : R }.

(** [{ X, Y }]: ClipperLib's IntPoint. *)
Record IntPoint : Type := mkIntPoint { X : Z; Y : Z }.

Definition Polygon : Type := list Point.
Definition Path : Type := list IntPoint.
Definition Paths : Type := list Path.

(** A polyline of the component state: [{ id, points: [p0, p1, ...], color }].
    [splitSurface] and the renderer read [points[0]] and [points[1]] only,
    and every producer in the source builds [points] with at least two
    elements (exactly two, except the Hexagonal Grid and the Diamond Grid,
    whose further points are never read). *)
Record Polyline : Type := mkPolyline {
  id : string;
  points0 : Point;
  points1 : Point;
  color : option string
}.

(** The [useState] cells of the component. *)
Record State : Type := mkState {
  width : R;
  height : R;
  polylines : list Polyline;
  selectedAlgorithm : string;
  selectedColorSet : string
}.

(** ** [Math.round] and the fixed-point mapper *)

(** [Math.round(v)]: the integer closest to [v], the one toward +infinity
    when two are equally close, that is [floor (v + 1/2)]. *)
Definition Math_round (v : R) : Z := Int_part (v + / 2).

(** [scaleUpPath]: lines 1334-1339. *)
Definition scaleUpPath (path : Polygon) (scale : R) : Path :=
  map (fun point => {| X := Math_round (x point * scale);
                       Y := Math_round (y point * scale) |}) path.

(** [scaleDownPath]: lines 1342-1347. *)
Definition scaleDownPath (path : Path) (scale : R) : Polygon :=
  map (fun point => {| x := IZR (X point) / scale;
                       y := IZR (Y point) / scale |}) path.

(** ** The clipping engine: ClipperLib's interface *)

Inductive PolyType : Type := ptSubject | ptClip.
Inductive ClipType : Type := ctIntersection | ctUnion | ctDifference | ctXor.
Inductive PolyFillType : Type := pftEvenOdd | pftNonZero | pftPositive | pftNegative.

(** [new ClipperLib.Clipper()], [clipper.AddPath(path, polyType, closed)]
    and [clipper.Execute(clipType, solution, subjFillType, clipFillType)].
    The engine object is mutable in the source; here [AddPath] returns the
    updated engine state.  [Execute] returns the [succeeded] flag together
    with the paths it stores in the (initially empty) [solution]. *)
Record ClipperLib : Type := mkClipperLib {
  Clipper : Type;
  new_Clipper : Clipper;
  AddPath : Clipper -> Path -> PolyType -> bool -> Clipper;
  Execute : Clipper -> ClipType -> PolyFillType -> PolyFillType -> bool * Paths
}.

(** ** Effects: the calls made on the engine and on the console *)

Inductive Event : Type :=
| ClipperNew
| ClipperAddPath (path : Path) (polyType : PolyType) (closed : bool)
| ClipperExecute (clipType : ClipType) (subjFillType clipFillType : PolyFillType)
| ConsoleError (message : string)
| ConsoleLog (message : string) (polygons : list Polygon).

Definition World : Type := list Event.

(** Computations that return a value and extend the record of calls. *)
Definition Js (A : Type) : Type := World -> A * World.

Definition ret {A : Type} (a : A) : Js A := fun w => (a, w).

Definition bind {A B : Type} (m : Js A) (k : A -> Js B) : Js B :=
  fun w => let (a, w') := m w in k a w'.

Definition emit (e : Event) : Js unit := fun w => (tt, w ++ [e]).

Declare Scope js_scope.
Delimit Scope js_scope with js.
Notation "v <- m ;; k" := (bind m (fun v => k))
  (at level 61, m at next level, right associativity) : js_scope.
Notation "m ;;; k" := (bind m (fun _ => k))
  (at level 61, right associativity) : js_scope.

(** [array.forEach(body)] where [body] updates an object [s]. *)
Fixpoint forEach {A S : Type} (l : list A) (body : A -> S -> Js S) (s : S) : Js S :=
  match l with
  | [] => ret s
  | a :: l' => bind (body a s) (forEach l' body)
  end.

Section Engine.

Variable lib : ClipperLib.

Definition clipper_new : Js (Clipper lib) :=
  (emit ClipperNew ;;; ret (new_Clipper lib))%js.

Definition clipper_AddPath (clipper : Clipper lib) (path : Path)
    (polyType : PolyType) (closed : bool) : Js (Clipper lib) :=
  (emit (ClipperAddPath path polyType closed) ;;;
   ret (AddPath lib clipper path polyType closed))%js.

Definition clipper_Execute (clipper : Clipper lib) (clipType : ClipType)
    (subjFillType clipFillType : PolyFillType) : Js (bool * Paths) :=
  (emit (ClipperExecute clipType subjFillType clipFillType) ;;;
   ret (Execute lib clipper clipType subjFillType clipFillType))%js.

End Engine.

Definition console_error (message : string) : Js unit :=
  emit (ConsoleError message).

Definition console_log (message : string) (polygons : list Polygon) : Js unit :=
  emit (ConsoleLog message polygons).

(** ** [splitSurface]: lines 1230-1331 *)

(** [const scale = 100] and [const lineWidth = 1]. *)
Definition scale : R := 100.
Definition lineWidth : R := 1.

(** The canvas rectangle; the source writes it twice, at 1233-1240 and as
    [mainPolygon] at 1245-1250. *)
Definition mainPolygon (st : State) : Polygon :=
  [ {| x := 0; y := 0 |};
    {| x := width st; y := 0 |};
    {| x := width st; y := height st |};
    {| x := 0; y := height st |} ].

(** [Math.sqrt(dx * dx + dy * dy)], lines 1265-1267. *)
Definition segment_length (line : Polyline) : R :=
  let dx := x (points1 line) - x (points0 line) in
  let dy := y (points1 line) - y (points0 line) in
  sqrt (dx * dx + dy * dy).

(** The thin polygon built from one polyline, lines 1264-1293; [None] is
    the early [return] of the callback when [length === 0]. *)
Definition bladePath (line : Polyline) : option Polygon :=
  let dx := x (points1 line) - x (points0 line) in
  let dy := y (points1 line) - y (points0 line) in
  let length := sqrt (dx * dx + dy * dy) in
  let offset := (lineWidth / 2) * scale in
  if Req_dec_T length 0 then None
  else
    let normX := dy / length in
    let normY := - dx / length in
    Some
      [ {| x := x (points0 line) + normX * (offset / scale);
           y := y (points0 line) + normY * (offset / scale) |};
        {| x := x (points1 line) + normX * (offset / scale);
           y := y (points1 line) + normY * (offset / scale) |};
        {| x := x (points1 line) - normX * (offset / scale);
           y := y (points1 line) - normY * (offset / scale) |};
        {| x := x (points0 line) - normX * (offset / scale);
           y := y (points0 line) - normY * (offset / scale) |} ].

(** The second [forEach], lines 1317-1325: every ring of the solution that
    has points is scaled down and pushed. *)
Definition collectPolygons (solutionPaths : Paths) : list Polygon :=
  fold_left
    (fun polygons path =>
       if (0 <? List.length path)%nat
       then polygons ++ [scaleDownPath path scale]
       else polygons)
    solutionPaths [].

Section SplitSurface.

Variable lib : ClipperLib.

(** The callback of [polylines.forEach], lines 1262-1300. *)
Definition addBlade (line : Polyline) (clipper : Clipper lib) : Js (Clipper lib) :=
  match bladePath line with
  | None => ret clipper
  | Some path =>
      let scaledClip := scaleUpPath path scale in
      clipper_AddPath lib clipper scaledClip ptClip true
  end.

Definition splitSurface (st : State) : Js (list Polygon) :=
  match polylines st with
  | [] => ret [ mainPolygon st ]
  | _ :: _ =>
      let subj := scaleUpPath (mainPolygon st) scale in
      (clipper <- clipper_new lib ;;
       clipper <- clipper_AddPath lib clipper subj ptSubject true ;;
       clipper <- forEach (polylines st) addBlade clipper ;;
       r <- clipper_Execute lib clipper ctDifference pftNonZero pftNonZero ;;
       let (succeeded, solutionPaths) := r in
       if negb succeeded then
         console_error "Failed to split the surface with the given polylines." ;;;
         ret []
       else
         let polygons := collectPolygons solutionPaths in
         console_log "SubSurfaces:" polygons ;;;
         ret polygons)%js
  end.

(** *** What [splitSurface] hands to the engine, as pure functions *)

Definition bladePaths (lines : list Polyline) : Paths :=
  flat_map
    (fun line => match bladePath line with
                 | None => []
                 | Some path => [scaleUpPath path scale]
                 end) lines.

(** The engine after the subject and every blade have been added. *)
Definition loadedClipper (st : State) : Clipper lib :=
  fold_left (fun clipper path => AddPath lib clipper path ptClip true)
    (bladePaths (polylines st))
    (AddPath lib (new_Clipper lib) (scaleUpPath (mainPolygon st) scale)
       ptSubject true).

(** The outcome of the one [Execute] call. *)
Definition executed (st : State) : bool * Paths :=
  Execute lib (loadedClipper st) ctDifference pftNonZero pftNonZero.

(** The calls made on the engine, in order. *)
Definition engineCalls (st : State) : list Event :=
  [ClipperNew; ClipperAddPath (scaleUpPath (mainPolygon st) scale) ptSubject true]
  ++ map (fun path => ClipperAddPath path ptClip true) (bladePaths (polylines st))
  ++ [ClipperExecute ctDifference pftNonZero pftNonZero].

End SplitSurface.

(** [setPolylines]: replaces the cut list, every other cell unchanged. *)
Definition setPolylines (st : State) (lines : list Polyline) : State :=
  {| width := width st; height := height st; polylines := lines;
     selectedAlgorithm := selectedAlgorithm st;
     selectedColorSet := selectedColorSet st |}.

(** ** Geometry of the returned polygons *)

Definition cross (ux uy vx vy : R) : R := ux * vy - uy * vx.

(** The point at parameter [s] of the [i]-th edge of the closed ring [p]:
    from vertex [i] toward the next vertex, the last edge returning to the
    first vertex. *)
Definition boundary_point (p : Polygon) (i : nat) (s : R) : Point :=
  let a := nth i p (mkPoint 0 0) in
  let b := nth (S i mod List.length p) p (mkPoint 0 0) in
  {| x := x a + s * (x b - x a); y := y a + s * (y b - y a) |}.

(** A ring is simple when its boundary never meets itself: two parameters
    give the same boundary point only when they are the same. *)
Definition simple (p : Polygon) : Prop :=
  forall i j s t,
    (i < List.length p)%nat -> (j < List.length p)%nat ->
    0 <= s < 1 -> 0 <= t < 1 ->
    boundary_point p i s = boundary_point p j t -> i = j /\ s = t.

(** Twice the signed area, by the shoelace formula. *)
Fixpoint shoelace_from (first : Point) (p : Polygon) : R :=
  match p with
  | [] => 0
  | a :: rest =>
      match rest with
      | [] => cross (x a) (y a) (x first) (y first)
      | b :: _ => cross (x a) (y a) (x b) (y b) + shoelace_from first rest
      end
  end.

Definition signed_area (p : Polygon) : R :=
  match p with
  | [] => 0
  | first :: _ => shoelace_from first p / 2
  end.

Definition area (p : Polygon) : R := Rabs (signed_area p).

Definition three_distinct_points (p : Polygon) : Prop :=
  exists a b c, In a p /\ In b p /\ In c p /\ a <> b /\ a <> c /\ b <> c.

(** [q] lists the points of [p] from another starting point. *)
Definition rotation_of (p q : Polygon) : Prop :=
  exists n, (n <= List.length p)%nat /\ q = skipn n p ++ firstn n p.

(** The ring [o], [o + u], [o + u + v], [o + v]; the canvas and every blade
    have this shape. *)
Definition parallelogram (o u v : Point) : Polygon :=
  [ o;
    {| x := x o + x u; y := y o + y u |};
    {| x := x o + x u + x v; y := y o + y u + y v |};
    {| x := x o + x v; y := y o + y v |} ].

(** Coordinates, along [u] and along [v], of the point at parameter [s] of
    the [k]-th edge of a parallelogram. *)
Definition along_u (k : nat) (s : R) : R :=
  match k with 0%nat => s | 1%nat => 1 | 2%nat => 1 - s | _ => 0 end.

Definition along_v (k : nat) (s : R) : R :=
  match k with 0%nat => 0 | 1%nat => s | 2%nat => 1 | _ => 1 - s end.

(** ** Concrete engines and states for the closed examples *)

(** An engine whose [Execute] always reports failure. *)
Definition failingClipper : ClipperLib :=
  {| Clipper := unit;
     new_Clipper := tt;
     AddPath := fun c _ _ _ => c;
     Execute := fun _ _ _ _ => (false, []) |}.

(** An engine that keeps the subject paths and returns them untouched. *)
Definition subjectClipper : ClipperLib :=
  {| Clipper := Paths;
     new_Clipper := [];
     AddPath := fun c path polyType _ =>
                  match polyType with ptSubject => c ++ [path] | ptClip => c end;
     Execute := fun c _ _ _ => (true, c) |}.

Definition canvas (w h : R) (lines : list Polyline) : State :=
  {| width := w; height := h; polylines := lines;
     selectedAlgorithm := EmptyString; selectedColorSet := "Sunset" |}.

Definition segment (x0 y0 x1 y1 : R) : Polyline :=
  {| id := "cut"; points0 := {| x := x0; y := y0 |};
     points1 := {| x := x1; y := y1 |}; color := None |}.

(** * The rest of src/SplitSurface.js *)

(** ** Views of a cut *)

Definition endpoints (line : Polyline) : Point * Point :=
  (points0 line, points1 line).

(** The same cut drawn from its other end. *)
Definition reversed (line : Polyline) : Polyline :=
  {| id := id line; points0 := points1 line; points1 := points0 line;
     color := color line |}.

(** ** [hexToRgb] and [rgbToHex]: lines 18-45 *)

(** [{ r, g, b }]. *)
Record RGB : Type := mkRGB { r : Z; g : Z; b : Z }.

(** The value of a character of the class [[a-f\d]] under the flag [i]: a
    digit (codes 48-57) or a letter from a to f in either case (codes
    97-102 and 65-70); [None] for any other character. *)
Definition hexDigitValue (c : ascii) : option Z :=
  let code := Z.of_nat (nat_of_ascii c) in
  if ((48 <=? code) && (code <=? 57))%Z%bool then Some (code - 48)%Z
  else if ((97 <=? code) && (code <=? 102))%Z%bool then Some (code - 87)%Z
  else if ((65 <=? code) && (code <=? 70))%Z%bool then Some (code - 55)%Z
  else None.

Definition isHexDigit (c : ascii) : bool :=
  match hexDigitValue c with Some _ => true | None => false end.

(** The optional [#] that both patterns allow at the start. *)
Definition stripHash (hex : string) : string :=
  match hex with
  | String c rest => if Ascii.eqb c "#" then rest else hex
  | EmptyString => hex
  end.

(** [hex.replace(shorthandRegex, (m, r, g, b) => r + r + g + g + b + b)]:
    a string that is three hex digits, after an optional [#], is replaced
    as a whole by the six doubled digits; any other string is unchanged. *)
Definition expandShorthand (hex : string) : string :=
  match stripHash hex with
  | String c1 (String c2 (String c3 EmptyString)) =>
      if (isHexDigit c1 && isHexDigit c2 && isHexDigit c3)%bool
      then String c1 (String c1 (String c2 (String c2 (String c3 (String c3
             EmptyString)))))
      else hex
  | _ => hex
  end.

(** [parseInt(s, 16)] on a captured group, which is two hex digits. *)
Definition parseInt16 (c1 c2 : ascii) : option Z :=
  match hexDigitValue c1, hexDigitValue c2 with
  | Some hi, Some lo => Some (16 * hi + lo)%Z
  | _, _ => None
  end.

(** [hexToRgb]; [None] is [null]. *)
Definition hexToRgb (hex : string) : option RGB :=
  let hex := expandShorthand hex in
  match stripHash hex with
  | String c1 (String c2 (String c3 (String c4 (String c5 (String c6
      EmptyString))))) =>
      match parseInt16 c1 c2, parseInt16 c3 c4, parseInt16 c5 c6 with
      | Some r, Some g, Some b => Some {| r := r; g := g; b := b |}
      | _, _, _ => None
      end
  | _ => None
  end.

Definition hexDigitChar (d : Z) : ascii :=
  match d with
  | 0 => "0" | 1 => "1" | 2 => "2" | 3 => "3" | 4 => "4" | 5 => "5"
  | 6 => "6" | 7 => "7" | 8 => "8" | 9 => "9" | 10 => "a" | 11 => "b"
  | 12 => "c" | 13 => "d" | 14 => "e" | _ => "f"
  end%Z%char.

(** The hexadecimal digits of a non-negative integer, most significant
    first; [fuel] bounds the number of digits. *)
Fixpoint toHexDigits (fuel : nat) (n : Z) : string :=
  match fuel with
  | O => EmptyString
  | S fuel' =>
      if (n <? 16)%Z then String (hexDigitChar n) EmptyString
      else (toHexDigits fuel' (n / 16) ++ String (hexDigitChar (n mod 16)) EmptyString)%string
  end.

(** [x.toString(16)] on an integer: lower-case digits, a leading [-] for a
    negative number.  An integer [n > 0] has at most [log2 n + 1] digits. *)
Definition Number_toString16 (n : Z) : string :=
  if (n <? 0)%Z
  then String "-" (toHexDigits (S (Z.to_nat (Z.log2 (- n)))) (- n))
  else toHexDigits (S (Z.to_nat (Z.log2 n))) n.

(** The callback of [.map] in [rgbToHex]. *)
Definition pad2 (hex : string) : string :=
  if (String.length hex =? 1)%nat then String "0" hex else hex.

(** [rgbToHex], on integer components. *)
Definition rgbToHex (r g b : Z) : string :=
  String "#" (String.concat EmptyString
                (map (fun x => pad2 (Number_toString16 x)) [r; g; b])).

(** The value of a string of hex digits, read most significant first. *)
Definition hexStringValue (s : string) : option Z :=
  fold_left
    (fun acc c => match acc, hexDigitValue c with
                  | Some v, Some d => Some (16 * v + d)%Z
                  | _, _ => None
                  end)
    (list_ascii_of_string s) (Some 0%Z).

(** What [hexToRgb] computes from the characters that follow the optional
    [#]: three digits are doubled, six are read in pairs, anything else is
    rejected. *)
Definition rgbOfDigits (digits : list ascii) : option RGB :=
  match digits with
  | [c1; c2; c3] =>
      match hexDigitValue c1, hexDigitValue c2, hexDigitValue c3 with
      | Some v1, Some v2, Some v3 =>
          Some {| r := 17 * v1; g := 17 * v2; b := 17 * v3 |}
      | _, _, _ => None
      end
  | [c1; c2; c3; c4; c5; c6] =>
      match hexDigitValue c1, hexDigitValue c2, hexDigitValue c3,
            hexDigitValue c4, hexDigitValue c5, hexDigitValue c6 with
      | Some v1, Some v2, Some v3, Some v4, Some v5, Some v6 =>
          Some {| r := 16 * v1 + v2; g := 16 * v3 + v4; b := 16 * v5 + v6 |}
      | _, _, _, _, _, _ => None
      end
  | _ => None
  end%Z.

(** ** [colorSets] and [getColor]: lines 1115-1227 *)

Local Open Scope string_scope.

(** The colour sets, in the order of the source. *)
Definition colorSets : list (string * list string) :=
  [
    ("Sunset",
     ["#FF5E5B"; "#D8A47F"; "#FFE66D"; "#4ECDC4"; "#1A535C";
      "#FF6B6B"; "#C44D58"; "#F7FFF7"; "#84A59D"; "#F2E394"]);
    ("Ocean",
     ["#03396C"; "#005B96"; "#6497B1"; "#B3CDE0"; "#03396C";
      "#005B96"; "#6497B1"; "#B3CDE0"; "#03396C"; "#005B96"]);
    ("Forest",
     ["#2E8B57"; "#228B22"; "#6B8E23"; "#556B2F"; "#66CDAA";
      "#8FBC8F"; "#20B2AA"; "#008B8B"; "#008080"; "#00CED1"]);
    ("Pastel",
     ["#FFD1DC"; "#FFB347"; "#77DD77"; "#AEC6CF"; "#CFCFC4";
      "#FF6961"; "#FDFD96"; "#CB99C9"; "#F49AC2"; "#FFFACD"]);
    ("Vibrant",
     ["#FF0000"; "#FF7F00"; "#FFFF00"; "#00FF00"; "#0000FF";
      "#4B0082"; "#8B00FF"; "#FF1493"; "#00CED1"; "#FFD700"]);
    ("Monochrome",
     ["#000000"; "#1C1C1C"; "#383838"; "#555555"; "#707070";
      "#8C8C8C"; "#A8A8A8"; "#C4C4C4"; "#E0E0E0"; "#FFFFFF"]);
    ("Autumn",
     ["#A52A2A"; "#DEB887"; "#D2691E"; "#FF7F50"; "#CD853F";
      "#FFA07A"; "#FA8072"; "#F4A460"; "#D2B48C"; "#BC8F8F"]);
    ("Neon",
     ["#FF6EC7"; "#FFB347"; "#FF6961"; "#77DD77"; "#AEC6CF";
      "#CFCFC4"; "#FF7F50"; "#F49AC2"; "#FFFACD"; "#B19CD9"]);
    ("Earth",
     ["#8B4513"; "#A0522D"; "#D2691E"; "#CD853F"; "#F4A460";
      "#DEB887"; "#D2B48C"; "#BC8F8F"; "#FFE4B5"; "#FFDEAD"]);
    ("Candy",
     ["#FF69B4"; "#FFB6C1"; "#FFA07A"; "#20B2AA"; "#87CEFA";
      "#778899"; "#B0C4DE"; "#ADD8E6"; "#FF6347"; "#FF4500"]);
    ("Galaxy",
     ["#1B263B"; "#415A77"; "#778DA9"; "#E0E1DD"; "#E27D60";
      "#85DCB"; "#00B4D8"; "#FF6347"; "#FFD700"; "#FF4500"]);
    ("Aurora",
     ["#00FFAB"; "#1EFFD1"; "#00BFFF"; "#FF00FF"; "#FF1493";
      "#9400D3"; "#4B0082"; "#8A2BE2"; "#FF69B4"; "#BA55D3"]);
    ("Retro",
     ["#FFBF00"; "#FF7F50"; "#87CEFA"; "#DA70D6"; "#32CD32";
      "#FF6347"; "#40E0D0"; "#FF1493"; "#1E90FF"; "#FFD700"]);
    ("Candy Pop",
     ["#FF69B4"; "#FFB6C1"; "#FFD700"; "#ADFF2F"; "#87CEFA";
      "#FF7F50"; "#FF4500"; "#DA70D6"; "#32CD32"; "#20B2AA"]);
    ("Sunrise",
     ["#FF7E5F"; "#FEB47B"; "#FFCC70"; "#F3E1A9"; "#C0D6DF";
      "#7EC8E3"; "#4CA1AF"; "#00A8CC"; "#FF6F91"; "#C94C4C"]);
    ("Elegant Blues",
     ["#0F4C81"; "#1A5276"; "#2980B9"; "#3498DB"; "#5DADE2";
      "#85C1E9"; "#AED6F1"; "#D6EAF8"; "#EBF5FB"; "#D0ECE7"]);
    ("Sophisticated Purples",
     ["#4B0082"; "#6A0DAD"; "#8A2BE2"; "#9932CC"; "#BA55D3";
      "#DA70D6"; "#EE82EE"; "#D8BFD8"; "#DDA0DD"; "#FF00FF"]);
    ("Elegant Greens",
     ["#145A32"; "#196F3D"; "#239B56"; "#28B463"; "#2ECC71";
      "#58D68D"; "#82E0AA"; "#A9DFBF"; "#ABEBC6"; "#D5F5E3"]);
    ("Classic Reds",
     ["#800000"; "#B22222"; "#C0392B"; "#E74C3C"; "#FF0000";
      "#FF5733"; "#FF6F61"; "#FF7F50"; "#FF8C00"; "#FFA07A"]);
    ("Golden Elegance",
     ["#B7950B"; "#F1C40F"; "#F39C12"; "#E67E22"; "#D4AC0D";
      "#F7DC6F"; "#FAD7A0"; "#F8C471"; "#F5CBA7"; "#FDEBD0"]);
    ("Soft Neutrals",
     ["#F5F5F5"; "#ECECEC"; "#DCDCDC"; "#C0C0C0"; "#A9A9A9";
      "#808080"; "#696969"; "#778899"; "#B0C4DE"; "#D3D3D3"]);
    ("Royal Colors",
     ["#2E4053"; "#1F618D"; "#2874A6"; "#21618C"; "#1A5276";
      "#0E6655"; "#117A65"; "#138D75"; "#148F77"; "#17A589"]);
    ("Soft Pastels",
     ["#FFB6C1"; "#FF69B4"; "#FFDAB9"; "#E6E6FA"; "#D8BFD8";
      "#FFDEAD"; "#F5DEB3"; "#FFE4B5"; "#FFFACD"; "#E0FFFF"]);
    ("Rich Browns",
     ["#8B4513"; "#A0522D"; "#CD853F"; "#D2691E"; "#B8860B";
      "#DEB887"; "#F4A460"; "#D2B48C"; "#C68642"; "#A0522D"]);
    ("Minty Fresh",
     ["#98FB98"; "#90EE90"; "#00FA9A"; "#3CB371"; "#2E8B57";
      "#66CDAA"; "#8FBC8F"; "#20B2AA"; "#008B8B"; "#008080"]);
    ("Elegant Grays",
     ["#2F4F4F"; "#696969"; "#808080"; "#A9A9A9"; "#BEBEBE";
      "#C0C0C0"; "#D3D3D3"; "#DCDCDC"; "#F5F5F5"; "#FFFFFF"])
  ].

(** The property names every object inherits from [Object.prototype]. *)
Definition objectPrototypeKeys : list string :=
  ["constructor"; "__defineGetter__"; "__defineSetter__"; "hasOwnProperty";
   "__lookupGetter__"; "__lookupSetter__"; "isPrototypeOf";
   "propertyIsEnumerable"; "toString"; "valueOf"; "__proto__";
   "toLocaleString"].

Local Close Scope string_scope.

(** The outcome of [object[key]] on an object literal: an own property, a
    member inherited from [Object.prototype] (a function or an object,
    truthy, with no indexed element), or [undefined]. *)
Inductive Property (A : Type) : Type :=
| Own (value : A)
| Inherited
| Missing.
Arguments Own {A} value.
Arguments Inherited {A}.
Arguments Missing {A}.

Fixpoint ownProperty {A : Type} (object : list (string * A)) (key : string)
    : option A :=
  match object with
  | [] => None
  | (k, v) :: rest => if String.eqb k key then Some v else ownProperty rest key
  end.

Definition getProperty {A : Type} (object : list (string * A)) (key : string)
    : Property A :=
  match ownProperty object key with
  | Some v => Own v
  | None =>
      if existsb (String.eqb key) objectPrototypeKeys then Inherited else Missing
  end.

(** [colors[index % colors.length]]; [None] is [undefined]. *)
Definition colorAt (colors : list string) (index : nat) : option string :=
  nth_error colors (index mod List.length colors).

(** [getColor]: the set selected in the component state, or ['Sunset'] when
    the selection is [undefined].  An inherited member is truthy and has no
    indexed element, so the answer is [undefined]. *)
Definition getColor (st : State) (index : nat) : option string :=
  match getProperty colorSets (selectedColorSet st) with
  | Own colors => colorAt colors index
  | Inherited => None
  | Missing =>
      match getProperty colorSets "Sunset" with
      | Own colors => colorAt colors index
      | _ => None
      end
  end.

(** [Object.keys(colorSets)]: the names offered by the selector. *)
Definition colorSetNames : list string := map fst colorSets.

(** [setSelectedColorSet]. *)
Definition setSelectedColorSet (st : State) (name : string) : State :=
  {| width := width st; height := height st; polylines := polylines st;
     selectedAlgorithm := selectedAlgorithm st; selectedColorSet := name |}.

(** ** The line generators: lines 48-91 and 299-1094 *)

(** How many identifiers and how many random numbers have been drawn. *)
Record Draws : Type := mkDraws { uuids : nat; randoms : nat }.

Definition drawUuid (d : Draws) : Draws :=
  {| uuids := S (uuids d); randoms := randoms d |}.

Definition drawRandom (d : Draws) : Draws :=
  {| uuids := uuids d; randoms := S (randoms d) |}.

(** The test [a < b] of a loop or of a branch. *)
Definition Rltb (a b : R) : bool := if Rlt_dec a b then true else false.

(** [for (let v = init; cond(v); v = step(v)) body]: the loop may not end,
    so the number of iterations is bounded by [fuel]; [None] means the fuel
    ran out. *)
Fixpoint forLoop {V S : Type} (fuel : nat) (cond : V -> bool) (step : V -> V)
    (body : V -> S -> S) (v : V) (s : S) : option S :=
  if cond v then
    match fuel with
    | O => None
    | S fuel' => forLoop fuel' cond step body (step v) (body v s)
    end
  else Some s.

Section Generators.

(** [uuidv4()] and [Math.random()]: the value of the k-th call. *)
Variable uuidv4 : nat -> string.
Variable Math_random : nat -> R.

(** [lines.push({ id: uuidv4(), points: [p0, p1] })]. *)
Definition pushLine (p0 p1 : Point) (state : list Polyline * Draws)
    : list Polyline * Draws :=
  let (lines, d) := state in
  (lines ++ [ {| id := uuidv4 (uuids d); points0 := p0; points1 := p1;
                 color := None |} ],
   drawUuid d).

(** ['Horizontal Grid'], lines 301-314. *)
Definition horizontalGrid (fuel : nat) (width height spacing offsetX offsetY : R)
    (d : Draws) : option (list Polyline * Draws) :=
  forLoop fuel (fun row => Rltb row height) (fun row => row + spacing)
    (fun row => pushLine {| x := 0 + offsetX; y := row |}
                         {| x := width + offsetX; y := row |})
    offsetY ([], d).

(** [generateFractal] of ['Fractal Lines'], lines 876-888; [angle] is the
    parameter of the enclosing generator.  [fuel] bounds the depth of the
    calls. *)
Fixpoint generateFractal (fuel : nat) (angle : R) (point : Point)
    (length depth angleOffset : R) (state : list Polyline * Draws)
    : option (list Polyline * Draws) :=
  match fuel with
  | O => None
  | S fuel' =>
      if Req_dec_T depth 0 then Some state
      else
        let endPoint :=
          {| x := x point + length * cos ((angleOffset * PI) / 180);
             y := y point + length * sin ((angleOffset * PI) / 180) |} in
        let state := pushLine point endPoint state in
        match generateFractal fuel' angle endPoint (length / 2) (depth - 1)
                (angleOffset + angle) state with
        | None => None
        | Some state =>
            generateFractal fuel' angle endPoint (length / 2) (depth - 1)
              (angleOffset - angle) state
        end
  end.

(** ['Fractal Lines'], lines 872-891. *)
Definition fractalLines (fuel : nat) (width height recursionDepth initialLength angle : R)
    (d : Draws) : option (list Polyline * Draws) :=
  let startPoint := {| x := width / 2; y := height / 2 |} in
  generateFractal fuel angle startPoint initialLength recursionDepth angle ([], d).

(** [generateLightning], lines 48-91. *)
Fixpoint generateLightning (fuel : nat) (state : list Polyline * Draws)
    (x0 y0 width height maxSegments branchFactor : R)
    : option (list Polyline * Draws) :=
  match fuel with
  | O => None
  | S fuel' =>
      if Req_dec_T maxSegments 0 then Some state
      else
        let (lines, d) := state in
        let angle := Math_random (randoms d) * PI / 2 - PI / 4 in
        let d := drawRandom d in
        let length := Math_random (randoms d) * (width / 10) + width / 20 in
        let d := drawRandom d in
        let x2 := x0 + length * cos angle in
        let y2 := y0 + length * sin angle in
        let state := pushLine {| x := x0; y := y0 |} {| x := x2; y := y2 |} (lines, d) in
        let (lines, d) := state in
        let branch := Rltb (Math_random (randoms d)) branchFactor in
        let state := (lines, drawRandom d) in
        match (if branch
               then generateLightning fuel' state x2 y2 width height
                      (maxSegments - 1) branchFactor
               else Some state) with
        | None => None
        | Some state =>
            generateLightning fuel' state x2 y2 width height
              (maxSegments - 1) branchFactor
        end
  end.

End Generators.

Section GradientLines.

Variable uuidv4 : nat -> string.
Variable Math_random : nat -> R.

(** The body of the loop of ['Gradient Lines'], lines 811-832: the colour
    interpolated at [i], then four random draws, then the line. *)
Definition gradientLine (width height numberOfLines : R) (startRGB endRGB : RGB)
    (i : nat) (d : Draws) : Polyline * Draws :=
  let t := INR i / (numberOfLines - 1) in
  let rgb :=
    {| r := Math_round (IZR (r startRGB) + t * (IZR (r endRGB) - IZR (r startRGB)));
       g := Math_round (IZR (g startRGB) + t * (IZR (g endRGB) - IZR (g startRGB)));
       b := Math_round (IZR (b startRGB) + t * (IZR (b endRGB) - IZR (b startRGB))) |} in
  let hexColor := rgbToHex (r rgb) (g rgb) (b rgb) in
  let x1 := Math_random (randoms d) * width in
  let d := drawRandom d in
  let y1 := Math_random (randoms d) * height in
  let d := drawRandom d in
  let angle := Math_random (randoms d) * 2 * PI in
  let d := drawRandom d in
  let length := Math_random (randoms d) * (width / 4) in
  let d := drawRandom d in
  let x2 := x1 + length * cos angle in
  let y2 := y1 + length * sin angle in
  ({| id := uuidv4 (uuids d);
      points0 := {| x := x1; y := y1 |};
      points1 := {| x := x2; y := y2 |};
      color := Some hexColor |},
   drawUuid d).

(** ['Gradient Lines'], lines 800-835.  The first component of the result
    lists the messages passed to [alert]. *)
Definition gradientLines (fuel : nat) (width height numberOfLines : R)
    (startColor endColor : string) (d : Draws)
    : option (list string * (list Polyline * Draws)) :=
  match hexToRgb startColor, hexToRgb endColor with
  | Some startRGB, Some endRGB =>
      option_map (fun state => (@nil string, state))
        (forLoop fuel (fun i : nat => Rltb (INR i) numberOfLines) S
           (fun i (state : list Polyline * Draws) =>
              let (lines, d) := state in
              let (line, d) :=
                gradientLine width height numberOfLines startRGB endRGB i d in
              (lines ++ [line], d))
           0%nat ([], d))
  | _, _ => Some (["Invalid Start or End Color."%string], ([], d))
  end.

End GradientLines.

(** [v] lies between [a] and [c], whichever is the larger. *)
Definition between (a v c : Z) : Prop := (Z.min a c <= v <= Z.max a c)%Z.

(** Stand-ins for [uuidv4] and [Math.random] in the closed examples. *)
Definition sampleUuid (k : nat) : string :=
  String (ascii_of_nat (48 + k)) EmptyString.

Definition sampleRandom (k : nat) : R := / 2.

(** * The same code over binary64 numbers *)

(** A JavaScript number is an IEEE 754 binary64 value, and the arithmetic
    of the source rounds after every operation.  This part embeds the
    fixed-point mapper, the blade builder and [splitSurface] again with
    Rocq's primitive binary64 floats for numbers, and with a clipping
    engine that keeps state of its own between calls. *)
Module Binary64.

Import Floats.
Local Open Scope float_scope.

(** ** Numbers *)

(** Neither NaN nor an infinity. *)
Definition finite (v : float) : bool :=
  match Prim2SF v with
  | S754_zero _ | S754_finite _ _ _ => true
  | S754_infinity _ | S754_nan => false
  end.

(** The rational number a finite binary64 value stands for: sign, mantissa
    and exponent read exactly.  (0 for NaN and the infinities.) *)
Definition exact (f : spec_float) : Q :=
  match f with
  | S754_finite s m e => (inject_Z (cond_Zopp s (Zpos m)) * 2 ^ e)%Q
  | _ => 0%Q
  end.

Definition value (v : float) : Q := exact (Prim2SF v).

(** A magnitude [M] with the sign [s]. *)
Definition signed (s : bool) (M : Q) : Q := if s then (- M)%Q else M.

#[global] Instance signed_proper : Proper (eq ==> Qeq ==> Qeq) signed.
Proof. intros s s' <- a b Hab. destruct s; cbn [signed]; rewrite Hab; reflexivity. Qed.

(** [{ x, y }] and ClipperLib's [{ X, Y }]: the coordinates are numbers. *)
Record Point : Type := mkPoint { x : float; y : float }.
Record IntPoint : Type := mkIntPoint { X : float; Y : float }.

Definition Polygon : Type := list Point.
Definition Path : Type := list IntPoint.
Definition Paths : Type := list Path.

(** ** [Math.round] *)

(** [floor (v + 1/2)] for [v = (-1)^s * m * 2^e] with [e < 0], computed on
    integers: [floor ((2 * (+-m) + 2^-e) / 2^(1-e))]. *)
Definition floor_half_up (s : bool) (m : positive) (e : Z) : Z :=
  ((2 * cond_Zopp s (Zpos m) + 2 ^ (- e)) / 2 ^ (1 - e))%Z.

(** [Math.round(v)].  NaN, the infinities and the zeros are returned as
    they are; so is a value with a non-negative exponent, an integer
    already.  Any other value [v] has [|v| < 2^52] and goes to the binary64
    value of [floor (v + 1/2)], which is [-0] when that integer is 0 and
    [v] is negative. *)
Definition Math_round (v : float) : float :=
  match Prim2SF v with
  | S754_finite s m e =>
      if (0 <=? e)%Z then v
      else SF2Prim (binary_normalize prec emax (floor_half_up s m e) 0 s)
  | _ => v
  end.

(** ** The fixed-point mapper: lines 1334-1347 *)

Definition scaleUpPath (path : Polygon) (scale : float) : Path :=
  map (fun point => {| X := Math_round (x point * scale);
                       Y := Math_round (y point * scale) |}) path.

Definition scaleDownPath (path : Path) (scale : float) : Polygon :=
  map (fun point => {| x := X point / scale;
                       y := Y point / scale |}) path.

(** [const scale = 100] and [const lineWidth = 1]. *)
Definition scale : float := 100.
Definition lineWidth : float := 1.

(** The two rounding rules the design document names, written from its
    words on exact values, to be compared with [Math_round]. *)
Definition round_half_away_from_zero (v : Q) : Z :=
  if Qle_bool 0 v then Qfloor (v + (1 # 2)) else (- Qfloor (- v + (1 # 2)))%Z.

Definition round_half_to_even (v : Q) : Z :=
  let f := Qfloor v in
  match ((v - inject_Z f) ?= (1 # 2))%Q with
  | Lt => f
  | Gt => (f + 1)%Z
  | Eq => if Z.even f then f else (f + 1)%Z
  end.

(** What it means for [rounded] to be [product] rounded to the nearest
    integer with ties toward +infinity. *)
Definition nearest_ties_up (product rounded : float) : Prop :=
  if finite product
  then finite rounded = true
       /\ exists n : Z,
            (value rounded == inject_Z n)%Q
            /\ (inject_Z n - (1 # 2) <= value product)%Q
            /\ (value product < inject_Z n + (1 # 2))%Q
  else rounded = product.

(** A coordinate the mapper handles without overflow, and what it means
    for it to come back from the lattice near where it started. *)
Definition moderate (c : float) : Prop :=
  finite c = true /\ (Qabs (value c) <= 2 ^ 40)%Q.

Definition returns_near (c c' : float) : Prop :=
  finite c' = true
  /\ (Qabs (value c' - value c) <= (1 # 200) + (Qabs (value c) + 1) * 2 ^ (-50))%Q.

(** ** The blade builder: lines 1264-1293 *)

Record Polyline : Type := mkPolyline {
  id : string;
  points0 : Point;
  points1 : Point;
  color : option string
}.

(** [Math.sqrt(dx * dx + dy * dy)], every operation rounded. *)
Definition segment_length (line : Polyline) : float :=
  let dx := x (points1 line) - x (points0 line) in
  let dy := y (points1 line) - y (points0 line) in
  sqrt (dx * dx + dy * dy).

(** [None] is the early [return] of the callback when [length === 0];
    [===] on numbers is the equality of IEEE 754, for which [-0] equals
    [0] and NaN equals nothing. *)
Definition bladePath (line : Polyline) : option Polygon :=
  let dx := x (points1 line) - x (points0 line) in
  let dy := y (points1 line) - y (points0 line) in
  let length := sqrt (dx * dx + dy * dy) in
  let offset := (lineWidth / 2) * scale in
  if length =? 0 then None
  else
    let normX := dy / length in
    let normY := - dx / length in
    Some
      [ {| x := x (points0 line) + normX * (offset / scale);
           y := y (points0 line) + normY * (offset / scale) |};
        {| x := x (points1 line) + normX * (offset / scale);
           y := y (points1 line) + normY * (offset / scale) |};
        {| x := x (points1 line) - normX * (offset / scale);
           y := y (points1 line) - normY * (offset / scale) |};
        {| x := x (points0 line) - normX * (offset / scale);
           y := y (points0 line) - normY * (offset / scale) |} ].

Definition segment (x0 y0 x1 y1 : float) : Polyline :=
  {| id := "cut"; points0 := {| x := x0; y := y0 |};
     points1 := {| x := x1; y := y1 |}; color := None |}.

(** ** The clipping engine, with state of its own *)

(** ClipperLib is a library of mutable objects.  [Library] is everything
    it holds between two calls, its engine objects and any variable of its
    own; [Clipper] is a reference to one engine object.  Every call takes
    the library as it is and leaves it updated.  The boolean that
    [AddPath] returns is dropped by the source, and [Execute] returns the
    [succeeded] flag together with the paths it stores in the (initially
    empty) [solution]. *)
Record ClipperLib : Type := mkClipperLib {
  Library : Type;
  Clipper : Type;
  new_Clipper : Library -> Clipper * Library;
  AddPath : Clipper -> Path -> PolyType -> bool -> Library -> Library;
  Execute : Clipper -> ClipType -> PolyFillType -> PolyFillType -> Library
            -> (bool * Paths) * Library
}.

(** The calls made on the engine and on the console. *)
Inductive Event : Type :=
| ClipperNew
| ClipperAddPath (path : Path) (polyType : PolyType) (closed : bool)
| ClipperExecute (clipType : ClipType) (subjFillType clipFillType : PolyFillType)
| ConsoleError (message : string)
| ConsoleLog (message : string) (polygons : list Polygon).

(** The [useState] cells of the component. *)
Record State : Type := mkState {
  width : float;
  height : float;
  polylines : list Polyline;
  selectedAlgorithm : string;
  selectedColorSet : string
}.

Definition canvas (w h : float) (lines : list Polyline) : State :=
  {| width := w; height := h; polylines := lines;
     selectedAlgorithm := EmptyString; selectedColorSet := "Sunset" |}.

Definition mainPolygon (st : State) : Polygon :=
  [ {| x := 0; y := 0 |};
    {| x := width st; y := 0 |};
    {| x := width st; y := height st |};
    {| x := 0; y := height st |} ].

Definition collectPolygons (solutionPaths : Paths) : list Polygon :=
  fold_left
    (fun polygons path =>
       if (0 <? List.length path)%nat
       then polygons ++ [scaleDownPath path scale]
       else polygons)
    solutionPaths [].

Section SplitSurface.

Variable lib : ClipperLib.

(** What a run can change: the library, and the record of the calls made
    so far on the engine and on the console. *)
Record World : Type := mkWorld {
  library : Library lib;
  calls : list Event
}.

Definition clipper_new (w : World) : Clipper lib * World :=
  let (clipper, lb) := new_Clipper lib (library w) in
  (clipper, {| library := lb; calls := calls w ++ [ClipperNew] |}).

Definition clipper_AddPath (clipper : Clipper lib) (path : Path)
    (polyType : PolyType) (closed : bool) (w : World) : World :=
  {| library := AddPath lib clipper path polyType closed (library w);
     calls := calls w ++ [ClipperAddPath path polyType closed] |}.

Definition clipper_Execute (clipper : Clipper lib) (clipType : ClipType)
    (subjFillType clipFillType : PolyFillType) (w : World)
    : (bool * Paths) * World :=
  let (r, lb) := Execute lib clipper clipType subjFillType clipFillType (library w) in
  (r, {| library := lb;
         calls := calls w ++ [ClipperExecute clipType subjFillType clipFillType] |}).

Definition console_error (message : string) (w : World) : World :=
  {| library := library w; calls := calls w ++ [ConsoleError message] |}.

Definition console_log (message : string) (polygons : list Polygon) (w : World)
    : World :=
  {| library := library w; calls := calls w ++ [ConsoleLog message polygons] |}.

(** The callback of [polylines.forEach], lines 1262-1300. *)
Definition addBlade (clipper : Clipper lib) (w : World) (line : Polyline) : World :=
  match bladePath line with
  | None => w
  | Some path =>
      let scaledClip := scaleUpPath path scale in
      clipper_AddPath clipper scaledClip ptClip true w
  end.

(** [splitSurface]: lines 1230-1331. *)
Definition splitSurface (st : State) (w : World) : list Polygon * World :=
  match polylines st with
  | [] => ([ mainPolygon st ], w)
  | _ :: _ =>
      let subj := scaleUpPath (mainPolygon st) scale in
      let (clipper, w) := clipper_new w in
      let w := clipper_AddPath clipper subj ptSubject true w in
      let w := fold_left (addBlade clipper) (polylines st) w in
      let (r, w) := clipper_Execute clipper ctDifference pftNonZero pftNonZero w in
      let (succeeded, solutionPaths) := r in
      if negb succeeded then
        ([], console_error "Failed to split the surface with the given polylines." w)
      else
        let polygons := collectPolygons solutionPaths in
        (polygons, console_log "SubSurfaces:" polygons w)
  end.

(** *** What a run hands to the engine, and what it gets back *)

(** The clip paths, in order: one per cut whose computed length is not 0. *)
Definition bladePaths (lines : list Polyline) : Paths :=
  flat_map
    (fun line => match bladePath line with
                 | None => []
                 | Some path => [scaleUpPath path scale]
                 end) lines.

(** The library after the subject and the clips have been added to the
    object [clipper]. *)
Definition loaded (clipper : Clipper lib) (subj : Path) (clips : Paths)
    (lb : Library lib) : Library lib :=
  fold_left (fun lb path => AddPath lib clipper path ptClip true lb) clips
    (AddPath lib clipper subj ptSubject true lb).

(** The outcome of the one [Execute] call of a run started in [w]. *)
Definition executed (st : State) (w : World) : (bool * Paths) * Library lib :=
  let (clipper, lb) := new_Clipper lib (library w) in
  Execute lib clipper ctDifference pftNonZero pftNonZero
    (loaded clipper (scaleUpPath (mainPolygon st) scale)
       (bladePaths (polylines st)) lb).

(** The calls of a run on the engine, in order. *)
Definition engineCalls (st : State) : list Event :=
  [ClipperNew; ClipperAddPath (scaleUpPath (mainPolygon st) scale) ptSubject true]
  ++ map (fun path => ClipperAddPath path ptClip true) (bladePaths (polylines st))
  ++ [ClipperExecute ctDifference pftNonZero pftNonZero].

(** The engine's answers depend on nothing but the paths: a new object,
    loaded with a subject and clips, answers the difference by [answer],
    whatever the library held when the object was made. *)
Definition answers_by (answer : Path -> Paths -> bool * Paths) : Prop :=
  forall (lb : Library lib) (subj : Path) (clips : Paths),
    fst (Execute lib (fst (new_Clipper lib lb)) ctDifference pftNonZero pftNonZero
           (loaded (fst (new_Clipper lib lb)) subj clips (snd (new_Clipper lib lb))))
    = answer subj clips.

End SplitSurface.

Arguments library {lib} w.
Arguments calls {lib} w.

(** What a run has written to the console. *)
Definition isConsole (e : Event) : bool :=
  match e with
  | ConsoleError _ | ConsoleLog _ _ => true
  | _ => false
  end.

Definition console {lib : ClipperLib} (w : World lib) : list Event :=
  filter isConsole (calls w).

(** The result of a run, from the engine's answers alone. *)
Definition partitionBy (answer : Path -> Paths -> bool * Paths) (st : State)
    : list Polygon :=
  match polylines st with
  | [] => [ mainPolygon st ]
  | _ :: _ =>
      let (succeeded, solutionPaths) :=
        answer (scaleUpPath (mainPolygon st) scale) (bladePaths (polylines st)) in
      if succeeded then collectPolygons solutionPaths else []
  end.

(** ** Concrete engines for the closed examples *)

(** An engine that keeps, for every object made, the subject paths added to
    it, and returns them untouched. *)
Definition appendTo (clipper : nat) (path : Path) (objects : list Paths) : list Paths :=
  firstn clipper objects
  ++ match skipn clipper objects with
     | [] => []
     | paths :: rest => (paths ++ [path]) :: rest
     end.

Definition subjectClipper : ClipperLib :=
  {| Library := list Paths;
     Clipper := nat;
     new_Clipper := fun objects => (List.length objects, objects ++ [[]]);
     AddPath := fun clipper path polyType _ objects =>
                  match polyType with
                  | ptSubject => appendTo clipper path objects
                  | ptClip => objects
                  end;
     Execute := fun clipper _ _ _ objects => ((true, nth clipper objects []), objects) |}.

(** An engine whose objects share one list of subject paths: a new object
    starts with the paths of the objects made before it. *)
Definition sharedClipper : ClipperLib :=
  {| Library := Paths;
     Clipper := unit;
     new_Clipper := fun paths => (tt, paths);
     AddPath := fun _ path polyType _ paths =>
                  match polyType with
                  | ptSubject => paths ++ [path]
                  | ptClip => paths
                  end;
     Execute := fun _ _ _ _ paths => ((true, paths), paths) |}.

(** ** Geometry of a blade, on the exact values of the coordinates *)

Definition px (p : Point) : Q := value (x p).
Definition py (p : Point) : Q := value (y p).

(** Twice the signed area of the triangle [a], [b], [c]: positive when the
    path from [a] over [b] to [c] turns to the left, the second axis drawn
    upwards (to the right, drawn downwards as on a canvas). *)
Definition turn (a b c : Point) : Q :=
  ((px b - px a) * (py c - py a) - (py b - py a) * (px c - px a))%Q.

(** All four corners of [a], [b], [c], [d] turn the same way. *)
Definition convex_positive (a b c d : Point) : Prop :=
  (0 < turn a b c /\ 0 < turn b c d /\ 0 < turn c d a /\ 0 < turn d a b)%Q.

(** Twice the signed area of the quadrilateral, by the shoelace formula. *)
Definition doubled_area (a b c d : Point) : Q :=
  (px a * py b - px b * py a + (px b * py c - px c * py b)
   + (px c * py d - px d * py c) + (px d * py a - px a * py d))%Q.

(** [(u, v)] lies on the side from [a] to [b], the ends included. *)
Definition on_side (a b : Point) (u v : Q) : Prop :=
  exists t : Q,
    (0 <= t <= 1 /\ u == px a + t * (px b - px a) /\ v == py a + t * (py b - py a))%Q.

(** The boundary of the quadrilateral does not meet itself: opposite sides
    have no point in common, and two sides that follow each other have
    none but the corner between them. *)
Definition simple_quadrilateral (a b c d : Point) : Prop :=
  (forall u v, on_side a b u v -> on_side c d u v -> False)
  /\ (forall u v, on_side b c u v -> on_side d a u v -> False)
  /\ (forall u v, on_side a b u v -> on_side b c u v -> (u == px b /\ v == py b)%Q)
  /\ (forall u v, on_side b c u v -> on_side c d u v -> (u == px c /\ v == py c)%Q)
  /\ (forall u v, on_side c d u v -> on_side d a u v -> (u == px d /\ v == py d)%Q)
  /\ (forall u v, on_side d a u v -> on_side a b u v -> (u == px a /\ v == py a)%Q).

(** A segment of a size the arithmetic handles without overflow, underflow
    or cancellation: finite coordinates of magnitude at most [2^20], and
    endpoints at least [2^-10] apart. *)
Definition tame (line : Polyline) : Prop :=
  let p := points0 line in
  let q := points1 line in
  finite (x p) = true /\ finite (y p) = true
  /\ finite (x q) = true /\ finite (y q) = true
  /\ (Qabs (px p) <= 2 ^ 20 /\ Qabs (py p) <= 2 ^ 20
      /\ Qabs (px q) <= 2 ^ 20 /\ Qabs (py q) <= 2 ^ 20
      /\ 2 ^ (-20) <= (px q - px p) * (px q - px p) + (py q - py p) * (py q - py p))%Q.

(** [o] is, up to rounding, one half of a unit normal of the segment: of
    length one half, at a right angle to the segment, and on its right
    hand side (the second axis drawn upwards). *)
Definition half_normal (line : Polyline) (o : Point) : Prop :=
  let ux := (px (points1 line) - px (points0 line))%Q in
  let uy := (py (points1 line) - py (points0 line))%Q in
  finite (x o) = true /\ finite (y o) = true
  /\ (Qabs (px o * px o + py o * py o - (1 # 4)) <= 2 ^ (-49)
      /\ Qabs (px o * ux + py o * uy) <= 2 ^ (-50) * (Qabs ux + Qabs uy)
      /\ 0 < px o * uy - py o * ux)%Q.

(** [a] is the point [p] moved by [o], respectively by [- o], up to the
    rounding of one addition in each coordinate. *)
Definition moved_by (p o a : Point) : Prop :=
  finite (x a) = true /\ finite (y a) = true
  /\ (Qabs (px a - (px p + px o)) <= 2 ^ (-31)
      /\ Qabs (py a - (py p + py o)) <= 2 ^ (-31))%Q.

Definition moved_against (p o a : Point) : Prop :=
  finite (x a) = true /\ finite (y a) = true
  /\ (Qabs (px a - (px p - px o)) <= 2 ^ (-31)
      /\ Qabs (py a - (py p - py o)) <= 2 ^ (-31))%Q.

End Binary64.

(** * Properties *)

Lemma Point_eq (p q : Point) : x p = x q -> y p = y q -> p = q.
Proof. destruct p, q; simpl; intros -> ->; reflexivity. Qed.

(** ** The floor and [Math_round] *)

Lemma Int_part_bounds (r : R) : IZR (Int_part r) <= r < IZR (Int_part r) + 1.
Proof. destruct (base_Int_part r); lra. Qed.

Lemma Int_part_eq (r : R) (z : Z) : IZR z <= r < IZR z + 1 -> Int_part r = z.
Proof. intros H; symmetry; apply Int_part_spec; lra. Qed.

Lemma Math_round_bounds (v : R) :
  IZR (Math_round v) - / 2 <= v < IZR (Math_round v) + / 2.
Proof. unfold Math_round; destruct (Int_part_bounds (v + / 2)); lra. Qed.

Lemma Math_round_eq (v : R) (n : Z) :
  IZR n - / 2 <= v < IZR n + / 2 -> Math_round v = n.
Proof. intros H; unfold Math_round; apply Int_part_eq; lra. Qed.

Lemma Math_round_IZR (n : Z) : Math_round (IZR n) = n.
Proof. apply Math_round_eq; lra. Qed.

(** ** Running [splitSurface] *)

Lemma collectPolygons_acc (solutionPaths : Paths) (acc : list Polygon) :
  fold_left
    (fun polygons path =>
       if (0 <? List.length path)%nat
       then polygons ++ [scaleDownPath path scale]
       else polygons)
    solutionPaths acc
  = acc ++ map (fun path => scaleDownPath path scale)
             (filter (fun path => (0 <? List.length path)%nat) solutionPaths).
Proof.
  revert acc; induction solutionPaths as [|path rest IH]; intros acc; simpl.
  - now rewrite app_nil_r.
  - rewrite IH. destruct (0 <? List.length path)%nat; simpl.
    + now rewrite <- app_assoc.
    + reflexivity.
Qed.

(** The returned list is the solution's non-empty rings, scaled down, in
    the engine's order. *)
Lemma collectPolygons_filter (solutionPaths : Paths) :
  collectPolygons solutionPaths
  = map (fun path => scaleDownPath path scale)
      (filter (fun path => (0 <? List.length path)%nat) solutionPaths).
Proof. unfold collectPolygons; now rewrite collectPolygons_acc. Qed.

Section Running.

Variable lib : ClipperLib.

Lemma forEach_addBlade (lines : list Polyline) (clipper : Clipper lib) (w : World) :
  forEach lines (addBlade lib) clipper w
  = (fold_left (fun c path => AddPath lib c path ptClip true)
       (bladePaths lines) clipper,
     w ++ map (fun path => ClipperAddPath path ptClip true) (bladePaths lines)).
Proof.
  revert clipper w; induction lines as [|line rest IH]; intros clipper w; simpl.
  - unfold ret; now rewrite app_nil_r.
  - unfold bind, addBlade. destruct (bladePath line) as [path|]; simpl.
    + unfold clipper_AddPath, bind, emit, ret. rewrite IH, <- app_assoc.
      reflexivity.
    + unfold ret. now rewrite IH.
Qed.

(** With no polyline the canvas is returned and nothing is called. *)
Lemma splitSurface_no_polylines (st : State) (w : World) :
  polylines st = [] -> splitSurface lib st w = ([mainPolygon st], w).
Proof. intros H; unfold splitSurface; rewrite H; reflexivity. Qed.

(** With polylines the engine is loaded, run once, and its outcome decides
    the result. *)
Lemma splitSurface_polylines (st : State) (w : World) :
  polylines st <> [] ->
  splitSurface lib st w
  = if fst (executed lib st)
    then (collectPolygons (snd (executed lib st)),
          w ++ engineCalls st
            ++ [ConsoleLog "SubSurfaces:" (collectPolygons (snd (executed lib st)))])
    else ([],
          w ++ engineCalls st
            ++ [ConsoleError "Failed to split the surface with the given polylines."]).
Proof.
  intros Hne. unfold splitSurface.
  destruct (polylines st) as [|line rest] eqn:Hp; [contradiction|].
  rewrite <- Hp.
  unfold bind at 1. unfold clipper_new, bind at 1, emit, ret.
  unfold bind at 1. unfold clipper_AddPath at 1. unfold bind at 1, emit, ret.
  unfold bind at 1. rewrite forEach_addBlade.
  unfold bind at 1. unfold clipper_Execute, bind at 1, emit, ret.
  unfold executed, loadedClipper, engineCalls.
  destruct (Execute lib _ ctDifference pftNonZero pftNonZero)
    as [succeeded solutionPaths]; simpl.
  destruct succeeded; simpl;
    unfold bind, console_log, console_error, emit, ret;
    repeat rewrite <- app_assoc; reflexivity.
Qed.

End Running.

(** ** The orchestration: no cuts, failure, canvas validation *)

(** C2: with an empty cut list the operation returns exactly one polygon,
    the canvas rectangle (0,0), (w,0), (w,h), (0,h) (equal to it, hence
    equal up to rotation of the point list), and the record of calls is
    left as it was: the clipping engine is not invoked. *)
Theorem C2_no_cuts_identity (lib : ClipperLib) (st : State) (w : World) :
  polylines st = [] ->
  splitSurface lib st w
  = ([ [ {| x := 0; y := 0 |}; {| x := width st; y := 0 |};
         {| x := width st; y := height st |}; {| x := 0; y := height st |} ] ],
     w)
  /\ exists p,
       fst (splitSurface lib st w) = [p]
       /\ rotation_of
            [ {| x := 0; y := 0 |}; {| x := width st; y := 0 |};
              {| x := width st; y := height st |}; {| x := 0; y := height st |} ]
            p.
Proof.
  intros H. rewrite (splitSurface_no_polylines lib st w H).
  split; [reflexivity|].
  exists (mainPolygon st). split; [reflexivity|].
  exists 0%nat. split; [simpl; lia | reflexivity].
Qed.

(** C2 at a 100 x 100 canvas with no cuts. *)
Lemma C2_no_cuts_identity_witness :
  polylines (canvas 100 100 []) = []
  /\ (splitSurface subjectClipper (canvas 100 100 []) []
      = ([ [ {| x := 0; y := 0 |}; {| x := 100; y := 0 |};
             {| x := 100; y := 100 |}; {| x := 0; y := 100 |} ] ], [])
      /\ exists p,
           fst (splitSurface subjectClipper (canvas 100 100 []) []) = [p]
           /\ rotation_of
                [ {| x := 0; y := 0 |}; {| x := 100; y := 0 |};
                  {| x := 100; y := 100 |}; {| x := 0; y := 100 |} ]
                p).
Proof.
  split; [reflexivity|].
  apply (C2_no_cuts_identity subjectClipper (canvas 100 100 []) []).
  reflexivity.
Defined.

(** C1, as stated, fails: when [Execute] reports failure the result is not
    the canvas.  With one horizontal cut on a 100 x 100 canvas and an
    engine that reports failure, the list returned is empty. *)
Lemma C1_counterexample :
  ~ (forall (lib : ClipperLib) (st : State) (w : World),
       polylines st <> [] ->
       fst (executed lib st) = false ->
       fst (splitSurface lib st w) = [mainPolygon st]).
Proof.
  intros H.
  specialize (H failingClipper (canvas 100 100 [segment 0 50 100 50]) []).
  rewrite splitSurface_polylines in H by discriminate.
  simpl in H. assert (E : @nil Polygon = [mainPolygon (canvas 100 100 [segment 0 50 100 50])]).
  { apply H; [discriminate | reflexivity]. }
  discriminate E.
Qed.

(** C1, amended: for every canvas and every non-empty cut list, if the
    engine's [Execute] reports failure, the operation reports it with
    [console.error], after the engine calls, and returns the empty list. *)
Theorem C1_failure_returns_empty (lib : ClipperLib) (st : State) (w : World) :
  polylines st <> [] ->
  fst (executed lib st) = false ->
  splitSurface lib st w
  = ([],
     w ++ engineCalls st
       ++ [ConsoleError "Failed to split the surface with the given polylines."]).
Proof.
  intros Hne Hfail. rewrite splitSurface_polylines by exact Hne.
  rewrite Hfail. reflexivity.
Qed.

(** C1, amended, at a 100 x 100 canvas with one horizontal cut and an
    engine that reports failure. *)
Lemma C1_failure_returns_empty_witness :
  polylines (canvas 100 100 [segment 0 50 100 50]) <> []
  /\ fst (executed failingClipper (canvas 100 100 [segment 0 50 100 50])) = false
  /\ splitSurface failingClipper (canvas 100 100 [segment 0 50 100 50]) []
     = ([],
        [] ++ engineCalls (canvas 100 100 [segment 0 50 100 50])
           ++ [ConsoleError "Failed to split the surface with the given polylines."]).
Proof.
  split; [discriminate|]. split; [reflexivity|].
  apply (C1_failure_returns_empty failingClipper
           (canvas 100 100 [segment 0 50 100 50]) []);
    [discriminate | reflexivity].
Defined.

(** C3, as stated, fails: nothing checks the canvas.  The only channels on
    which the operation can report are the list it returns and the
    console.  On a 0 x 0 canvas with no cuts it returns the rectangle whose
    four points are all (0,0) and reports nothing. *)
Lemma C3_counterexample :
  splitSurface subjectClipper (canvas 0 0 []) []
  = ([ [ {| x := 0; y := 0 |}; {| x := 0; y := 0 |};
         {| x := 0; y := 0 |}; {| x := 0; y := 0 |} ] ], [])
  /\ ~ (forall (lib : ClipperLib) (st : State),
          width st <= 0 \/ height st <= 0 ->
          exists message,
            In (ConsoleError message) (snd (splitSurface lib st []))).
Proof.
  split; [reflexivity|].
  intros H. destruct (H subjectClipper (canvas 0 0 [])) as [message Hin].
  - left; simpl; lra.
  - simpl in Hin. exact Hin.
Qed.

(** C3, amended: the operation makes no check of the canvas.  When width or
    height is non-positive it runs as for any other canvas: with an empty
    cut list it returns the rectangle (0,0), (w,0), (w,h), (0,h) as the
    single polygon and reports nothing; with a non-empty cut list it loads
    that rectangle as the subject, runs the engine once, and the only
    error it can report is the engine's failure. *)
Theorem C3_no_canvas_validation (lib : ClipperLib) (st : State) (w : World) :
  width st <= 0 \/ height st <= 0 ->
  (polylines st = [] ->
   splitSurface lib st w
   = ([ [ {| x := 0; y := 0 |}; {| x := width st; y := 0 |};
          {| x := width st; y := height st |}; {| x := 0; y := height st |} ] ],
      w))
  /\ (polylines st <> [] ->
      exists report,
        snd (splitSurface lib st w)
        = w ++ [ClipperNew;
                ClipperAddPath
                  (scaleUpPath
                     [ {| x := 0; y := 0 |}; {| x := width st; y := 0 |};
                       {| x := width st; y := height st |};
                       {| x := 0; y := height st |} ] scale)
                  ptSubject true]
            ++ map (fun path => ClipperAddPath path ptClip true)
                 (bladePaths (polylines st))
            ++ [ClipperExecute ctDifference pftNonZero pftNonZero; report]
        /\ (forall message,
              report = ConsoleError message -> fst (executed lib st) = false)).
Proof.
  intros _. split.
  - intros H. now rewrite (splitSurface_no_polylines lib st w H).
  - intros Hne. rewrite splitSurface_polylines by exact Hne.
    unfold engineCalls, mainPolygon.
    destruct (fst (executed lib st)); simpl snd.
    + eexists. split.
      * repeat rewrite <- app_assoc. simpl. reflexivity.
      * intros message Hm. discriminate Hm.
    + eexists. split.
      * repeat rewrite <- app_assoc. simpl. reflexivity.
      * reflexivity.
Qed.

(** C3, amended, at a 0 x 0 canvas with one cut. *)
Lemma C3_no_canvas_validation_witness :
  (width (canvas 0 0 [segment 0 0 1 1]) <= 0
   \/ height (canvas 0 0 [segment 0 0 1 1]) <= 0)
  /\ polylines (canvas 0 0 [segment 0 0 1 1]) <> []
  /\ exists report,
       snd (splitSurface failingClipper (canvas 0 0 [segment 0 0 1 1]) [])
       = [] ++ [ClipperNew;
                ClipperAddPath
                  (scaleUpPath (mainPolygon (canvas 0 0 [segment 0 0 1 1])) scale)
                  ptSubject true]
            ++ map (fun path => ClipperAddPath path ptClip true)
                 (bladePaths [segment 0 0 1 1])
            ++ [ClipperExecute ctDifference pftNonZero pftNonZero; report]
       /\ (forall message,
             report = ConsoleError message ->
             fst (executed failingClipper (canvas 0 0 [segment 0 0 1 1])) = false).
Proof.
  split; [left; simpl; lra|]. split; [discriminate|].
  apply (C3_no_canvas_validation failingClipper
           (canvas 0 0 [segment 0 0 1 1]) []);
    [left; simpl; lra | discriminate].
Defined.

(** ** Zero-length cuts *)

Lemma sum_squares_nonneg (a b : R) : 0 <= a * a + b * b.
Proof. nra. Qed.

Lemma sum_squares_zero (a b : R) : a * a + b * b = 0 -> a = 0 /\ b = 0.
Proof. intros H; split; nra. Qed.

(** A cut has length zero exactly when its two endpoints coincide. *)
Lemma segment_length_zero (line : Polyline) :
  segment_length line = 0 <-> points0 line = points1 line.
Proof.
  unfold segment_length; split.
  - intros H. cbv zeta in H. apply sqrt_eq_0 in H; [|apply sum_squares_nonneg].
    apply sum_squares_zero in H. destruct H as [Hx Hy].
    apply Point_eq; lra.
  - intros ->.
    replace ((x (points1 line) - x (points1 line)) * (x (points1 line) - x (points1 line))
             + (y (points1 line) - y (points1 line)) * (y (points1 line) - y (points1 line)))
      with 0 by ring.
    apply sqrt_0.
Qed.

Lemma bladePath_zero_length (line : Polyline) :
  segment_length line = 0 -> bladePath line = None.
Proof.
  unfold segment_length, bladePath; intros H.
  destruct (Req_dec_T _ 0) as [_|Hn]; [reflexivity | contradiction].
Qed.

Lemma bladePaths_skip (before after : list Polyline) (line : Polyline) :
  segment_length line = 0 ->
  bladePaths (before ++ line :: after) = bladePaths (before ++ after).
Proof.
  intros H. unfold bladePaths. rewrite !flat_map_app. simpl.
  now rewrite (bladePath_zero_length line H).
Qed.

(** Every coordinate the operation returns after an engine run is a
    lattice value divided by the scale. *)
Lemma scaleDownPath_on_lattice (path : Path) (p : Point) :
  In p (scaleDownPath path scale) -> exists n : Z, x p = IZR n / scale.
Proof.
  unfold scaleDownPath; rewrite in_map_iff.
  intros [q [<- _]]. exists (X q). reflexivity.
Qed.

Lemma eighth_off_lattice (n : Z) : IZR n / scale <> 1 / 8.
Proof.
  unfold scale; intros H.
  assert (E : IZR (2 * n) = IZR 25) by (rewrite mult_IZR; lra).
  apply eq_IZR in E. lia.
Qed.

(** Whatever the engine, a lone zero-length cut on a canvas of width 1/8
    does not give the no-cuts result: the engine run returns lattice
    coordinates only, the no-cuts path returns the width itself. *)
Lemma lone_zero_length_cut (lib : ClipperLib) (w : World) :
  fst (splitSurface lib (canvas (1 / 8) 1 [segment 0 0 0 0]) w)
  <> fst (splitSurface lib (canvas (1 / 8) 1 []) w).
Proof.
  rewrite splitSurface_polylines by discriminate.
  rewrite (splitSurface_no_polylines lib (canvas (1 / 8) 1 []) w eq_refl).
  destruct (fst (executed lib _)); simpl; [|discriminate].
  rewrite collectPolygons_filter.
  destruct (filter _ _) as [|path rest]; simpl; [discriminate|].
  intros H. injection H as Hpath _.
  destruct (scaleDownPath_on_lattice path {| x := 1 / 8; y := 0 |}) as [n Hn].
  - rewrite Hpath. unfold mainPolygon; simpl. right; left; reflexivity.
  - simpl in Hn. symmetry in Hn. exact (eighth_off_lattice n Hn).
Qed.

(** C6, as stated, fails when the zero-length cut is the only cut: the
    list with the cut takes the engine path, the list without it is empty
    and takes the no-cuts short-circuit. *)
Lemma C6_counterexample :
  ~ (forall (lib : ClipperLib) (st : State) (before after : list Polyline)
            (line : Polyline) (w : World),
       segment_length line = 0 ->
       fst (splitSurface lib (setPolylines st (before ++ line :: after)) w)
       = fst (splitSurface lib (setPolylines st (before ++ after)) w)).
Proof.
  intros H.
  apply (lone_zero_length_cut subjectClipper []).
  apply (H subjectClipper (canvas (1 / 8) 1 []) [] [] (segment 0 0 0 0) []).
  apply segment_length_zero. reflexivity.
Qed.

(** C6, amended: for every canvas and every cut list containing a
    zero-length segment, provided other cuts remain once it is removed, the
    operation makes the same engine calls and returns the same result as on
    the list without that segment: the segment is skipped and adds no
    blade. *)
Theorem C6_zero_length_cut_skipped (lib : ClipperLib) (st : State)
    (before after : list Polyline) (line : Polyline) (w : World) :
  segment_length line = 0 ->
  before ++ after <> [] ->
  splitSurface lib (setPolylines st (before ++ line :: after)) w
  = splitSurface lib (setPolylines st (before ++ after)) w.
Proof.
  intros Hz Hne.
  rewrite splitSurface_polylines by (simpl; destruct before; discriminate).
  rewrite splitSurface_polylines by (simpl; exact Hne).
  unfold executed, loadedClipper, engineCalls, mainPolygon; simpl.
  rewrite (bladePaths_skip before after line Hz). reflexivity.
Qed.

(** C6, amended, at a 100 x 100 canvas with a horizontal cut followed by a
    zero-length cut at (30,30). *)
Lemma C6_zero_length_cut_skipped_witness :
  segment_length (segment 30 30 30 30) = 0
  /\ [segment 0 50 100 50] ++ [] <> []
  /\ splitSurface subjectClipper
       (setPolylines (canvas 100 100 [])
          ([segment 0 50 100 50] ++ segment 30 30 30 30 :: [])) []
     = splitSurface subjectClipper
         (setPolylines (canvas 100 100 []) ([segment 0 50 100 50] ++ [])) [].
Proof.
  assert (Hz : segment_length (segment 30 30 30 30) = 0)
    by (apply segment_length_zero; reflexivity).
  split; [exact Hz|]. split; [discriminate|].
  apply (C6_zero_length_cut_skipped subjectClipper (canvas 100 100 [])
           [segment 0 50 100 50] [] (segment 30 30 30 30) []);
    [exact Hz | discriminate].
Defined.

(** ** Parallelograms: simple rings of known area *)

Lemma independent_directions (ux uy vx vy a b : R) :
  cross ux uy vx vy <> 0 ->
  a * ux + b * vx = 0 -> a * uy + b * vy = 0 -> a = 0 /\ b = 0.
Proof.
  intros Hc H1 H2.
  assert (Ha : a * cross ux uy vx vy = 0).
  { replace (a * cross ux uy vx vy)
      with ((a * ux + b * vx) * vy - (a * uy + b * vy) * vx)
      by (unfold cross; ring).
    rewrite H1, H2; ring. }
  assert (Hb : b * cross ux uy vx vy = 0).
  { replace (b * cross ux uy vx vy)
      with (ux * (a * uy + b * vy) - uy * (a * ux + b * vx))
      by (unfold cross; ring).
    rewrite H1, H2; ring. }
  split.
  - destruct (Rmult_integral _ _ Ha); [assumption | contradiction].
  - destruct (Rmult_integral _ _ Hb); [assumption | contradiction].
Qed.

Lemma parallelogram_boundary (o u v : Point) (k : nat) (s : R) :
  (k < 4)%nat ->
  boundary_point (parallelogram o u v) k s
  = {| x := x o + along_u k s * x u + along_v k s * x v;
       y := y o + along_u k s * y u + along_v k s * y v |}.
Proof.
  intros Hk.
  destruct k as [|[|[|[|k]]]]; try lia;
    unfold boundary_point; simpl; apply Point_eq; simpl; ring.
Qed.

Lemma parallelogram_simple (o u v : Point) :
  cross (x u) (y u) (x v) (y v) <> 0 -> simple (parallelogram o u v).
Proof.
  intros Hc i j s t Hi Hj Hs Ht Heq. simpl in Hi, Hj.
  rewrite !parallelogram_boundary in Heq by assumption.
  injection Heq as Hx Hy.
  destruct (independent_directions (x u) (y u) (x v) (y v)
              (along_u i s - along_u j t) (along_v i s - along_v j t) Hc)
    as [Ha Hb]; [lra | lra |].
  destruct i as [|[|[|[|i]]]]; try lia;
    destruct j as [|[|[|[|j]]]]; try lia;
    simpl in Ha, Hb; first [ lra | split; [reflexivity | lra] ].
Qed.

Lemma parallelogram_signed_area (o u v : Point) :
  signed_area (parallelogram o u v) = cross (x u) (y u) (x v) (y v).
Proof. unfold signed_area, parallelogram, cross; simpl; unfold cross; simpl; field. Qed.

Lemma parallelogram_three_distinct (o u v : Point) :
  cross (x u) (y u) (x v) (y v) <> 0 ->
  three_distinct_points (parallelogram o u v).
Proof.
  intros Hc. unfold cross in Hc.
  exists o, {| x := x o + x u; y := y o + y u |}, {| x := x o + x v; y := y o + y v |}.
  repeat split; simpl; auto.
  - intros E. destruct o as [ox oy]; simpl in E. injection E as Ex Ey.
    apply Hc. replace (x u) with 0 by lra. replace (y u) with 0 by lra. ring.
  - intros E. destruct o as [ox oy]; simpl in E. injection E as Ex Ey.
    apply Hc. replace (x v) with 0 by lra. replace (y v) with 0 by lra. ring.
  - intros E. injection E as Ex Ey.
    apply Hc. replace (x u) with (x v) by lra. replace (y u) with (y v) by lra. ring.
Qed.

(** The canvas is the parallelogram on (w,0) and (0,h). *)
Lemma mainPolygon_parallelogram (st : State) :
  mainPolygon st
  = parallelogram {| x := 0; y := 0 |} {| x := width st; y := 0 |}
      {| x := 0; y := height st |}.
Proof.
  unfold mainPolygon, parallelogram; simpl.
  repeat (f_equal; try (apply Point_eq; simpl; ring)).
Qed.

Lemma mainPolygon_positive (st : State) :
  0 < width st -> 0 < height st ->
  simple (mainPolygon st)
  /\ three_distinct_points (mainPolygon st)
  /\ area (mainPolygon st) = width st * height st.
Proof.
  intros Hw Hh. rewrite mainPolygon_parallelogram.
  assert (Hc : cross (width st) 0 0 (height st) <> 0) by (unfold cross; nra).
  split; [|split].
  - apply parallelogram_simple; exact Hc.
  - apply parallelogram_three_distinct; exact Hc.
  - unfold area. rewrite parallelogram_signed_area. simpl. unfold cross.
    rewrite Rabs_pos_eq by nra. ring.
Qed.

(** ** The blade builder *)

Lemma segment_length_pos (line : Polyline) :
  points0 line <> points1 line -> 0 < segment_length line.
Proof.
  intros Hne.
  assert (H0 : 0 <= segment_length line) by (unfold segment_length; apply sqrt_pos).
  assert (H1 : segment_length line <> 0)
    by (intros E; apply Hne, segment_length_zero, E).
  lra.
Qed.

(** The blade the code builds, with the normal [(dy, -dx) / length] and the
    half-width [offset / scale = 1/2] made explicit. *)
Lemma bladePath_points (line : Polyline) :
  points0 line <> points1 line ->
  bladePath line
  = Some
      [ {| x := x (points0 line)
                + 1 / 2 * ((y (points1 line) - y (points0 line)) / segment_length line);
           y := y (points0 line)
                + 1 / 2 * (- (x (points1 line) - x (points0 line)) / segment_length line) |};
        {| x := x (points1 line)
                + 1 / 2 * ((y (points1 line) - y (points0 line)) / segment_length line);
           y := y (points1 line)
                + 1 / 2 * (- (x (points1 line) - x (points0 line)) / segment_length line) |};
        {| x := x (points1 line)
                - 1 / 2 * ((y (points1 line) - y (points0 line)) / segment_length line);
           y := y (points1 line)
                - 1 / 2 * (- (x (points1 line) - x (points0 line)) / segment_length line) |};
        {| x := x (points0 line)
                - 1 / 2 * ((y (points1 line) - y (points0 line)) / segment_length line);
           y := y (points0 line)
                - 1 / 2 * (- (x (points1 line) - x (points0 line)) / segment_length line) |} ].
Proof.
  intros Hne. pose proof (segment_length_pos line Hne) as HL.
  unfold bladePath, segment_length in *.
  destruct (Req_dec_T _ 0) as [E|_]; [lra|].
  cbv zeta in HL.
  repeat (f_equal; try (apply Point_eq; simpl; unfold lineWidth, scale; field; lra)).
Qed.

(** ** A cut outside the canvas: the result is the engine's *)

Lemma subjectClipper_executed (st : State) :
  executed subjectClipper st = (true, [scaleUpPath (mainPolygon st) scale]).
Proof.
  unfold executed, loadedClipper; simpl.
  induction (bladePaths (polylines st)) as [|path rest IH] using rev_ind.
  - reflexivity.
  - rewrite fold_left_app; simpl. exact IH.
Qed.

(** A 100 x 100 canvas lies on the lattice: scaling it up and back down
    returns it. *)
Lemma canvas_on_lattice (lines : list Polyline) :
  scaleDownPath (scaleUpPath (mainPolygon (canvas 100 100 lines)) scale) scale
  = mainPolygon (canvas 100 100 lines).
Proof.
  unfold scaleDownPath, scaleUpPath, mainPolygon, scale; simpl.
  rewrite (Math_round_eq (0 * 100) 0) by lra.
  rewrite (Math_round_eq (100 * 100) 10000) by lra.
  repeat (f_equal; try (apply Point_eq; simpl; lra)).
Qed.

(** With the cut (200,200)-(300,300) on a 100 x 100 canvas the result is
    what the engine answers: an engine that returns its subject gives the
    whole canvas, an engine that reports failure gives the empty list. *)
Lemma outside_cut_subject_engine :
  fst (splitSurface subjectClipper (canvas 100 100 [segment 200 200 300 300]) [])
  = fst (splitSurface subjectClipper (canvas 100 100 []) []).
Proof.
  rewrite splitSurface_polylines by discriminate.
  rewrite subjectClipper_executed. cbn [fst snd].
  rewrite (splitSurface_no_polylines subjectClipper (canvas 100 100 []) [] eq_refl).
  cbn [fst].
  change (collectPolygons
            [scaleUpPath (mainPolygon (canvas 100 100 [segment 200 200 300 300])) scale])
    with [scaleDownPath
            (scaleUpPath (mainPolygon (canvas 100 100 [segment 200 200 300 300])) scale)
            scale].
  rewrite canvas_on_lattice. reflexivity.
Qed.

Lemma outside_cut_failing_engine :
  fst (splitSurface failingClipper (canvas 100 100 [segment 200 200 300 300]) [])
  = [].
Proof. rewrite splitSurface_polylines by discriminate. reflexivity. Qed.

(** * Further properties *)

(** ** What a cut contributes *)

Lemma bladePath_endpoints (l1 l2 : Polyline) :
  endpoints l1 = endpoints l2 -> bladePath l1 = bladePath l2.
Proof.
  unfold endpoints; intros E. injection E as E0 E1.
  unfold bladePath. now rewrite E0, E1.
Qed.

Lemma bladePaths_endpoints (lines1 lines2 : list Polyline) :
  map endpoints lines1 = map endpoints lines2 ->
  bladePaths lines1 = bladePaths lines2.
Proof.
  revert lines2; induction lines1 as [|l1 rest IH]; intros [|l2 rest2] E;
    simpl in E; try discriminate; [reflexivity|].
  assert (E1 : endpoints l1 = endpoints l2) by congruence.
  assert (Erest : map endpoints rest = map endpoints rest2) by congruence.
  simpl. now rewrite (bladePath_endpoints l1 l2 E1), (IH rest2 Erest).
Qed.

(** X2: The identifier and the colour of a cut play no part: two cut lists with
    the same endpoints, in the same order, on the same canvas, give the
    same polygons. *)
Theorem result_depends_on_endpoints (lib : ClipperLib) (st1 st2 : State)
    (w1 w2 : World) :
  width st1 = width st2 ->
  height st1 = height st2 ->
  map endpoints (polylines st1) = map endpoints (polylines st2) ->
  fst (splitSurface lib st1 w1) = fst (splitSurface lib st2 w2).
Proof.
  intros Hw Hh Hp.
  assert (Hexec : executed lib st1 = executed lib st2).
  { unfold executed, loadedClipper, mainPolygon.
    now rewrite Hw, Hh, (bladePaths_endpoints _ _ Hp). }
  destruct (polylines st1) as [|l1 r1] eqn:H1;
    destruct (polylines st2) as [|l2 r2] eqn:H2; try discriminate Hp.
  - rewrite (splitSurface_no_polylines lib st1 w1 H1).
    rewrite (splitSurface_no_polylines lib st2 w2 H2).
    unfold mainPolygon. now rewrite Hw, Hh.
  - rewrite (splitSurface_polylines lib st1 w1) by (rewrite H1; discriminate).
    rewrite (splitSurface_polylines lib st2 w2) by (rewrite H2; discriminate).
    rewrite Hexec. destruct (fst (executed lib st2)); reflexivity.
Qed.

Lemma result_depends_on_endpoints_witness :
  width (canvas 100 100 [segment 0 50 100 50])
  = width (canvas 100 100
             [mkPolyline "other" (mkPoint 0 50) (mkPoint 100 50) (Some "#ff0000"%string)])
  /\ height (canvas 100 100 [segment 0 50 100 50])
     = height (canvas 100 100
                 [mkPolyline "other" (mkPoint 0 50) (mkPoint 100 50) (Some "#ff0000"%string)])
  /\ map endpoints (polylines (canvas 100 100 [segment 0 50 100 50]))
     = map endpoints
         (polylines (canvas 100 100
            [mkPolyline "other" (mkPoint 0 50) (mkPoint 100 50) (Some "#ff0000"%string)]))
  /\ fst (splitSurface subjectClipper (canvas 100 100 [segment 0 50 100 50]) [])
     = fst (splitSurface subjectClipper
              (canvas 100 100
                 [mkPolyline "other" (mkPoint 0 50) (mkPoint 100 50) (Some "#ff0000"%string)])
              []).
Proof.
  repeat (split; [reflexivity|]).
  apply (result_depends_on_endpoints subjectClipper
           (canvas 100 100 [segment 0 50 100 50])
           (canvas 100 100
              [mkPolyline "other" (mkPoint 0 50) (mkPoint 100 50) (Some "#ff0000"%string)])
           [] []);
    reflexivity.
Defined.

Lemma segment_length_reversed (line : Polyline) :
  segment_length (reversed line) = segment_length line.
Proof. unfold segment_length, reversed; simpl. f_equal. ring. Qed.

Lemma segment_length_nonzero (line : Polyline) :
  segment_length line <> 0 -> points0 line <> points1 line.
Proof. intros H E. apply H, segment_length_zero, E. Qed.

(** X4: Drawing a cut from its other end gives the same blade: the same four
    points, listed from the opposite corner.  A zero-length cut gives no
    blade either way. *)
Theorem bladePath_reversed (line : Polyline) :
  bladePath (reversed line)
  = option_map (fun blade => skipn 2 blade ++ firstn 2 blade) (bladePath line).
Proof.
  destruct (Req_dec_T (segment_length line) 0) as [E%segment_length_zero|Hne%segment_length_nonzero].
  - rewrite (bladePath_zero_length line) by (apply segment_length_zero; exact E).
    rewrite (bladePath_zero_length (reversed line))
      by (apply segment_length_zero; simpl; congruence).
    reflexivity.
  - assert (Hne' : points0 (reversed line) <> points1 (reversed line))
      by (simpl; congruence).
    pose proof (segment_length_pos line Hne) as HL.
    rewrite (bladePath_points _ Hne'), (bladePath_points _ Hne).
    rewrite segment_length_reversed. simpl.
    repeat (f_equal; try (apply Point_eq; simpl; field; lra)).
Qed.

(** ** Hex colours: [hexToRgb] and [rgbToHex] *)

#[local] Arguments Z.mul : simpl never.
#[local] Arguments Z.add : simpl never.
#[local] Arguments hexDigitValue : simpl never.

Lemma hexDigitValue_range (c : ascii) (v : Z) :
  hexDigitValue c = Some v -> (0 <= v <= 15)%Z.
Proof.
  destruct c as [[] [] [] [] [] [] [] []]; vm_compute; intros E;
    solve [discriminate E | injection E as <-; split; discriminate].
Qed.

Lemma hexDigit_not_hash (c : ascii) (v : Z) :
  hexDigitValue c = Some v -> Ascii.eqb c "#" = false.
Proof.
  destruct c as [[] [] [] [] [] [] [] []]; vm_compute; intros E;
    solve [reflexivity | discriminate E].
Qed.

Lemma hexDigitValue_hexDigitChar (d : Z) :
  (0 <= d <= 15)%Z -> hexDigitValue (hexDigitChar d) = Some d.
Proof.
  intros H. replace d with (Z.of_nat (Z.to_nat d)) by lia.
  assert (Hk : (Z.to_nat d < 16)%nat) by lia.
  remember (Z.to_nat d) as k eqn:E. clear E H.
  do 16 (destruct k as [|k]; [reflexivity|]). lia.
Qed.

(** [hexToRgb] in normal form. *)
Lemma hexToRgb_rgbOfDigits (hex : string) :
  hexToRgb hex = rgbOfDigits (list_ascii_of_string (stripHash hex)).
Proof.
  unfold hexToRgb, expandShorthand.
  destruct (stripHash hex)
    as [|c1 [|c2 [|c3 [|c4 [|c5 [|c6 [|c7 rest]]]]]]] eqn:E;
    try (rewrite E; reflexivity).
  - unfold isHexDigit.
    destruct (hexDigitValue c1) as [v1|] eqn:E1;
      destruct (hexDigitValue c2) as [v2|] eqn:E2;
      destruct (hexDigitValue c3) as [v3|] eqn:E3;
      simpl; try (rewrite E; simpl; rewrite ?E1, ?E2, ?E3; reflexivity).
    rewrite (hexDigit_not_hash c1 v1 E1). simpl. unfold parseInt16.
    rewrite E1, E2, E3. do 2 f_equal; lia.
  - rewrite E. simpl. unfold parseInt16.
    destruct (hexDigitValue c1); destruct (hexDigitValue c2);
      destruct (hexDigitValue c3); destruct (hexDigitValue c4);
      destruct (hexDigitValue c5); destruct (hexDigitValue c6); reflexivity.
Qed.

Lemma rgbOfDigits_length (digits : list ascii) :
  List.length digits <> 3%nat -> List.length digits <> 6%nat ->
  rgbOfDigits digits = None.
Proof.
  destruct digits as [|c1 [|c2 [|c3 [|c4 [|c5 [|c6 [|c7 rest]]]]]]];
    simpl; intros H3 H6; try reflexivity; contradiction.
Qed.

(** X8: [hexToRgb] accepts exactly the strings that, after one optional leading
    [#], are three or six hexadecimal digits (either case); it answers
    [null] on every other string.  Each component it returns is an integer
    from 0 to 255. *)
Theorem hexToRgb_accepts (hex : string) :
  (hexToRgb hex <> None
   <-> (List.length (list_ascii_of_string (stripHash hex)) = 3%nat
        \/ List.length (list_ascii_of_string (stripHash hex)) = 6%nat)
       /\ forallb isHexDigit (list_ascii_of_string (stripHash hex)) = true)
  /\ (forall c, hexToRgb hex = Some c ->
        (0 <= r c <= 255 /\ 0 <= g c <= 255 /\ 0 <= b c <= 255)%Z).
Proof.
  rewrite hexToRgb_rgbOfDigits.
  destruct (list_ascii_of_string (stripHash hex))
    as [|c1 [|c2 [|c3 [|c4 [|c5 [|c6 [|c7 rest]]]]]]];
    simpl; unfold isHexDigit;
    try (split; [split; [intros H; contradiction H; reflexivity
                        | intros [[H|H] _]; discriminate H]
                | intros c H; discriminate H]).
  - destruct (hexDigitValue c1) as [v1|] eqn:E1;
      destruct (hexDigitValue c2) as [v2|] eqn:E2;
      destruct (hexDigitValue c3) as [v3|] eqn:E3; simpl;
      try (split; [split; [intros H; contradiction H; reflexivity
                          | intros [_ H]; discriminate H]
                  | intros c H; discriminate H]).
    split; [split; [intros _; split; [left|]; reflexivity | discriminate]|].
    intros c H; injection H as <-; simpl.
    apply hexDigitValue_range in E1, E2, E3. lia.
  - destruct (hexDigitValue c1) as [v1|] eqn:E1;
      destruct (hexDigitValue c2) as [v2|] eqn:E2;
      destruct (hexDigitValue c3) as [v3|] eqn:E3;
      destruct (hexDigitValue c4) as [v4|] eqn:E4;
      destruct (hexDigitValue c5) as [v5|] eqn:E5;
      destruct (hexDigitValue c6) as [v6|] eqn:E6; simpl;
      try (split; [split; [intros H; contradiction H; reflexivity
                          | intros [_ H]; discriminate H]
                  | intros c H; discriminate H]).
    split; [split; [intros _; split; [right|]; reflexivity | discriminate]|].
    intros c H; injection H as <-; simpl.
    apply hexDigitValue_range in E1, E2, E3, E4, E5, E6. lia.
Qed.

(** X9: The three-digit form is the six-digit form with each digit doubled,
    with or without the [#]: each component is 17 times its digit. *)
Theorem hexToRgb_shorthand (c1 c2 c3 : ascii) (v1 v2 v3 : Z) :
  hexDigitValue c1 = Some v1 ->
  hexDigitValue c2 = Some v2 ->
  hexDigitValue c3 = Some v3 ->
  hexToRgb (String "#" (String c1 (String c2 (String c3 EmptyString))))
  = Some {| r := 17 * v1; g := 17 * v2; b := 17 * v3 |}
  /\ hexToRgb (String c1 (String c2 (String c3 EmptyString)))
     = Some {| r := 17 * v1; g := 17 * v2; b := 17 * v3 |}
  /\ hexToRgb (String "#" (String c1 (String c1 (String c2 (String c2
                 (String c3 (String c3 EmptyString)))))))
     = Some {| r := 17 * v1; g := 17 * v2; b := 17 * v3 |}.
Proof.
  intros E1 E2 E3. rewrite !hexToRgb_rgbOfDigits.
  unfold stripHash. rewrite (hexDigit_not_hash c1 v1 E1).
  simpl. rewrite E1, E2, E3. repeat split; do 2 f_equal; lia.
Qed.

Lemma hexToRgb_shorthand_witness :
  hexDigitValue "a" = Some 10%Z
  /\ hexDigitValue "B" = Some 11%Z
  /\ hexDigitValue "3" = Some 3%Z
  /\ hexToRgb "#aB3" = Some {| r := 17 * 10; g := 17 * 11; b := 17 * 3 |}
  /\ hexToRgb "aB3" = Some {| r := 17 * 10; g := 17 * 11; b := 17 * 3 |}
  /\ hexToRgb "#aaBB33" = Some {| r := 17 * 10; g := 17 * 11; b := 17 * 3 |}.
Proof.
  repeat (split; [reflexivity|]).
  apply (hexToRgb_shorthand "a" "B" "3" 10 11 3); reflexivity.
Defined.

Lemma list_ascii_of_string_append (s t : string) :
  list_ascii_of_string (s ++ t) = list_ascii_of_string s ++ list_ascii_of_string t.
Proof. induction s as [|c s IH]; simpl; [reflexivity | now rewrite IH]. Qed.

Lemma hexStringValue_snoc (s : string) (c : ascii) :
  hexStringValue (s ++ String c EmptyString)
  = match hexStringValue s, hexDigitValue c with
    | Some v, Some d => Some (16 * v + d)%Z
    | _, _ => None
    end.
Proof.
  unfold hexStringValue. rewrite list_ascii_of_string_append, fold_left_app.
  reflexivity.
Qed.

(** The digits written for a non-negative integer read back as that
    integer, as soon as the fuel covers them. *)
Lemma toHexDigits_value (fuel : nat) :
  forall n : Z, (0 <= n < 16 ^ Z.of_nat fuel)%Z -> (1 <= fuel)%nat ->
    hexStringValue (toHexDigits fuel n) = Some n.
Proof.
  induction fuel as [|fuel IH]; intros n Hn Hf; [lia|].
  cbn [toHexDigits]. destruct (Z.ltb_spec n 16) as [Hlt|Hge].
  - unfold hexStringValue; cbn [list_ascii_of_string fold_left].
    rewrite hexDigitValue_hexDigitChar by lia. f_equal; lia.
  - rewrite Nat2Z.inj_succ, Z.pow_succ_r in Hn by lia.
    assert (Hq : (0 <= n / 16 < 16 ^ Z.of_nat fuel)%Z).
    { split; [apply Z.div_pos; lia|]. apply Z.div_lt_upper_bound; lia. }
    assert (Hf' : (1 <= fuel)%nat).
    { destruct fuel; [simpl in Hn; lia | lia]. }
    rewrite hexStringValue_snoc, (IH _ Hq Hf').
    pose proof (Z.mod_pos_bound n 16 ltac:(lia)) as Hm.
    rewrite hexDigitValue_hexDigitChar by lia.
    f_equal. pose proof (Z.div_mod n 16 ltac:(lia)). lia.
Qed.

Lemma Number_toString16_value (n : Z) :
  (0 <= n)%Z -> hexStringValue (Number_toString16 n) = Some n.
Proof.
  intros Hn. unfold Number_toString16.
  destruct (Z.ltb_spec n 0) as [H|_]; [lia|].
  apply toHexDigits_value; [|lia].
  split; [exact Hn|].
  destruct (Z.eq_dec n 0) as [->|Hnz]; [reflexivity|].
  destruct (Z.log2_spec n) as [_ Hup]; [lia|].
  rewrite Nat2Z.inj_succ, Z2Nat.id by apply Z.log2_nonneg.
  eapply Z.lt_le_trans; [exact Hup|].
  change 16%Z with (2 ^ 4)%Z. rewrite <- Z.pow_mul_r by (pose proof (Z.log2_nonneg n); lia).
  apply Z.pow_le_mono_r; pose proof (Z.log2_nonneg n); lia.
Qed.

Lemma checked_below (P : Z -> Prop) (bound : nat) :
  Forall P (map Z.of_nat (seq 0 bound)) ->
  forall n : Z, (0 <= n < Z.of_nat bound)%Z -> P n.
Proof.
  intros HF n Hn. rewrite Forall_forall in HF. apply HF.
  apply in_map_iff. exists (Z.to_nat n). split; [lia|].
  apply in_seq. lia.
Qed.

(** A component from 0 to 255 is written as exactly two digits that read
    back as the component. *)
Lemma component_two_digits (n : Z) :
  (0 <= n <= 255)%Z ->
  exists c1 c2,
    pad2 (Number_toString16 n) = String c1 (String c2 EmptyString)
    /\ parseInt16 c1 c2 = Some n.
Proof.
  intros Hn.
  apply (checked_below
           (fun n => exists c1 c2,
                pad2 (Number_toString16 n) = String c1 (String c2 EmptyString)
                /\ parseInt16 c1 c2 = Some n) 256); [|lia].
  repeat (constructor;
          [do 2 eexists; split; [vm_compute; reflexivity | reflexivity]|]).
  constructor.
Qed.

Lemma rgb_round_trip (red green blue : Z) :
  (0 <= red <= 255)%Z -> (0 <= green <= 255)%Z -> (0 <= blue <= 255)%Z ->
  hexToRgb (rgbToHex red green blue)
  = Some {| r := red; g := green; b := blue |}
  /\ String.length (rgbToHex red green blue) = 7%nat.
Proof.
  intros Hr Hg Hb.
  destruct (component_two_digits red Hr) as (r1 & r2 & Er & Pr).
  destruct (component_two_digits green Hg) as (g1 & g2 & Eg & Pg).
  destruct (component_two_digits blue Hb) as (b1 & b2 & Eb & Pb).
  unfold rgbToHex. cbn [map String.concat]. rewrite Er, Eg, Eb.
  split; [|reflexivity].
  unfold hexToRgb, expandShorthand. simpl. now rewrite Pr, Pg, Pb.
Qed.

(** X10: Every integer component from 0 to 255 survives the round trip:
    [rgbToHex] writes seven characters that [hexToRgb] reads back as the
    same three components. *)
Theorem hexToRgb_rgbToHex (red green blue : Z) :
  (0 <= red <= 255)%Z -> (0 <= green <= 255)%Z -> (0 <= blue <= 255)%Z ->
  hexToRgb (rgbToHex red green blue)
  = Some {| r := red; g := green; b := blue |}
  /\ String.length (rgbToHex red green blue) = 7%nat.
Proof. apply rgb_round_trip. Qed.

Lemma hexToRgb_rgbToHex_witness :
  (0 <= 255 <= 255)%Z /\ (0 <= 94 <= 255)%Z /\ (0 <= 0 <= 255)%Z
  /\ hexToRgb (rgbToHex 255 94 0) = Some {| r := 255; g := 94; b := 0 |}
  /\ String.length (rgbToHex 255 94 0) = 7%nat.
Proof.
  split; [lia|]. split; [lia|]. split; [lia|].
  apply (hexToRgb_rgbToHex 255 94 0); lia.
Defined.

Lemma string_length_append (s t : string) :
  String.length (s ++ t) = (String.length s + String.length t)%nat.
Proof. induction s as [|c s IH]; simpl; [reflexivity | now rewrite IH]. Qed.

Lemma list_ascii_length (s : string) :
  List.length (list_ascii_of_string s) = String.length s.
Proof. induction s as [|c s IH]; simpl; [reflexivity | now rewrite IH]. Qed.

Lemma toHexDigits_nonempty (fuel : nat) (n : Z) :
  (1 <= fuel)%nat -> (1 <= String.length (toHexDigits fuel n))%nat.
Proof.
  destruct fuel as [|fuel]; [lia|]. intros _. cbn [toHexDigits].
  destruct (n <? 16)%Z; [simpl; lia|].
  rewrite string_length_append. simpl. lia.
Qed.

Lemma toHexDigits_three (fuel : nat) (n : Z) :
  (3 <= fuel)%nat -> (256 <= n)%Z ->
  (3 <= String.length (toHexDigits fuel n))%nat.
Proof.
  destruct fuel as [|[|fuel]]; try lia. intros Hf Hn. cbn [toHexDigits].
  destruct (Z.ltb_spec n 16) as [H|_]; [lia|].
  assert (Hq : (16 <= n / 16)%Z) by (apply Z.div_le_lower_bound; lia).
  destruct (Z.ltb_spec (n / 16) 16) as [H|_]; [lia|].
  rewrite !string_length_append. simpl.
  pose proof (toHexDigits_nonempty fuel (n / 16 / 16) ltac:(lia)). lia.
Qed.

Lemma Number_toString16_nonempty (n : Z) :
  (1 <= String.length (Number_toString16 n))%nat.
Proof.
  unfold Number_toString16. destruct (n <? 0)%Z.
  - simpl. lia.
  - apply toHexDigits_nonempty. lia.
Qed.

Lemma pad2_two (s : string) :
  (1 <= String.length s)%nat -> (2 <= String.length (pad2 s))%nat.
Proof.
  intros H. unfold pad2. destruct (Nat.eqb_spec (String.length s) 1).
  - simpl. lia.
  - lia.
Qed.

(** A component outside 0..255 is written either with three characters or
    more, or with a leading minus sign. *)
Lemma component_out_of_range (n : Z) :
  ~ (0 <= n <= 255)%Z ->
  (3 <= String.length (pad2 (Number_toString16 n)))%nat
  \/ exists t, pad2 (Number_toString16 n) = String "-" t.
Proof.
  intros Hn. destruct (Z.ltb_spec n 0) as [Hneg|Hpos].
  - right. unfold Number_toString16.
    destruct (Z.ltb_spec n 0) as [_|H]; [|lia].
    pose proof (toHexDigits_nonempty (S (Z.to_nat (Z.log2 (- n)))) (- n) ltac:(lia)).
    unfold pad2. cbn [String.length].
    destruct (Nat.eqb_spec (S (String.length
                (toHexDigits (S (Z.to_nat (Z.log2 (- n)))) (- n)))) 1); [lia|].
    eexists; reflexivity.
  - left. assert (Hbig : (256 <= n)%Z) by lia.
    assert (H3 : (3 <= String.length (Number_toString16 n))%nat).
    { unfold Number_toString16. destruct (Z.ltb_spec n 0) as [H|_]; [lia|].
      apply toHexDigits_three; [|exact Hbig].
      pose proof (Z.log2_le_mono 256 n ltac:(lia)) as Hl.
      change (Z.log2 256) with 8%Z in Hl. lia. }
    unfold pad2. destruct (Nat.eqb_spec (String.length (Number_toString16 n)) 1); [lia|].
    exact H3.
Qed.

Lemma rgbOfDigits_three_parts (l1 l2 l3 : list ascii) :
  (2 <= List.length l1)%nat -> (2 <= List.length l2)%nat ->
  (2 <= List.length l3)%nat ->
  ((3 <= List.length l1)%nat \/ exists t, l1 = "-"%char :: t)
  \/ ((3 <= List.length l2)%nat \/ exists t, l2 = "-"%char :: t)
  \/ ((3 <= List.length l3)%nat \/ exists t, l3 = "-"%char :: t) ->
  rgbOfDigits (l1 ++ l2 ++ l3) = None.
Proof.
  intros H1 H2 H3 Hbad.
  destruct (Nat.eq_dec (List.length (l1 ++ l2 ++ l3)) 6) as [E|NE].
  - rewrite !length_app in E.
    destruct l1 as [|a1 [|b1 [|? ?]]]; simpl in H1, E; try lia.
    destruct l2 as [|a2 [|b2 [|? ?]]]; simpl in H2, E; try lia.
    destruct l3 as [|a3 [|b3 [|? ?]]]; simpl in H3, E; try lia.
    simpl.
    destruct Hbad as [[H|[t Ht]]|[[H|[t Ht]]|[H|[t Ht]]]];
      try (simpl in H; lia); injection Ht as -> _; simpl;
      change (hexDigitValue "-") with (@None Z);
      repeat match goal with
             | |- context [hexDigitValue ?c] =>
                 is_var c; destruct (hexDigitValue c)
             end;
      reflexivity.
  - apply rgbOfDigits_length; [|exact NE].
    rewrite !length_app. lia.
Qed.

(** X11: A component outside 0..255 breaks the round trip: if any of the three
    integers is negative or above 255, [hexToRgb] answers [null] on what
    [rgbToHex] writes. *)
Theorem hexToRgb_rgbToHex_out_of_range (red green blue : Z) :
  ~ ((0 <= red <= 255)%Z /\ (0 <= green <= 255)%Z /\ (0 <= blue <= 255)%Z) ->
  hexToRgb (rgbToHex red green blue) = None.
Proof.
  intros Hbad. rewrite hexToRgb_rgbOfDigits.
  unfold rgbToHex. cbn [map String.concat stripHash].
  change (Ascii.eqb "#" "#") with true. cbn iota.
  rewrite !list_ascii_of_string_append. cbn [list_ascii_of_string app].
  assert (Hlen : forall n, (2 <= List.length
                    (list_ascii_of_string (pad2 (Number_toString16 n))))%nat).
  { intros n. rewrite list_ascii_length.
    apply pad2_two, Number_toString16_nonempty. }
  assert (Hout : forall n, ~ (0 <= n <= 255)%Z ->
             (3 <= List.length
                     (list_ascii_of_string (pad2 (Number_toString16 n))))%nat
             \/ exists t, list_ascii_of_string (pad2 (Number_toString16 n))
                          = "-"%char :: t).
  { intros n Hn. destruct (component_out_of_range n Hn) as [H|[t Ht]].
    - left. now rewrite list_ascii_length.
    - right. rewrite Ht. eexists; reflexivity. }
  apply rgbOfDigits_three_parts; try apply Hlen.
  destruct (Z_le_dec 0 red) as [?|?]; [destruct (Z_le_dec red 255) as [?|?]|];
    try (left; apply Hout; lia).
  destruct (Z_le_dec 0 green) as [?|?]; [destruct (Z_le_dec green 255) as [?|?]|];
    try (right; left; apply Hout; lia).
  right; right; apply Hout; lia.
Qed.

Lemma hexToRgb_rgbToHex_out_of_range_witness :
  ~ ((0 <= 256 <= 255)%Z /\ (0 <= 0 <= 255)%Z /\ (0 <= 10 <= 255)%Z)
  /\ hexToRgb (rgbToHex 256 0 10) = None.
Proof.
  assert (H : ~ ((0 <= 256 <= 255)%Z /\ (0 <= 0 <= 255)%Z /\ (0 <= 10 <= 255)%Z))
    by lia.
  split; [exact H|].
  exact (hexToRgb_rgbToHex_out_of_range 256 0 10 H).
Defined.

(** ** [getColor] *)

Lemma ownProperty_In {A : Type} (object : list (string * A)) (key : string) (v : A) :
  ownProperty object key = Some v -> In (key, v) object.
Proof.
  induction object as [|[k u] rest IH]; simpl; [discriminate|].
  destruct (String.eqb_spec k key) as [->|_].
  - intros E; injection E as ->. left; reflexivity.
  - intros E. right. exact (IH E).
Qed.

Lemma colorSets_ten :
  Forall (fun entry => List.length (snd entry) = 10%nat) colorSets.
Proof. repeat constructor. Qed.

Lemma colorAt_ten (colors : list string) (index : nat) :
  List.length colors = 10%nat ->
  colorAt colors index = Some (nth (index mod 10) colors EmptyString)
  /\ colorAt colors (index + 10) = colorAt colors index.
Proof.
  intros H. unfold colorAt. rewrite H. split.
  - apply nth_error_nth'. rewrite H. apply Nat.mod_upper_bound. lia.
  - replace (index + 10)%nat with (index + 1 * 10)%nat by lia.
    now rewrite Nat.Div0.mod_add.
Qed.

(** X12: Unless the selected name is one that every object inherits, [getColor]
    always answers with a colour: the set is the selected one when it is
    among the colour sets and ['Sunset'] otherwise, it has ten colours, and
    the colour is its entry [index mod 10], so that pieces ten apart share
    a colour. *)
Theorem getColor_defined (st : State) (index : nat) :
  ~ In (selectedColorSet st) objectPrototypeKeys ->
  exists colors,
    (ownProperty colorSets (selectedColorSet st) = Some colors
     \/ (ownProperty colorSets (selectedColorSet st) = None
         /\ ownProperty colorSets "Sunset" = Some colors))
    /\ List.length colors = 10%nat
    /\ getColor st index = Some (nth (index mod 10) colors EmptyString)
    /\ getColor st (index + 10) = getColor st index.
Proof.
  intros Hproto. unfold getColor, getProperty.
  destruct (ownProperty colorSets (selectedColorSet st)) as [colors|] eqn:E.
  - assert (Hten : List.length colors = 10%nat).
    { apply ownProperty_In in E.
      exact (proj1 (Forall_forall _ _) colorSets_ten _ E). }
    exists colors. split; [left; reflexivity|]. split; [exact Hten|].
    apply colorAt_ten; exact Hten.
  - destruct (existsb (String.eqb (selectedColorSet st)) objectPrototypeKeys) eqn:Ex.
    + exfalso. apply Hproto. apply existsb_exists in Ex.
      destruct Ex as (k & Hin & Hk). apply String.eqb_eq in Hk. now subst k.
    + destruct (ownProperty colorSets "Sunset") as [colors|] eqn:ES;
        [|discriminate ES].
      assert (Hten : List.length colors = 10%nat).
      { apply ownProperty_In in ES.
        exact (proj1 (Forall_forall _ _) colorSets_ten _ ES). }
      exists colors. split; [right; split; reflexivity|]. split; [exact Hten|].
      apply colorAt_ten; exact Hten.
Qed.

Lemma getColor_defined_witness :
  ~ In (selectedColorSet (setSelectedColorSet (canvas 100 100 []) "Ocean"))
       objectPrototypeKeys
  /\ exists colors,
       (ownProperty colorSets
          (selectedColorSet (setSelectedColorSet (canvas 100 100 []) "Ocean"))
        = Some colors
        \/ (ownProperty colorSets
              (selectedColorSet (setSelectedColorSet (canvas 100 100 []) "Ocean"))
            = None
            /\ ownProperty colorSets "Sunset" = Some colors))
       /\ List.length colors = 10%nat
       /\ getColor (setSelectedColorSet (canvas 100 100 []) "Ocean") 13
          = Some (nth (13 mod 10) colors EmptyString)
       /\ getColor (setSelectedColorSet (canvas 100 100 []) "Ocean") (13 + 10)
          = getColor (setSelectedColorSet (canvas 100 100 []) "Ocean") 13.
Proof.
  assert (H : ~ In (selectedColorSet
                      (setSelectedColorSet (canvas 100 100 []) "Ocean"))
                   objectPrototypeKeys).
  { simpl. intros H. repeat (destruct H as [H|H]; [discriminate H|]). exact H. }
  split; [exact H|].
  exact (getColor_defined (setSelectedColorSet (canvas 100 100 []) "Ocean") 13 H).
Defined.

(** X13: Of the colours [getColor] can answer for the offered sets, all are
    well-formed six-digit hex colours, which [hexToRgb] accepts, except
    one: in the set ['Galaxy'] the entry 5 is ['#85DCB'], five digits,
    which [hexToRgb] rejects; every piece whose index is 5 modulo 10 gets
    it. *)
Theorem getColor_hex (st : State) (index : nat) :
  In (selectedColorSet st) colorSetNames ->
  exists c,
    getColor st index = Some c
    /\ (hexToRgb c = None
        <-> selectedColorSet st = "Galaxy"%string /\ (index mod 10 = 5)%nat).
Proof.
  intros Hin.
  assert (Hk : (index mod 10 < 10)%nat) by (apply Nat.mod_upper_bound; lia).
  destruct st as [w h lines algo name]; cbn [selectedColorSet] in *.
  unfold colorSetNames in Hin; simpl in Hin.
  repeat (destruct Hin as [Hin|Hin];
          [ subst name;
            unfold getColor, getProperty, colorAt; cbn -[Nat.modulo];
            destruct (index mod 10)%nat as [|[|[|[|[|[|[|[|[|[|k]]]]]]]]]];
            try lia;
            (eexists; split; [reflexivity|];
             split; [intros H; vm_compute in H; try discriminate H;
                     split; reflexivity
                    | intros [H1 H2]; try discriminate H1; try discriminate H2;
                      reflexivity])
          | ]).
  contradiction.
Qed.

Lemma getColor_hex_witness :
  In (selectedColorSet (setSelectedColorSet (canvas 100 100 []) "Galaxy"))
     colorSetNames
  /\ exists c,
       getColor (setSelectedColorSet (canvas 100 100 []) "Galaxy") 15 = Some c
       /\ (hexToRgb c = None
           <-> selectedColorSet (setSelectedColorSet (canvas 100 100 []) "Galaxy")
               = "Galaxy"%string
               /\ (15 mod 10 = 5)%nat).
Proof.
  assert (H : In (selectedColorSet
                    (setSelectedColorSet (canvas 100 100 []) "Galaxy"))
                 colorSetNames).
  { unfold colorSetNames; simpl. do 10 right. left. reflexivity. }
  split; [exact H|].
  exact (getColor_hex (setSelectedColorSet (canvas 100 100 []) "Galaxy") 15 H).
Defined.

(** ** Loops *)

Lemma fold_left_same {S A : Type} (f h : S -> A -> S) (l : list A) :
  (forall s a, f s a = h s a) -> forall s, fold_left f l s = fold_left h l s.
Proof.
  intros E. induction l as [|a l IH]; intros s; simpl; [reflexivity|].
  now rewrite E, IH.
Qed.

Lemma fold_left_seq_shift {S : Type} (f : S -> nat -> S) (n : nat) :
  forall (a : nat) (s : S),
    fold_left f (seq (Datatypes.S a) n) s
    = fold_left (fun s k => f s (Datatypes.S k)) (seq a n) s.
Proof.
  induction n as [|n IH]; intros a s; simpl; [reflexivity|]. apply IH.
Qed.

Lemma forLoop_returns {V S : Type} (cond : V -> bool) (step : V -> V)
    (body : V -> S -> S) (n : nat) :
  forall (fuel : nat) (v : V) (s : S),
    (forall k, (k < n)%nat -> cond (Nat.iter k step v) = true) ->
    cond (Nat.iter n step v) = false ->
    (n <= fuel)%nat ->
    forLoop fuel cond step body v s
    = Some (fold_left (fun s k => body (Nat.iter k step v) s) (seq 0 n) s).
Proof.
  induction n as [|n IH]; intros fuel v s Htrue Hfalse Hfuel.
  - simpl in Hfalse. destruct fuel; simpl; now rewrite Hfalse.
  - destruct fuel as [|fuel]; [lia|].
    assert (H0 : cond v = true) by (apply (Htrue 0%nat); lia).
    cbn [forLoop]. rewrite H0.
    rewrite (IH fuel (step v) (body v s)).
    + cbn [seq fold_left Nat.iter nat_rect]. rewrite fold_left_seq_shift.
      f_equal. apply fold_left_same. intros s' k.
      now rewrite Nat.iter_succ_r.
    + intros k Hk. rewrite <- Nat.iter_succ_r. apply Htrue. lia.
    + rewrite <- Nat.iter_succ_r. exact Hfalse.
    + lia.
Qed.

Lemma forLoop_diverges {V S : Type} (cond : V -> bool) (step : V -> V)
    (body : V -> S -> S) (fuel : nat) :
  forall (v : V) (s : S),
    (forall k, cond (Nat.iter k step v) = true) ->
    forLoop fuel cond step body v s = None.
Proof.
  induction fuel as [|fuel IH]; intros v s H;
    cbn [forLoop]; rewrite (H 0%nat : cond v = true); [reflexivity|].
  apply IH. intros k. rewrite <- Nat.iter_succ_r. apply H.
Qed.

Lemma iter_plus (d v : R) (k : nat) :
  Nat.iter k (fun t => t + d) v = v + INR k * d.
Proof.
  induction k as [|k IH]; [simpl; ring|].
  rewrite Nat.iter_succ, IH, S_INR. ring.
Qed.

Lemma iter_S (k : nat) : Nat.iter k S 0%nat = k.
Proof. induction k as [|k IH]; [reflexivity | now rewrite Nat.iter_succ, IH]. Qed.

Lemma Rltb_true (a c : R) : Rltb a c = true <-> a < c.
Proof. unfold Rltb; destruct (Rlt_dec a c); split; intros; try assumption; try reflexivity; try discriminate; contradiction. Qed.

Lemma Rltb_false (a c : R) : Rltb a c = false <-> c <= a.
Proof.
  unfold Rltb; destruct (Rlt_dec a c); split; intros H;
    try discriminate; try reflexivity; lra.
Qed.

(** ** The Horizontal Grid and the recursive generators *)

Section GeneratorFacts.

Variable uuidv4 : nat -> string.

(** X15: With a spacing that is zero or negative and a first row below
    [height], the Horizontal Grid never returns: whatever the number of
    iterations allowed, the loop is still running. *)
Theorem horizontalGrid_never_returns (width height spacing offsetX offsetY : R)
    (d : Draws) (fuel : nat) :
  spacing <= 0 -> offsetY < height ->
  horizontalGrid uuidv4 fuel width height spacing offsetX offsetY d = None.
Proof.
  intros Hs Hy. unfold horizontalGrid. apply forLoop_diverges.
  intros k. rewrite iter_plus. apply Rltb_true.
  pose proof (pos_INR k) as Hk. nra.
Qed.

Lemma nth_map_seq {A : Type} (f : nat -> A) (n k : nat) (dflt : A) :
  (k < n)%nat -> nth k (map f (seq 0 n)) dflt = f k.
Proof.
  intros Hk. rewrite (nth_indep _ dflt (f 0%nat))
    by (rewrite length_map, length_seq; exact Hk).
  rewrite map_nth, seq_nth by exact Hk. reflexivity.
Qed.

(** ** The recursive generators *)

Lemma INR_pred (n : nat) : INR (S n) - 1 = INR n.
Proof. rewrite S_INR. ring. Qed.

Lemma not_natural_pred (depth : R) :
  (forall n : nat, depth <> INR n) -> forall n : nat, depth - 1 <> INR n.
Proof. intros H n E. apply (H (S n)). rewrite S_INR. lra. Qed.

Lemma generateFractal_count (angle : R) (n : nat) :
  forall (fuel : nat) (point : Point) (length angleOffset : R)
         (lines : list Polyline) (d : Draws),
    (n < fuel)%nat ->
    exists new,
      generateFractal uuidv4 fuel angle point length (INR n) angleOffset (lines, d)
      = Some (lines ++ new,
              {| uuids := uuids d + List.length new; randoms := randoms d |})
      /\ List.length new = (2 ^ n - 1)%nat.
Proof.
  induction n as [|n IH]; intros fuel point length angleOffset lines d Hfuel;
    (destruct fuel as [|fuel]; [lia|]); cbn [generateFractal].
  - destruct (Req_dec_T (INR 0) 0) as [_|H]; [|simpl in H; lra].
    exists []. rewrite app_nil_r, Nat.add_0_r. destruct d. split; reflexivity.
  - destruct (Req_dec_T (INR (S n)) 0) as [H|_];
      [exfalso; exact (not_0_INR (S n) ltac:(lia) H)|].
    rewrite INR_pred. unfold pushLine.
    match goal with
    | |- context [generateFractal uuidv4 fuel angle ?p ?l (INR n) ?a (?ls, ?dd)] =>
        destruct (IH fuel p l a ls dd ltac:(lia)) as (new1 & E1 & L1)
    end.
    rewrite E1.
    match goal with
    | |- context [generateFractal uuidv4 fuel angle ?p ?l (INR n) ?a (?ls, ?dd)] =>
        destruct (IH fuel p l a ls dd ltac:(lia)) as (new2 & E2 & L2)
    end.
    rewrite E2.
    eexists. split.
    + rewrite <- !app_assoc. f_equal. f_equal.
      unfold drawUuid; cbn [uuids randoms]. f_equal.
      rewrite !length_app. cbn [List.length]. lia.
    + rewrite !length_app, L1, L2. cbn [List.length].
      pose proof (Nat.pow_nonzero 2 n ltac:(lia)).
      rewrite Nat.pow_succ_r'. lia.
Qed.

(** X19: For a recursion depth that is a natural number [n] the Fractal Lines
    return exactly [2^n - 1] lines, as soon as [n + 1] nested calls are
    allowed. *)
Theorem fractalLines_count (width height initialLength angle : R) (n fuel : nat)
    (d : Draws) :
  (n < fuel)%nat ->
  exists lines,
    fractalLines uuidv4 fuel width height (INR n) initialLength angle d
    = Some (lines, {| uuids := uuids d + (2 ^ n - 1); randoms := randoms d |})
    /\ List.length lines = (2 ^ n - 1)%nat.
Proof.
  intros Hfuel. unfold fractalLines.
  destruct (generateFractal_count angle n fuel
              {| x := width / 2; y := height / 2 |} initialLength angle [] d Hfuel)
    as (new & E & L).
  exists new. rewrite E, L. split; reflexivity.
Qed.

Lemma generateFractal_never_returns (angle : R) (fuel : nat) :
  forall (depth : R) (point : Point) (length angleOffset : R)
         (state : list Polyline * Draws),
    (forall n : nat, depth <> INR n) ->
    generateFractal uuidv4 fuel angle point length depth angleOffset state = None.
Proof.
  induction fuel as [|fuel IH]; intros depth point length offset state Hdepth;
    cbn [generateFractal]; [reflexivity|].
  destruct (Req_dec_T depth 0) as [E|_]; [exfalso; exact (Hdepth 0%nat E)|].
  now rewrite (IH (depth - 1) _ _ _ _ (not_natural_pred depth Hdepth)).
Qed.

(** X20: For a recursion depth that is not a natural number (negative, or with
    a fractional part) the Fractal Lines never return: the depth never
    reaches 0 and the calls nest without end. *)
Theorem fractalLines_never_returns (width height recursionDepth initialLength angle : R)
    (fuel : nat) (d : Draws) :
  (forall n : nat, recursionDepth <> INR n) ->
  fractalLines uuidv4 fuel width height recursionDepth initialLength angle d = None.
Proof.
  intros Hdepth. unfold fractalLines.
  now apply generateFractal_never_returns.
Qed.

Variable Math_random : nat -> R.

Lemma generateLightning_count (width height branchFactor : R) (n : nat) :
  forall (fuel : nat) (x0 y0 : R) (lines : list Polyline) (d : Draws),
    (n < fuel)%nat ->
    exists new d',
      generateLightning uuidv4 Math_random fuel (lines, d) x0 y0 width height
        (INR n) branchFactor
      = Some (lines ++ new, d')
      /\ (n <= List.length new <= 2 ^ n - 1)%nat
      /\ uuids d' = (uuids d + List.length new)%nat.
Proof.
  induction n as [|n IH]; intros fuel x0 y0 lines d Hfuel;
    (destruct fuel as [|fuel]; [lia|]); cbn [generateLightning].
  - destruct (Req_dec_T (INR 0) 0) as [_|H]; [|simpl in H; lra].
    exists [], d. rewrite app_nil_r. simpl. split; [reflexivity|]. lia.
  - destruct (Req_dec_T (INR (S n)) 0) as [H|_];
      [exfalso; exact (not_0_INR (S n) ltac:(lia) H)|].
    rewrite INR_pred. unfold pushLine. cbn [drawRandom drawUuid uuids randoms].
    pose proof (Nat.pow_nonzero 2 n ltac:(lia)) as Hpow.
    destruct (Rltb _ branchFactor).
    + match goal with
      | |- context [generateLightning uuidv4 Math_random fuel (?ls, ?dd) ?a ?c
                      width height (INR n) branchFactor] =>
          destruct (IH fuel a c ls dd ltac:(lia)) as (new1 & d1 & E1 & L1 & U1)
      end.
      rewrite E1.
      match goal with
      | |- context [generateLightning uuidv4 Math_random fuel (?ls, ?dd) ?a ?c
                      width height (INR n) branchFactor] =>
          destruct (IH fuel a c ls dd ltac:(lia)) as (new2 & d2 & E2 & L2 & U2)
      end.
      rewrite E2. eexists; exists d2. split; [rewrite <- !app_assoc; reflexivity|].
      rewrite !length_app. unfold drawRandom, drawUuid in *.
      cbn [List.length uuids randoms] in *.
      rewrite Nat.pow_succ_r'. lia.
    + match goal with
      | |- context [generateLightning uuidv4 Math_random fuel (?ls, ?dd) ?a ?c
                      width height (INR n) branchFactor] =>
          destruct (IH fuel a c ls dd ltac:(lia)) as (new2 & d2 & E2 & L2 & U2)
      end.
      rewrite E2. eexists; exists d2. split; [rewrite <- !app_assoc; reflexivity|].
      rewrite !length_app. unfold drawRandom, drawUuid in *.
      cbn [List.length uuids randoms] in *.
      rewrite Nat.pow_succ_r'. lia.
Qed.

(** X21: For a segment budget that is a natural number [n], [generateLightning]
    returns, whatever the random numbers drawn: it keeps the lines it was
    given, in place, and adds at least [n] and at most [2^n - 1] lines, one
    fresh identifier each. *)
Theorem generateLightning_bounds (width height branchFactor x0 y0 : R)
    (n fuel : nat) (lines : list Polyline) (d : Draws) :
  (n < fuel)%nat ->
  exists new d',
    generateLightning uuidv4 Math_random fuel (lines, d) x0 y0 width height
      (INR n) branchFactor
    = Some (lines ++ new, d')
    /\ (n <= List.length new <= 2 ^ n - 1)%nat
    /\ uuids d' = (uuids d + List.length new)%nat.
Proof. intros H. now apply generateLightning_count. Qed.

(** X22: For a segment budget that is not a natural number, [generateLightning]
    never returns: the budget never reaches 0. *)
Theorem generateLightning_never_returns (width height maxSegments branchFactor x0 y0 : R)
    (fuel : nat) (state : list Polyline * Draws) :
  (forall n : nat, maxSegments <> INR n) ->
  generateLightning uuidv4 Math_random fuel state x0 y0 width height
    maxSegments branchFactor = None.
Proof.
  revert maxSegments x0 y0 state.
  induction fuel as [|fuel IH]; intros maxSegments x0 y0 [lines d] Hn;
    cbn [generateLightning]; [reflexivity|].
  destruct (Req_dec_T maxSegments 0) as [E|_]; [exfalso; exact (Hn 0%nat E)|].
  unfold pushLine.
  pose proof (not_natural_pred maxSegments Hn) as Hp.
  destruct (Rltb _ branchFactor).
  - now rewrite (IH (maxSegments - 1) _ _ _ Hp).
  - now rewrite (IH (maxSegments - 1) _ _ _ Hp).
Qed.

End GeneratorFacts.

(** ** Gradient Lines *)

Lemma hexToRgb_range (hex : string) (c : RGB) :
  hexToRgb hex = Some c ->
  (0 <= r c <= 255 /\ 0 <= g c <= 255 /\ 0 <= b c <= 255)%Z.
Proof.
  rewrite hexToRgb_rgbOfDigits.
  destruct (list_ascii_of_string (stripHash hex))
    as [|c1 [|c2 [|c3 [|c4 [|c5 [|c6 [|c7 rest]]]]]]];
    simpl; try discriminate.
  - destruct (hexDigitValue c1) as [v1|] eqn:E1; [|discriminate].
    destruct (hexDigitValue c2) as [v2|] eqn:E2; [|discriminate].
    destruct (hexDigitValue c3) as [v3|] eqn:E3; [|discriminate].
    intros H; injection H as <-; simpl.
    apply hexDigitValue_range in E1, E2, E3. lia.
  - destruct (hexDigitValue c1) as [v1|] eqn:E1; [|discriminate].
    destruct (hexDigitValue c2) as [v2|] eqn:E2; [|discriminate].
    destruct (hexDigitValue c3) as [v3|] eqn:E3; [|discriminate].
    destruct (hexDigitValue c4) as [v4|] eqn:E4; [|discriminate].
    destruct (hexDigitValue c5) as [v5|] eqn:E5; [|discriminate].
    destruct (hexDigitValue c6) as [v6|] eqn:E6; [|discriminate].
    intros H; injection H as <-; simpl.
    apply hexDigitValue_range in E1, E2, E3, E4, E5, E6. lia.
Qed.

(** [Math.round] keeps a value between two integers between them. *)
Lemma Math_round_between (a c : Z) (v : R) :
  IZR a <= v <= IZR c -> (a <= Math_round v <= c)%Z.
Proof.
  intros [Ha Hc]. destruct (Math_round_bounds v) as [Hlo Hhi]. split.
  - assert (H : (a - 1 < Math_round v)%Z)
      by (apply lt_IZR; rewrite minus_IZR; lra).
    lia.
  - assert (H : (Math_round v < c + 1)%Z)
      by (apply lt_IZR; rewrite plus_IZR; lra).
    lia.
Qed.

(** A value interpolated between two integers, at a parameter from 0 to 1,
    rounds to an integer between them. *)
Lemma interpolated_between (s e : Z) (t : R) :
  0 <= t <= 1 -> between s (Math_round (IZR s + t * (IZR e - IZR s))) e.
Proof.
  intros Ht. unfold between. apply Math_round_between.
  destruct (Z_le_dec s e) as [Hse|Hse].
  - rewrite Z.min_l, Z.max_r by lia. apply IZR_le in Hse. nra.
  - rewrite Z.min_r, Z.max_l by lia.
    assert (H : IZR e <= IZR s) by (apply IZR_le; lia). nra.
Qed.

Section GradientFacts.

Variable uuidv4 : nat -> string.
Variable Math_random : nat -> R.

Lemma gradient_fold (width height numberOfLines : R) (startRGB endRGB : RGB)
    (n : nat) (d : Draws) :
  exists draws : nat -> Draws,
    fold_left
      (fun (state : list Polyline * Draws) i =>
         let (lines, d) := state in
         let (line, d) :=
           gradientLine uuidv4 Math_random width height numberOfLines
             startRGB endRGB i d in
         (lines ++ [line], d))
      (seq 0 n) ([], d)
    = (map (fun i => fst (gradientLine uuidv4 Math_random width height
                            numberOfLines startRGB endRGB i (draws i)))
         (seq 0 n),
       draws n).
Proof.
  exists (fun k => Nat.iter k
                     (fun dd => drawUuid (drawRandom (drawRandom (drawRandom
                                  (drawRandom dd))))) d).
  induction n as [|n IH]; [reflexivity|].
  rewrite seq_S, fold_left_app, IH, map_app. reflexivity.
Qed.

(** X23: With a start and an end colour that [hexToRgb] accepts and a number of
    lines that is a natural number [N >= 2], the Gradient Lines return [N]
    lines without any alert.  The colour of every line is a hex colour that
    [hexToRgb] reads back, each component between the start and the end
    component; the first line has the start colour and the last line the
    end colour. *)
Theorem gradientLines_colours (width height : R) (startColor endColor : string)
    (startRGB endRGB : RGB) (N fuel : nat) (d : Draws) :
  hexToRgb startColor = Some startRGB ->
  hexToRgb endColor = Some endRGB ->
  (2 <= N)%nat -> (N <= fuel)%nat ->
  exists lines d',
    gradientLines uuidv4 Math_random fuel width height (INR N)
      startColor endColor d
    = Some ([], (lines, d'))
    /\ List.length lines = N
    /\ forall k, (k < N)%nat ->
         exists hex c,
           color (nth k lines (segment 0 0 0 0)) = Some hex
           /\ hexToRgb hex = Some c
           /\ between (r startRGB) (r c) (r endRGB)
           /\ between (g startRGB) (g c) (g endRGB)
           /\ between (b startRGB) (b c) (b endRGB)
           /\ (k = 0%nat -> c = startRGB)
           /\ (k = (N - 1)%nat -> c = endRGB).
Proof.
  intros Hs He HN Hfuel. unfold gradientLines. rewrite Hs, He.
  rewrite (forLoop_returns _ _ _ N);
    [| intros k Hk; rewrite iter_S; apply Rltb_true, lt_INR, Hk
     | rewrite iter_S; apply Rltb_false; lra
     | exact Hfuel].
  rewrite (fold_left_same _
             (fun (state : list Polyline * Draws) i =>
                let (lines, d) := state in
                let (line, d) :=
                  gradientLine uuidv4 Math_random width height (INR N)
                    startRGB endRGB i d in
                (lines ++ [line], d)))
    by (intros [ls dd] k; now rewrite iter_S).
  destruct (gradient_fold width height (INR N) startRGB endRGB N d)
    as [draws ->].
  cbn [option_map]. do 2 eexists. split; [reflexivity|].
  split; [now rewrite length_map, length_seq|].
  intros k Hk. rewrite (nth_map_seq _ N k _ Hk).
  unfold gradientLine. cbn [fst color r g b].
  destruct (hexToRgb_range _ _ Hs) as (Hsr & Hsg & Hsb).
  destruct (hexToRgb_range _ _ He) as (Her & Heg & Heb).
  assert (HN1 : 0 < INR N - 1).
  { assert (H : 2 <= INR N) by (apply (le_INR 2 N); exact HN). lra. }
  assert (Ht : 0 <= INR k / (INR N - 1) <= 1).
  { assert (Hk1 : INR k <= INR N - 1).
    { assert (H : INR (S k) <= INR N) by (apply le_INR; lia).
      rewrite S_INR in H. lra. }
    pose proof (pos_INR k) as Hk0. split.
    - apply Rmult_le_pos; [exact Hk0 | left; apply Rinv_0_lt_compat; exact HN1].
    - apply (Rmult_le_reg_r (INR N - 1)); [exact HN1|].
      replace (INR k / (INR N - 1) * (INR N - 1)) with (INR k) by (field; lra).
      lra. }
  pose proof (interpolated_between (r startRGB) (r endRGB) _ Ht) as Br.
  pose proof (interpolated_between (g startRGB) (g endRGB) _ Ht) as Bg.
  pose proof (interpolated_between (b startRGB) (b endRGB) _ Ht) as Bb.
  do 2 eexists. split; [reflexivity|]. split.
  - apply rgb_round_trip; unfold between in *; lia.
  - cbn [r g b]. split; [exact Br|]. split; [exact Bg|]. split; [exact Bb|].
    split.
    + intros ->. simpl INR. unfold Rdiv. rewrite !Rmult_0_l, !Rplus_0_r.
      rewrite !Math_round_IZR. now destruct startRGB.
    + intros ->.
      assert (E : INR (N - 1) / (INR N - 1) = 1).
      { rewrite minus_INR by lia. simpl INR. field. simpl in HN1. lra. }
      rewrite E.
      replace (IZR (r startRGB) + 1 * (IZR (r endRGB) - IZR (r startRGB)))
        with (IZR (r endRGB)) by ring.
      replace (IZR (g startRGB) + 1 * (IZR (g endRGB) - IZR (g startRGB)))
        with (IZR (g endRGB)) by ring.
      replace (IZR (b startRGB) + 1 * (IZR (b endRGB) - IZR (b startRGB)))
        with (IZR (b endRGB)) by ring.
      rewrite !Math_round_IZR. now destruct endRGB.
Qed.

End GradientFacts.

(** ** The generators at concrete parameters *)

Lemma horizontalGrid_never_returns_witness :
  0 <= 0 /\ 0 < 100
  /\ horizontalGrid sampleUuid 7 100 100 0 0 0 (mkDraws 0 0) = None.
Proof.
  assert (H1 : 0 <= 0) by lra. assert (H2 : 0 < 100) by lra.
  split; [exact H1|]. split; [exact H2|].
  exact (horizontalGrid_never_returns sampleUuid 100 100 0 0 0 (mkDraws 0 0) 7 H1 H2).
Defined.

Lemma fractalLines_count_witness :
  (3 < 4)%nat
  /\ exists lines,
       fractalLines sampleUuid 4 100 100 (INR 3) 100 30 (mkDraws 0 0)
       = Some (lines, {| uuids := uuids (mkDraws 0 0) + (2 ^ 3 - 1);
                         randoms := randoms (mkDraws 0 0) |})
       /\ List.length lines = (2 ^ 3 - 1)%nat.
Proof.
  assert (H : (3 < 4)%nat) by lia.
  split; [exact H|].
  exact (fractalLines_count sampleUuid 100 100 100 30 3 4 (mkDraws 0 0) H).
Defined.

Lemma minus_one_not_natural (n : nat) : -1 <> INR n.
Proof. pose proof (pos_INR n). lra. Qed.

Lemma fractalLines_never_returns_witness :
  (forall n : nat, -1 <> INR n)
  /\ fractalLines sampleUuid 9 100 100 (-1) 100 30 (mkDraws 0 0) = None.
Proof.
  split; [exact minus_one_not_natural|].
  exact (fractalLines_never_returns sampleUuid 100 100 (-1) 100 30 9 (mkDraws 0 0)
           minus_one_not_natural).
Defined.

Lemma generateLightning_bounds_witness :
  (3 < 4)%nat
  /\ exists new d',
       generateLightning sampleUuid sampleRandom 4 ([], mkDraws 0 0) 50 0 100 100
         (INR 3) (3 / 10)
       = Some ([] ++ new, d')
       /\ (3 <= List.length new <= 2 ^ 3 - 1)%nat
       /\ uuids d' = (uuids (mkDraws 0 0) + List.length new)%nat.
Proof.
  assert (H : (3 < 4)%nat) by lia.
  split; [exact H|].
  exact (generateLightning_bounds sampleUuid sampleRandom 100 100 (3 / 10) 50 0
           3 4 [] (mkDraws 0 0) H).
Defined.

Lemma generateLightning_never_returns_witness :
  (forall n : nat, -1 <> INR n)
  /\ generateLightning sampleUuid sampleRandom 9 ([], mkDraws 0 0) 50 0 100 100
       (-1) (3 / 10) = None.
Proof.
  split; [exact minus_one_not_natural|].
  exact (generateLightning_never_returns sampleUuid sampleRandom 100 100 (-1)
           (3 / 10) 50 0 9 ([], mkDraws 0 0) minus_one_not_natural).
Defined.

Lemma gradientLines_colours_witness :
  hexToRgb "#FF0000" = Some {| r := 255; g := 0; b := 0 |}
  /\ hexToRgb "#0000FF" = Some {| r := 0; g := 0; b := 255 |}
  /\ (2 <= 50)%nat /\ (50 <= 50)%nat
  /\ exists lines d',
       gradientLines sampleUuid sampleRandom 50 100 100 (INR 50)
         "#FF0000" "#0000FF" (mkDraws 0 0)
       = Some ([], (lines, d'))
       /\ List.length lines = 50%nat
       /\ forall k, (k < 50)%nat ->
            exists hex c,
              color (nth k lines (segment 0 0 0 0)) = Some hex
              /\ hexToRgb hex = Some c
              /\ between (r {| r := 255; g := 0; b := 0 |}) (r c)
                   (r {| r := 0; g := 0; b := 255 |})
              /\ between (g {| r := 255; g := 0; b := 0 |}) (g c)
                   (g {| r := 0; g := 0; b := 255 |})
              /\ between (b {| r := 255; g := 0; b := 0 |}) (b c)
                   (b {| r := 0; g := 0; b := 255 |})
              /\ (k = 0%nat -> c = {| r := 255; g := 0; b := 0 |})
              /\ (k = (50 - 1)%nat -> c = {| r := 0; g := 0; b := 255 |}).
Proof.
  assert (H1 : hexToRgb "#FF0000" = Some {| r := 255; g := 0; b := 0 |})
    by reflexivity.
  assert (H2 : hexToRgb "#0000FF" = Some {| r := 0; g := 0; b := 255 |})
    by reflexivity.
  assert (H3 : (2 <= 50)%nat) by lia. assert (H4 : (50 <= 50)%nat) by lia.
  split; [exact H1|]. split; [exact H2|]. split; [exact H3|]. split; [exact H4|].
  exact (gradientLines_colours sampleUuid sampleRandom 100 100 "#FF0000" "#0000FF"
           _ _ 50 50 (mkDraws 0 0) H1 H2 H3 H4).
Defined.

(** * Properties over binary64 numbers *)

Section Binary64Facts.

Import Floats.
Import Binary64.
Local Open Scope Z_scope.

(** ** Powers of two and the size of a mantissa *)

Lemma pow2_pos (e : Z) : (0 < 2 ^ e)%Q.
Proof. apply Qpower_0_lt. reflexivity. Qed.

Lemma pow2_add (a b : Z) : (2 ^ (a + b) == 2 ^ a * 2 ^ b)%Q.
Proof. apply Qpower_plus. discriminate. Qed.

Lemma pow2_inject (k : Z) : 0 <= k -> (inject_Z (2 ^ k) == 2 ^ k)%Q.
Proof. intros Hk. apply (Zpower_Qpower 2 k Hk). Qed.

Lemma pow2_cancel (e : Z) : e <= 0 -> (2 ^ e * inject_Z (2 ^ (- e)) == 1)%Q.
Proof.
  intros He. rewrite pow2_inject by lia. rewrite <- pow2_add.
  replace (e + - e) with 0 by lia. reflexivity.
Qed.

Lemma digits2_pos_bounds (p : positive) :
  2 ^ (Zpos (digits2_pos p) - 1) <= Zpos p < 2 ^ Zpos (digits2_pos p).
Proof.
  induction p as [p IH|p IH|]; cbn [digits2_pos].
  - rewrite Pos2Z.inj_succ, Z.pow_succ_r by lia.
    replace (Z.succ (Zpos (digits2_pos p)) - 1) with (Z.succ (Zpos (digits2_pos p) - 1)) by lia.
    rewrite Z.pow_succ_r by lia. lia.
  - rewrite Pos2Z.inj_succ, Z.pow_succ_r by lia.
    replace (Z.succ (Zpos (digits2_pos p)) - 1) with (Z.succ (Zpos (digits2_pos p) - 1)) by lia.
    rewrite Z.pow_succ_r by lia. lia.
  - simpl. lia.
Qed.

Lemma digits2_pos_le (p : positive) (d : Z) :
  0 <= d -> Zpos p < 2 ^ d -> Zpos (digits2_pos p) <= d.
Proof.
  intros Hd Hp. destruct (digits2_pos_bounds p) as [Hlo _].
  destruct (Z_le_gt_dec (Zpos (digits2_pos p)) d) as [H|H]; [exact H|exfalso].
  assert (2 ^ d <= 2 ^ (Zpos (digits2_pos p) - 1)) by (apply Z.pow_le_mono_r; lia).
  lia.
Qed.

Lemma digits2_pos_shift (p k : positive) :
  digits2_pos (Pos.iter xO p k) = (digits2_pos p + k)%positive.
Proof.
  revert p. induction k as [|k IH] using Pos.peano_ind; intros p.
  - simpl. lia.
  - rewrite Pos.iter_succ. cbn [digits2_pos]. rewrite IH. lia.
Qed.

Lemma Zpos_shift (p k : positive) :
  Zpos (Pos.iter xO p k) = Zpos p * 2 ^ Zpos k.
Proof.
  revert p. induction k as [|k IH] using Pos.peano_ind; intros p.
  - simpl. lia.
  - rewrite Pos.iter_succ, Pos2Z.inj_xO, IH, Pos2Z.inj_succ, Z.pow_succ_r by lia. lia.
Qed.

(** A binary64 value is canonical: its mantissa has at most 53 bits. *)
Lemma valid_mantissa (s : bool) (m : positive) (e : Z) :
  valid_binary (S754_finite s m e) = true ->
  Zpos m < 2 ^ 53 /\ -1074 <= e <= 971
  /\ (Zpos (digits2_pos m) = 53 \/ e = -1074).
Proof.
  unfold SpecFloat.valid_binary, bounded, canonical_mantissa, fexp, SpecFloat.emin, prec, emax.
  intros H. apply andb_prop in H. destruct H as [Hc He].
  apply Z.eqb_eq in Hc. apply Z.leb_le in He.
  destruct (digits2_pos_bounds m) as [_ Hhi].
  assert (Hd : Zpos (digits2_pos m) <= 53) by lia.
  assert (2 ^ Zpos (digits2_pos m) <= 2 ^ 53) by (apply Z.pow_le_mono_r; lia).
  lia.
Qed.

Lemma Prim2SF_finite (v : float) (s : bool) (m : positive) (e : Z) :
  Prim2SF v = S754_finite s m e ->
  Zpos m < 2 ^ 53 /\ -1074 <= e <= 971
  /\ (Zpos (digits2_pos m) = 53 \/ e = -1074).
Proof.
  intros E. apply (valid_mantissa s). rewrite <- E. apply Prim2SF_valid.
Qed.

(** ** Integers as binary64 values *)

(** Rounding does nothing to a canonical mantissa. *)
Lemma binary_round_aux_canonical (s : bool) (m : positive) (e : Z) :
  canonical_mantissa prec emax m e = true -> e <= emax - prec ->
  binary_round_aux prec emax s (Zpos m) e loc_Exact = S754_finite s m e.
Proof.
  unfold canonical_mantissa. intros Hc He. apply Z.eqb_eq in Hc.
  unfold binary_round_aux, shr_fexp. cbn [Zdigits2 shr_record_of_loc].
  rewrite Hc, Z.sub_diag. cbn [shr shr_m loc_of_shr_record round_nearest_even].
  cbn [Zdigits2 shr_record_of_loc]. rewrite Hc, Z.sub_diag. cbn [shr shr_m].
  apply Z.leb_le in He. rewrite He. reflexivity.
Qed.

(** An integer below [2^53] in absolute value is a binary64 value. *)
Lemma integer_binary64 (n : Z) (s : bool) :
  Z.abs n < 2 ^ 53 ->
  valid_binary (binary_normalize prec emax n 0 s) = true
  /\ (exact (binary_normalize prec emax n 0 s) == inject_Z n)%Q
  /\ match binary_normalize prec emax n 0 s with
     | S754_zero _ | S754_finite _ _ _ => True
     | _ => False
     end.
Proof.
  assert (H : forall (sign : bool) (p : positive), Zpos p < 2 ^ 53 ->
            exists m e, binary_round prec emax sign p 0 = S754_finite sign m e
                        /\ valid_binary (S754_finite sign m e) = true
                        /\ (inject_Z (Zpos m) * 2 ^ e == inject_Z (Zpos p))%Q).
  { intros sign p Hp.
    assert (Hd : Zpos (digits2_pos p) <= 53) by (apply digits2_pos_le; lia).
    unfold binary_round, shl_align, fexp, SpecFloat.emin.
    rewrite Z.add_0_r.
    replace (Z.max (Zpos (digits2_pos p) - prec) (3 - emax - prec))
      with (Zpos (digits2_pos p) - prec) by (unfold prec, emax; lia).
    rewrite Z.sub_0_r.
    destruct (Zpos (digits2_pos p) - prec) as [|k|k] eqn:Ek;
      unfold prec in Ek; try lia.
    - (* 53 bits already *)
      assert (Hc : canonical_mantissa prec emax p 0 = true).
      { unfold canonical_mantissa, fexp, SpecFloat.emin, prec, emax.
        replace (Zpos (digits2_pos p)) with 53 by lia. reflexivity. }
      exists p, 0.
      rewrite (binary_round_aux_canonical sign p 0 Hc) by (unfold prec, emax; lia).
      repeat split.
      + unfold SpecFloat.valid_binary, bounded. rewrite Hc. reflexivity.
      + change (2 ^ 0)%Q with 1%Q. ring.
    - (* shifted left to 53 bits *)
      assert (Hc : canonical_mantissa prec emax (Pos.iter xO p k) (Zneg k) = true).
      { unfold canonical_mantissa, fexp, SpecFloat.emin, prec, emax.
        rewrite digits2_pos_shift, Pos2Z.inj_add. apply Z.eqb_eq. lia. }
      exists (Pos.iter xO p k), (Zneg k).
      rewrite (binary_round_aux_canonical sign _ _ Hc) by (unfold prec, emax; lia).
      repeat split.
      + unfold SpecFloat.valid_binary, bounded. rewrite Hc. reflexivity.
      + rewrite Zpos_shift, inject_Z_mult.
        rewrite <- Qmult_assoc, (Qmult_comm (inject_Z (2 ^ Zpos k))).
        change (Zpos k) with (- Zneg k). rewrite pow2_cancel by lia. ring. }
  intros Hn. destruct n as [|p|p]; cbn [binary_normalize].
  - split; [reflexivity|split; [reflexivity|exact I]].
  - destruct (H false p) as (m & e & E & Hv & Hx); [simpl in Hn; lia|].
    rewrite E. split; [exact Hv|split; [|exact I]]. cbn [exact cond_Zopp]. exact Hx.
  - destruct (H true p) as (m & e & E & Hv & Hx); [simpl in Hn; lia|].
    rewrite E. split; [exact Hv|split; [|exact I]]. cbn [exact cond_Zopp].
    change (Zneg p) with (- Zpos p). change (Z.opp (Zpos m)) with (- Zpos m).
    rewrite !inject_Z_opp. rewrite <- Hx. ring.
Qed.

End Binary64Facts.

Section Binary64Round.

Import Floats.
Import Binary64.
Local Open Scope Z_scope.

(** ** [Math_round] *)

Lemma floor_half_up_bounds (s : bool) (m : positive) (e : Z) :
  e < 0 ->
  (inject_Z (floor_half_up s m e) - (1 # 2) <= inject_Z (cond_Zopp s (Zpos m)) * 2 ^ e
   /\ inject_Z (cond_Zopp s (Zpos m)) * 2 ^ e < inject_Z (floor_half_up s m e) + (1 # 2))%Q.
Proof.
  intros He. unfold floor_half_up.
  set (M := cond_Zopp s (Zpos m)).
  set (T := 2 ^ (- e)).
  assert (HT : 0 < T) by (apply Z.pow_pos_nonneg; lia).
  replace (2 ^ (1 - e)) with (2 * T)
    by (unfold T; replace (1 - e) with (Z.succ (- e)) by lia;
        rewrite Z.pow_succ_r by lia; reflexivity).
  set (n := (2 * M + T) / (2 * T)).
  assert (Hlo : 2 * T * n <= 2 * M + T) by (apply Z.mul_div_le; lia).
  assert (Hhi : 2 * M + T < 2 * T * Z.succ n) by (apply Z.mul_succ_div_gt; lia).
  assert (HK : (2 ^ e * inject_Z T == 1)%Q) by (apply pow2_cancel; lia).
  assert (HP : (0 < 2 ^ e)%Q) by apply pow2_pos.
  assert (HTQ : (inject_Z 0 < inject_Z T)%Q) by (rewrite <- (Zlt_Qlt 0 T); exact HT).
  change (inject_Z 0) with 0%Q in HTQ.
  rewrite Zle_Qle in Hlo. rewrite Zlt_Qlt in Hhi.
  unfold Z.succ in Hhi.
  rewrite ?inject_Z_plus, ?inject_Z_mult in Hlo, Hhi.
  rewrite inject_Z_plus in Hhi.
  change (inject_Z 2) with 2%Q in *. change (inject_Z 1) with 1%Q in *.
  clearbody n T M. clear HT He.
  revert Hlo Hhi HK HP HTQ.
  generalize (inject_Z n) (inject_Z M) (inject_Z T) (2 ^ e)%Q.
  clear. intros a c t p Hlo Hhi HK HP HTQ.
  assert (Hc : (c * p * (2 * t) == 2 * c)%Q).
  { setoid_replace (c * p * (2 * t))%Q with (2 * c * (p * t))%Q by ring.
    rewrite HK. ring. }
  split.
  - apply (Qmult_le_r _ _ (2 * t)); [lra|]. rewrite Hc. lra.
  - apply (Qmult_lt_r _ _ (2 * t)); [lra|]. rewrite Hc. lra.
Qed.

Lemma floor_half_up_small (s : bool) (m : positive) (e : Z) :
  e < 0 -> Zpos m < 2 ^ 53 -> Z.abs (floor_half_up s m e) < 2 ^ 53.
Proof.
  intros He Hm. unfold floor_half_up.
  set (M := cond_Zopp s (Zpos m)).
  assert (HM : - 2 ^ 53 < M < 2 ^ 53) by (unfold M; destruct s; simpl; lia).
  set (T := 2 ^ (- e)).
  assert (HT : 2 <= T).
  { unfold T. change 2 with (2 ^ 1) at 1. apply Z.pow_le_mono_r; lia. }
  replace (2 ^ (1 - e)) with (2 * T)
    by (unfold T; replace (1 - e) with (Z.succ (- e)) by lia;
        rewrite Z.pow_succ_r by lia; reflexivity).
  set (n := (2 * M + T) / (2 * T)).
  assert (Hlo : 2 * T * n <= 2 * M + T) by (apply Z.mul_div_le; lia).
  assert (Hhi : 2 * M + T < 2 * T * Z.succ n) by (apply Z.mul_succ_div_gt; lia).
  clearbody n T M. nia.
Qed.

(** [Math_round] returns a finite value for a finite argument, and the
    integer it returns is the nearest one, the upper one of two equally
    near. *)
Lemma Math_round_nearest (v : float) : nearest_ties_up v (Math_round v).
Proof.
  unfold nearest_ties_up, Math_round, finite, value.
  destruct (Prim2SF v) as [sz|si| |s m e] eqn:E; try reflexivity.
  - rewrite E. split; [reflexivity|]. exists 0. cbn [exact].
    split; [reflexivity|]. split; [discriminate|reflexivity].
  - destruct (Prim2SF_finite v s m e E) as (Hm & He & _).
    destruct (Z.leb_spec 0 e) as [Hpos|Hneg].
    + rewrite E. split; [reflexivity|].
      exists (cond_Zopp s (Zpos m) * 2 ^ e). cbn [exact].
      rewrite inject_Z_mult, pow2_inject by exact Hpos.
      split; [reflexivity|]. split; lra.
    + destruct (integer_binary64 (floor_half_up s m e) s) as (Hv & Hx & Hf);
        [apply floor_half_up_small; assumption|].
      rewrite (Prim2SF_SF2Prim _ Hv).
      split.
      * destruct (binary_normalize prec emax (floor_half_up s m e) 0 s);
          try reflexivity; contradiction.
      * exists (floor_half_up s m e). split; [exact Hx|].
        cbn [exact]. apply floor_half_up_bounds. exact Hneg.
Qed.

Lemma scaleUpPath_nearest (path : Polygon) (s : float) :
  Forall2
    (fun p q => nearest_ties_up (PrimFloat.mul (x p) s) (X q)
                /\ nearest_ties_up (PrimFloat.mul (y p) s) (Y q))
    path (scaleUpPath path s).
Proof.
  induction path as [|p rest IH]; simpl; constructor; [|exact IH].
  split; apply Math_round_nearest.
Qed.

End Binary64Round.

Section Binary64Rounding.

Import Floats.
Import Binary64.
Local Open Scope Z_scope.

(** ** The rounding of the arithmetic operations *)

Lemma inject_Z_nonneg (m : Z) : 0 <= m -> (0 <= inject_Z m)%Q.
Proof. intros H. change 0%Q with (inject_Z 0). rewrite <- Zle_Qle. exact H. Qed.

Lemma pow2_split (a b : Z) : a <= b -> (2 ^ b == 2 ^ a * inject_Z (2 ^ (b - a)))%Q.
Proof.
  intros H. rewrite pow2_inject by lia. rewrite <- pow2_add.
  replace (a + (b - a)) with b by lia. reflexivity.
Qed.

Lemma pow2_le (a b : Z) : a <= b -> (2 ^ a <= 2 ^ b)%Q.
Proof.
  intros H. rewrite (pow2_split a b H).
  assert (H1 : 1 <= 2 ^ (b - a)) by (pose proof (Z.pow_pos_nonneg 2 (b - a)); lia).
  rewrite Zle_Qle in H1. change (inject_Z 1) with 1%Q in H1.
  pose proof (pow2_pos a) as Hp.
  revert H1 Hp. generalize (inject_Z (2 ^ (b - a))) (2 ^ a)%Q. intros t p H1 Hp.
  nra.
Qed.

Lemma pow2_lt (a b : Z) : a < b -> (2 ^ a < 2 ^ b)%Q.
Proof.
  intros H. rewrite (pow2_split a b) by lia.
  assert (H1 : 2 <= 2 ^ (b - a)).
  { change 2 with (2 ^ 1) at 1. apply Z.pow_le_mono_r; lia. }
  rewrite Zle_Qle in H1. change (inject_Z 2) with 2%Q in H1.
  pose proof (pow2_pos a) as Hp.
  revert H1 Hp. generalize (inject_Z (2 ^ (b - a))) (2 ^ a)%Q. intros t p H1 Hp.
  nra.
Qed.

Lemma pow2_le_inv (a b : Z) : (2 ^ a <= 2 ^ b)%Q -> a <= b.
Proof.
  intros H. destruct (Z_le_gt_dec a b) as [Hab|Hab]; [exact Hab|exfalso].
  assert (Hlt : (2 ^ b < 2 ^ a)%Q) by (apply pow2_lt; lia).
  lra.
Qed.

Lemma pow2_lt_inv (a b : Z) : (2 ^ a < 2 ^ b)%Q -> a < b.
Proof.
  intros H. destruct (Z_lt_ge_dec a b) as [Hab|Hab]; [exact Hab|exfalso].
  assert (Hle : (2 ^ b <= 2 ^ a)%Q) by (apply pow2_le; lia).
  lra.
Qed.

Lemma pow2_succ (a : Z) : (2 ^ (a + 1) == 2 * 2 ^ a)%Q.
Proof. rewrite pow2_add. change (2 ^ 1)%Q with 2%Q. ring. Qed.

(** The mantissa of a positive integer has [Zdigits2] bits. *)
Lemma Zdigits2_bounds (m : Z) :
  0 < m -> (2 ^ (Zdigits2 m - 1) <= m < 2 ^ Zdigits2 m) /\ 0 < Zdigits2 m.
Proof.
  destruct m as [|p|p]; try lia. intros _. cbn [Zdigits2].
  split; [apply digits2_pos_bounds|lia].
Qed.

(** *** Shifting a mantissa to the right *)

Lemma shr_1_half (r : shr_record) :
  0 <= shr_m r -> shr_m (shr_1 r) = shr_m r / 2.
Proof.
  destruct r as [m rr ss]. cbn [shr_m]. intros Hm.
  destruct m as [|[q|q|]|q]; cbn [shr_1 shr_m]; try lia; try reflexivity.
  - apply Z.div_unique with (r := 1); lia.
  - apply Z.div_unique with (r := 0); lia.
Qed.

Lemma shr_iter_div (p : positive) (r : shr_record) :
  0 <= shr_m r -> shr_m (iter_pos shr_1 p r) = shr_m r / 2 ^ Zpos p.
Proof.
  revert r. induction p as [p IH|p IH|]; intros r Hr; cbn [iter_pos].
  - assert (HT : 0 < 2 ^ Zpos p) by (apply Z.pow_pos_nonneg; lia).
    assert (H1 : 0 <= shr_m (shr_1 r)) by (rewrite shr_1_half by exact Hr; apply Z.div_pos; lia).
    assert (H2 : 0 <= shr_m (iter_pos shr_1 p (shr_1 r)))
      by (rewrite IH by exact H1; apply Z.div_pos; lia).
    rewrite IH by exact H2. rewrite IH by exact H1. rewrite shr_1_half by exact Hr.
    rewrite !Z.div_div by lia.
    f_equal.
    replace (Zpos p~1) with (1 + Zpos p + Zpos p) by lia.
    rewrite !Z.pow_add_r by lia. change (2 ^ 1) with 2. ring.
  - assert (HT : 0 < 2 ^ Zpos p) by (apply Z.pow_pos_nonneg; lia).
    assert (H2 : 0 <= shr_m (iter_pos shr_1 p r))
      by (rewrite IH by exact Hr; apply Z.div_pos; lia).
    rewrite IH by exact H2. rewrite IH by exact Hr.
    rewrite Z.div_div by lia.
    f_equal.
    replace (Zpos p~0) with (Zpos p + Zpos p) by lia.
    rewrite Z.pow_add_r by lia. reflexivity.
  - rewrite shr_1_half by exact Hr. reflexivity.
Qed.

Lemma shr_record_of_loc_m (m : Z) (l : location) : shr_m (shr_record_of_loc m l) = m.
Proof. destruct l as [|[]]; reflexivity. Qed.

(** [shr_fexp] moves the exponent up to the one of the format, when it is
    below, and divides the mantissa accordingly. *)
Lemma shr_fexp_spec (m e : Z) (l : location) :
  0 <= m ->
  snd (shr_fexp prec emax m e l) = Z.max e (fexp prec emax (Zdigits2 m + e))
  /\ shr_m (fst (shr_fexp prec emax m e l))
     = m / 2 ^ (Z.max e (fexp prec emax (Zdigits2 m + e)) - e)
  /\ (fexp prec emax (Zdigits2 m + e) <= e ->
      fst (shr_fexp prec emax m e l) = shr_record_of_loc m l).
Proof.
  intros Hm. unfold shr_fexp, shr.
  destruct (fexp prec emax (Zdigits2 m + e) - e) as [|p|p] eqn:E; cbn [fst snd].
  - replace (Z.max e (fexp prec emax (Zdigits2 m + e))) with e by lia.
    rewrite Z.sub_diag, shr_record_of_loc_m. change (2 ^ 0) with 1. rewrite Z.div_1_r.
    repeat split; reflexivity.
  - replace (Z.max e (fexp prec emax (Zdigits2 m + e))) with (e + Zpos p) by lia.
    replace (e + Zpos p - e) with (Zpos p) by lia.
    rewrite shr_iter_div by (rewrite shr_record_of_loc_m; exact Hm).
    rewrite shr_record_of_loc_m. split; [reflexivity|]. split; [reflexivity|]. lia.
  - replace (Z.max e (fexp prec emax (Zdigits2 m + e))) with e by lia.
    rewrite Z.sub_diag, shr_record_of_loc_m. change (2 ^ 0) with 1. rewrite Z.div_1_r.
    repeat split; reflexivity.
Qed.

Lemma round_nearest_even_step (m : Z) (l : location) :
  round_nearest_even m l = m \/ round_nearest_even m l = m + 1.
Proof.
  unfold round_nearest_even. destruct l as [|[]]; try destruct (Z.even m); auto.
Qed.

(** After the first shift the mantissa has at most 53 bits. *)
Lemma shifted_mantissa_small (m e : Z) :
  0 <= m ->
  0 <= m / 2 ^ (Z.max e (fexp prec emax (Zdigits2 m + e)) - e) < 2 ^ 53.
Proof.
  intros Hm. set (k := Z.max e (fexp prec emax (Zdigits2 m + e)) - e).
  assert (Hk : 0 <= k) by (unfold k; lia).
  assert (HT : 0 < 2 ^ k) by (apply Z.pow_pos_nonneg; lia).
  split; [apply Z.div_pos; lia|].
  destruct (Z.eq_dec m 0) as [->|Hm0]; [rewrite Z.div_0_l by lia; reflexivity|].
  destruct (Zdigits2_bounds m) as [[_ Hhi] Hd]; [lia|].
  apply Z.div_lt_upper_bound; [exact HT|].
  assert (Hkd : Zdigits2 m - 53 <= k).
  { unfold k, fexp, SpecFloat.emin, prec, emax. lia. }
  destruct (Z_le_gt_dec (Zdigits2 m) 53) as [Hs|Hs].
  - assert (2 ^ Zdigits2 m <= 2 ^ 53) by (apply Z.pow_le_mono_r; lia). nia.
  - assert (2 ^ Zdigits2 m <= 2 ^ k * 2 ^ 53).
    { rewrite <- Z.pow_add_r by lia. apply Z.pow_le_mono_r; lia. }
    lia.
Qed.

End Binary64Rounding.

Section Binary64RoundAux.

Import Floats.
Import Binary64.
Local Open Scope Z_scope.

(** *** [binary_round_aux] *)

(** The outcome of [binary_round_aux] on a non-negative mantissa [m0] with
    exponent [e0], below the overflow threshold: the exponent goes up to
    [e1], the one of the format, and the mantissa is [m0 / 2^(e1 - e0)]
    rounded down or up. *)
Lemma binary_round_aux_spec (s : bool) (m0 e0 : Z) (l : location) :
  0 <= m0 ->
  Z.max e0 (fexp prec emax (Zdigits2 m0 + e0)) < emax - prec ->
  exists m2,
    (m2 = m0 / 2 ^ (Z.max e0 (fexp prec emax (Zdigits2 m0 + e0)) - e0)
     \/ m2 = m0 / 2 ^ (Z.max e0 (fexp prec emax (Zdigits2 m0 + e0)) - e0) + 1)
    /\ (l = loc_Exact -> fexp prec emax (Zdigits2 m0 + e0) <= e0 -> m2 = m0)
    /\ match binary_round_aux prec emax s m0 e0 l with
       | S754_zero _ | S754_finite _ _ _ => True
       | _ => False
       end
    /\ (exact (binary_round_aux prec emax s m0 e0 l)
        == inject_Z (cond_Zopp s m2)
           * 2 ^ Z.max e0 (fexp prec emax (Zdigits2 m0 + e0)))%Q.
Proof.
  intros Hm0. set (e1 := Z.max e0 (fexp prec emax (Zdigits2 m0 + e0))). intros He1.
  unfold binary_round_aux.
  destruct (shr_fexp_spec m0 e0 l Hm0) as (Hs1 & Hs2 & Hs3).
  destruct (shr_fexp prec emax m0 e0 l) as [mrs1 e1'] eqn:E1. cbn [fst snd] in *.
  fold e1 in Hs1, Hs2. subst e1'.
  set (m2 := round_nearest_even (shr_m mrs1) (loc_of_shr_record mrs1)).
  assert (Hm2 : m2 = m0 / 2 ^ (e1 - e0) \/ m2 = m0 / 2 ^ (e1 - e0) + 1).
  { unfold m2. rewrite <- Hs2. apply round_nearest_even_step. }
  assert (Hex : l = loc_Exact -> fexp prec emax (Zdigits2 m0 + e0) <= e0 -> m2 = m0).
  { intros -> Hle. unfold m2. rewrite (Hs3 Hle). reflexivity. }
  pose proof (shifted_mantissa_small m0 e0 Hm0) as Hsmall. fold e1 in Hsmall.
  assert (Hr2 : 0 <= m2 <= 2 ^ 53) by lia.
  assert (Hemin : -1074 <= e1)
    by (unfold e1, fexp, SpecFloat.emin, prec, emax; lia).
  exists m2. split; [exact Hm2|]. split; [exact Hex|].
  destruct (shr_fexp_spec m2 e1 loc_Exact (proj1 Hr2)) as (Ht1 & Ht2 & _).
  destruct (shr_fexp prec emax m2 e1 loc_Exact) as [mrs2 e2] eqn:E2. cbn [fst snd] in *.
  unfold prec, emax in He1.
  destruct (Z.eq_dec m2 0) as [Hz|Hnz].
  - (* the mantissa is 0 *)
    rewrite Hz in Ht1, Ht2. rewrite Ht2, Z.div_0_l
      by (apply Z.pow_nonzero; [lia|cbn [Zdigits2]; unfold fexp, SpecFloat.emin, prec, emax; lia]).
    rewrite Hz. split; [exact I|]. cbn [exact cond_Zopp].
    destruct s; cbn [cond_Zopp]; change (inject_Z (- 0)) with 0%Q;
      change (inject_Z 0) with 0%Q; ring.
  - destruct (Z.eq_dec m2 (2 ^ 53)) as [Hp|Hnp].
    + (* the mantissa was rounded up to [2^53] *)
      assert (Hd : Zdigits2 m2 = 54) by (rewrite Hp; reflexivity).
      rewrite Hd in Ht1, Ht2.
      assert (He2 : e2 = e1 + 1)
        by (rewrite Ht1; unfold fexp, SpecFloat.emin, prec, emax; lia).
      replace (Z.max e1 (fexp prec emax (54 + e1)) - e1) with 1 in Ht2
        by (unfold fexp, SpecFloat.emin, prec, emax; lia).
      rewrite Ht2, Hp. change (2 ^ 53 / 2 ^ 1) with (Zpos (Pos.iter xO 1%positive 52%positive)).
      cbv iota. replace (e2 <=? emax - prec) with true
        by (symmetry; apply Z.leb_le; unfold prec, emax; lia).
      split; [exact I|]. cbn [exact]. rewrite He2, pow2_succ.
      destruct s; cbn [cond_Zopp]; rewrite ?inject_Z_opp;
        change (inject_Z (2 ^ 53)) with (2 * inject_Z (Zpos (Pos.iter xO 1%positive 52%positive)))%Q; ring.
    + (* the mantissa fits *)
      assert (Hpos : 0 < m2) by lia.
      destruct (Zdigits2_bounds m2 Hpos) as [[Hlo _] Hd0].
      assert (Hd : Zdigits2 m2 <= 53).
      { destruct (Z_le_gt_dec (Zdigits2 m2) 53) as [H|H]; [exact H|exfalso].
        assert (2 ^ 53 <= 2 ^ (Zdigits2 m2 - 1)) by (apply Z.pow_le_mono_r; lia).
        lia. }
      assert (He2 : e2 = e1)
        by (rewrite Ht1; unfold fexp, SpecFloat.emin, prec, emax; lia).
      replace (Z.max e1 (fexp prec emax (Zdigits2 m2 + e1)) - e1) with 0 in Ht2
        by (unfold fexp, SpecFloat.emin, prec, emax; lia).
      change (2 ^ 0) with 1 in Ht2. rewrite Z.div_1_r in Ht2. rewrite Ht2.
      destruct m2 as [|p|p]; try lia.
      replace (e2 <=? emax - prec) with true
        by (symmetry; apply Z.leb_le; unfold prec, emax; lia).
      split; [exact I|]. cbn [exact]. rewrite He2. reflexivity.
Qed.

End Binary64RoundAux.

Section Binary64Errors.

Import Floats.
Import Binary64.
Local Open Scope Z_scope.

(** *** The error of one rounding *)

Lemma signed_inject (s : bool) (m : Z) :
  (inject_Z (cond_Zopp s m) == signed s (inject_Z m))%Q.
Proof. destruct s; cbn [cond_Zopp signed]; [rewrite inject_Z_opp|]; reflexivity. Qed.

Lemma signed_mult (s : bool) (a p : Q) : (signed s a * p == signed s (a * p))%Q.
Proof. destruct s; cbn [signed]; ring. Qed.

Lemma signed_difference (s : bool) (a b : Q) :
  (Qabs (signed s a - signed s b) == Qabs (a - b))%Q.
Proof.
  destruct s; cbn [signed]; [|reflexivity].
  setoid_replace (- a - - b)%Q with (- (a - b))%Q by ring. apply Qabs_opp.
Qed.

Lemma Qabs_signed (s : bool) (a : Q) : (0 <= a)%Q -> (Qabs (signed s a) == a)%Q.
Proof.
  intros Ha. destruct s; cbn [signed].
  - rewrite Qabs_opp. apply Qabs_pos. exact Ha.
  - apply Qabs_pos. exact Ha.
Qed.

(** A unit in the last place, against the magnitude. *)
Lemma ulp_bound (e1 L : Z) (M : Q) :
  e1 <= Z.max L (-1074) -> (2 ^ (L + 52) <= M)%Q ->
  (2 ^ e1 <= M * 2 ^ (-52) + 2 ^ (-1074))%Q.
Proof.
  intros He HL.
  assert (H52 : (2 ^ L == 2 ^ (L + 52) * 2 ^ (-52))%Q)
    by (rewrite <- pow2_add; replace (L + 52 + -52) with L by lia; reflexivity).
  pose proof (pow2_pos (-52)) as Hp. pose proof (pow2_pos (-1074)) as Hq.
  pose proof (pow2_pos (L + 52)) as Hr.
  destruct (Z_le_gt_dec e1 L) as [H|H].
  - apply Qle_trans with (2 ^ L)%Q; [apply pow2_le; exact H|].
    rewrite H52. revert HL Hp Hq Hr.
    generalize (2 ^ (L + 52))%Q (2 ^ (-52))%Q (2 ^ (-1074))%Q. intros u v w HL Hp Hq Hr.
    nra.
  - apply Qle_trans with (2 ^ (-1074))%Q; [apply pow2_le; lia|].
    revert HL Hp Hq Hr.
    generalize (2 ^ (L + 52))%Q (2 ^ (-52))%Q (2 ^ (-1074))%Q. intros u v w HL Hp Hq Hr.
    nra.
Qed.

(** The cell of width [2^e0] that holds [M] lies in one cell of width
    [2^e1], the one of the shifted mantissa. *)
Lemma shifted_cell (m0 e0 e1 : Z) (M : Q) :
  0 <= m0 -> e0 <= e1 ->
  (inject_Z m0 * 2 ^ e0 <= M)%Q -> (M < (inject_Z m0 + 1) * 2 ^ e0)%Q ->
  (inject_Z (m0 / 2 ^ (e1 - e0)) * 2 ^ e1 <= M
   /\ M < (inject_Z (m0 / 2 ^ (e1 - e0)) + 1) * 2 ^ e1)%Q.
Proof.
  intros Hm He Hlo Hhi.
  set (T := 2 ^ (e1 - e0)).
  assert (HT : 0 < T) by (apply Z.pow_pos_nonneg; lia).
  set (m1 := m0 / T).
  assert (H1 : T * m1 <= m0) by (apply Z.mul_div_le; lia).
  assert (H2 : m0 + 1 <= T * (m1 + 1))
    by (pose proof (Z.mul_succ_div_gt m0 T HT); fold m1 in H; lia).
  rewrite Zle_Qle in H1, H2. rewrite Zlt_Qlt in HT.
  rewrite inject_Z_mult in H1. rewrite inject_Z_mult, !inject_Z_plus in H2.
  change (inject_Z 1) with 1%Q in *. change (inject_Z 0) with 0%Q in *.
  rewrite (pow2_split e0 e1 He). fold T.
  pose proof (pow2_pos e0) as Hp.
  clearbody m1 T. revert H1 H2 HT Hlo Hhi Hp.
  generalize (inject_Z m1) (inject_Z m0) (inject_Z T) (2 ^ e0)%Q.
  clear. intros a1 a0 t p H1 H2 HT Hlo Hhi Hp.
  assert (G1 : (a1 * (p * t) <= a0 * p)%Q).
  { setoid_replace (a1 * (p * t))%Q with (t * a1 * p)%Q by ring.
    apply Qmult_le_compat_r; [exact H1|lra]. }
  assert (G2 : ((a0 + 1) * p <= (a1 + 1) * (p * t))%Q).
  { setoid_replace ((a1 + 1) * (p * t))%Q with (t * (a1 + 1) * p)%Q by ring.
    apply Qmult_le_compat_r; [exact H2|lra]. }
  split; lra.
Qed.

(** One rounding moves a magnitude [M] of at most [2^100] by at most one
    unit in the last place: by nothing when the operation is exact, and
    else by at most [M * 2^-52 + 2^-1074]. *)
Lemma round_aux_error (s : bool) (m0 e0 : Z) (l : location) (M : Q) (L : Z) :
  0 <= m0 ->
  (inject_Z m0 * 2 ^ e0 <= M)%Q -> (M < (inject_Z m0 + 1) * 2 ^ e0)%Q ->
  (M <= 2 ^ 100)%Q ->
  (l = loc_Exact /\ (M == inject_Z m0 * 2 ^ e0)%Q
   /\ fexp prec emax (Zdigits2 m0 + e0) <= e0 <= 100)
  \/ (Z.max e0 (fexp prec emax (Zdigits2 m0 + e0)) <= Z.max L (-1074)
      /\ (2 ^ (L + 52) <= M)%Q) ->
  match binary_round_aux prec emax s m0 e0 l with
  | S754_zero _ | S754_finite _ _ _ => True
  | _ => False
  end
  /\ (Qabs (exact (binary_round_aux prec emax s m0 e0 l) - signed s M)
      <= M * 2 ^ (-52) + 2 ^ (-1074))%Q.
Proof.
  intros Hm0 Hlo Hhi Hbig Hcase.
  set (e1 := Z.max e0 (fexp prec emax (Zdigits2 m0 + e0))) in *.
  assert (HM : (0 <= M)%Q).
  { apply Qle_trans with (inject_Z m0 * 2 ^ e0)%Q; [|exact Hlo].
    apply Qmult_le_0_compat; [apply inject_Z_nonneg; exact Hm0|].
    apply Qlt_le_weak, pow2_pos. }
  assert (Hsmall : (0 <= M * 2 ^ (-52) + 2 ^ (-1074))%Q).
  { pose proof (pow2_pos (-52)). pose proof (pow2_pos (-1074)).
    assert (0 <= M * 2 ^ (-52))%Q by (apply Qmult_le_0_compat; lra). lra. }
  assert (He1 : e1 < emax - prec).
  { unfold prec, emax. destruct Hcase as [(_ & _ & H)|[H HL]]; [unfold e1; lia|].
    assert (L + 52 <= 100) by (apply pow2_le_inv; lra). lia. }
  destruct (binary_round_aux_spec s m0 e0 l Hm0 He1) as (m2 & Hm2 & Hex & Hfin & Hval).
  fold e1 in Hm2, Hval. split; [exact Hfin|].
  rewrite Hval, signed_inject, signed_mult, signed_difference.
  destruct Hcase as [(-> & HMe & Hf)|[He HL]].
  - rewrite (Hex eq_refl (proj1 Hf)).
    replace e1 with e0 by (unfold e1; lia).
    setoid_replace (inject_Z m0 * 2 ^ e0 - M)%Q with 0%Q by (rewrite HMe; ring).
    exact Hsmall.
  - destruct (shifted_cell m0 e0 e1 M Hm0) as [Hc1 Hc2]; [unfold e1; lia|exact Hlo|exact Hhi|].
    pose proof (ulp_bound e1 L M He HL) as Hulp.
    apply Qabs_Qle_condition.
    revert Hc1 Hc2 Hulp. generalize (M * 2 ^ (-52) + 2 ^ (-1074))%Q.
    destruct Hm2 as [-> | ->]; [|rewrite inject_Z_plus; change (inject_Z 1) with 1%Q];
      generalize (inject_Z (m0 / 2 ^ (e1 - e0))) (2 ^ e1)%Q; intros a p b Hc1 Hc2 Hulp;
      split; lra.
Qed.

End Binary64Errors.

Section Binary64Operations.

Import Floats.
Import Binary64.
Local Open Scope Z_scope.

(** *** Multiplication *)

Lemma mantissa_lower (m e : Z) :
  0 < m -> (2 ^ (Zdigits2 m - 1 + e) <= inject_Z m * 2 ^ e)%Q.
Proof.
  intros Hm. destruct (Zdigits2_bounds m Hm) as [[Hlo _] Hd].
  rewrite pow2_add, <- (pow2_inject (Zdigits2 m - 1)) by lia.
  apply Qmult_le_compat_r; [rewrite <- Zle_Qle; exact Hlo|].
  apply Qlt_le_weak, pow2_pos.
Qed.

Lemma error_allowance (M : Q) : (0 <= M -> 0 <= M * 2 ^ (-52) + 2 ^ (-1074))%Q.
Proof.
  intros HM. pose proof (pow2_pos (-52)). pose proof (pow2_pos (-1074)).
  assert (0 <= M * 2 ^ (-52))%Q by (apply Qmult_le_0_compat; lra). lra.
Qed.

Lemma zero_error (p : Q) :
  (p == 0 -> Qabs (0 - p) <= Qabs p * 2 ^ (-52) + 2 ^ (-1074))%Q.
Proof.
  intros H. rewrite H. setoid_replace (0 - 0)%Q with 0%Q by ring.
  apply (error_allowance 0). apply Qle_refl.
Qed.

Lemma finite_outcome (f : spec_float) :
  match f with S754_zero _ | S754_finite _ _ _ => True | _ => False end ->
  match f with S754_infinity _ | S754_nan => false | _ => true end = true.
Proof. destruct f; intros H; try reflexivity; contradiction. Qed.

(** A product of finite values, of magnitude at most [2^100], is finite and
    lies within [|p| * 2^-52 + 2^-1074] of the exact product [p]. *)
Lemma mul_error (a b : float) :
  finite a = true -> finite b = true ->
  (Qabs (value a * value b) <= 2 ^ 100)%Q ->
  finite (PrimFloat.mul a b) = true
  /\ (Qabs (value (PrimFloat.mul a b) - value a * value b)
      <= Qabs (value a * value b) * 2 ^ (-52) + 2 ^ (-1074))%Q.
Proof.
  unfold finite, value. rewrite mul_spec.
  destruct (Prim2SF a) as [sa|sa| |sa ma ea]; try discriminate;
    destruct (Prim2SF b) as [sb|sb| |sb mb eb]; try discriminate;
    intros _ _ Hbig; cbn [SF64mul SFmul exact] in *.
  1-3: split; [reflexivity|apply zero_error; ring].
  set (m0 := Zpos (ma * mb)). set (e0 := ea + eb).
  set (M := (inject_Z m0 * 2 ^ e0)%Q).
  assert (Hprod : (inject_Z (cond_Zopp sa (Zpos ma)) * 2 ^ ea
                   * (inject_Z (cond_Zopp sb (Zpos mb)) * 2 ^ eb)
                   == signed (xorb sa sb) M)%Q).
  { unfold M, m0, e0.
    destruct sa, sb; cbn [cond_Zopp xorb signed];
      rewrite Pos2Z.inj_mul, inject_Z_mult, pow2_add, ?inject_Z_opp; ring. }
  assert (HM : (0 <= M)%Q).
  { unfold M. apply Qmult_le_0_compat; [apply inject_Z_nonneg; unfold m0; lia|].
    apply Qlt_le_weak, pow2_pos. }
  rewrite Hprod in *. rewrite Qabs_signed in * by exact HM.
  pose proof (pow2_pos e0) as Hp.
  assert (Hone : (2 ^ e0 <= M)%Q).
  { unfold M. assert (H1 : (1 <= inject_Z m0)%Q)
      by (change 1%Q with (inject_Z 1); rewrite <- Zle_Qle; unfold m0; lia).
    revert H1 Hp. generalize (inject_Z m0) (2 ^ e0)%Q. intros u v H1 Hp. nra. }
  destruct (round_aux_error (xorb sa sb) m0 e0 loc_Exact M (Zdigits2 m0 + e0 - 53))
    as [Hfin Herr].
  - unfold m0. lia.
  - apply Qle_refl.
  - unfold M. revert Hp. generalize (inject_Z m0) (2 ^ e0)%Q. intros u v Hp. nra.
  - exact Hbig.
  - destruct (Z_le_gt_dec (fexp prec emax (Zdigits2 m0 + e0)) e0) as [H|H].
    + left. split; [reflexivity|]. split; [reflexivity|]. split; [exact H|].
      apply pow2_le_inv. lra.
    + right. split; [unfold fexp, SpecFloat.emin, prec, emax in *; lia|].
      replace (Zdigits2 m0 + e0 - 53 + 52) with (Zdigits2 m0 - 1 + e0) by lia.
      apply mantissa_lower. unfold m0. lia.
  - split; [apply finite_outcome; exact Hfin|exact Herr].
Qed.

End Binary64Operations.

Section Binary64Division.

Import Floats.
Import Binary64.
Local Open Scope Z_scope.

(** *** Division *)

Lemma mantissa_upper (m e : Z) :
  0 < m -> (inject_Z m * 2 ^ e <= 2 ^ (Zdigits2 m + e))%Q.
Proof.
  intros Hm. destruct (Zdigits2_bounds m Hm) as [[_ Hhi] Hd].
  rewrite pow2_add, <- (pow2_inject (Zdigits2 m)) by lia.
  apply Qmult_le_compat_r; [rewrite <- Zle_Qle; lia|].
  apply Qlt_le_weak, pow2_pos.
Qed.

Lemma div_eucl_div (a b : Z) : Z.div_eucl a b = (a / b, a mod b).
Proof. unfold Z.div, Z.modulo. destruct (Z.div_eucl a b). reflexivity. Qed.

(** The quotient of two mantissas, before it is rounded: the integer
    quotient [q] at the exponent [e'] holds the exact quotient in its
    cell, and [e'] is at most the exponent of the format. *)
Lemma div_core_spec (ma mb : positive) (ea eb : Z) :
  exists q e' l,
    SFdiv_core_binary prec emax (Zpos ma) ea (Zpos mb) eb = (q, e', l)
    /\ 0 <= q
    /\ (inject_Z q * 2 ^ e'
        <= inject_Z (Zpos ma) * 2 ^ ea / (inject_Z (Zpos mb) * 2 ^ eb))%Q
    /\ (inject_Z (Zpos ma) * 2 ^ ea / (inject_Z (Zpos mb) * 2 ^ eb)
        < (inject_Z q + 1) * 2 ^ e')%Q
    /\ e' <= fexp prec emax
               (Zdigits2 (Zpos ma) + ea - (Zdigits2 (Zpos mb) + eb))
    /\ (2 ^ (Zdigits2 (Zpos ma) + ea - (Zdigits2 (Zpos mb) + eb) - 1)
        <= inject_Z (Zpos ma) * 2 ^ ea / (inject_Z (Zpos mb) * 2 ^ eb))%Q.
Proof.
  unfold SFdiv_core_binary.
  set (D := Zdigits2 (Zpos ma) + ea - (Zdigits2 (Zpos mb) + eb)).
  set (e' := Z.min (fexp prec emax D) (ea - eb)).
  set (s := ea - eb - e').
  assert (Hs : 0 <= s) by (unfold s, e'; lia).
  set (m' := match s with Zpos _ => Z.shiftl (Zpos ma) s | 0 => Zpos ma | Zneg _ => 0 end).
  assert (Hm' : m' = Zpos ma * 2 ^ s).
  { unfold m'. destruct s as [|p|p] eqn:Es; try lia.
    apply Z.shiftl_mul_pow2. lia. }
  rewrite div_eucl_div.
  exists (m' / Zpos mb), e', (new_location (Zpos mb) (m' mod Zpos mb)).
  split; [reflexivity|].
  assert (HT : 0 < 2 ^ s) by (apply Z.pow_pos_nonneg; lia).
  assert (Hq0 : 0 <= m' / Zpos mb)
    by (rewrite Hm'; apply Z.div_pos; [apply Z.mul_nonneg_nonneg; lia|lia]).
  split; [exact Hq0|].
  assert (H1 : Zpos mb * (m' / Zpos mb) <= Zpos ma * 2 ^ s)
    by (rewrite <- Hm'; apply Z.mul_div_le; lia).
  assert (H2 : Zpos ma * 2 ^ s < Zpos mb * (m' / Zpos mb + 1))
    by (rewrite <- Hm'; apply (Z.mul_succ_div_gt m' (Zpos mb)); lia).
  rewrite Zle_Qle in H1. rewrite Zlt_Qlt in H2.
  rewrite !inject_Z_mult in H1, H2. rewrite inject_Z_plus in H2.
  change (inject_Z 1) with 1%Q in H2.
  assert (HB : (0 < inject_Z (Zpos mb))%Q)
    by (change 0%Q with (inject_Z 0); rewrite <- Zlt_Qlt; lia).
  assert (HA : (0 < inject_Z (Zpos ma))%Q)
    by (change 0%Q with (inject_Z 0); rewrite <- Zlt_Qlt; lia).
  assert (Hpa : (2 ^ ea == 2 ^ eb * 2 ^ e' * inject_Z (2 ^ s))%Q).
  { rewrite pow2_inject by exact Hs. rewrite <- !pow2_add.
    replace (eb + e' + s) with ea by (unfold s; lia). reflexivity. }
  pose proof (pow2_pos eb) as Hpb. pose proof (pow2_pos e') as Hpe.
  assert (Hden : (0 < inject_Z (Zpos mb) * 2 ^ eb)%Q)
    by (apply Qmult_lt_0_compat; assumption).
  split; [|split; [|split]].
  - apply Qle_shift_div_l; [exact Hden|]. rewrite Hpa.
    revert H1 HB Hpb Hpe.
    generalize (inject_Z (m' / Zpos mb)) (inject_Z (Zpos ma)) (inject_Z (Zpos mb))
               (inject_Z (2 ^ s)) (2 ^ eb)%Q (2 ^ e')%Q.
    intros iq A B ts pb pe H1 HB Hpb Hpe.
    setoid_replace (iq * pe * (B * pb))%Q with (B * iq * (pb * pe))%Q by ring.
    setoid_replace (A * (pb * pe * ts))%Q with (A * ts * (pb * pe))%Q by ring.
    apply Qmult_le_compat_r; [exact H1|].
    apply Qlt_le_weak, Qmult_lt_0_compat; assumption.
  - apply Qlt_shift_div_r; [exact Hden|]. rewrite Hpa.
    revert H2 HB Hpb Hpe.
    generalize (inject_Z (m' / Zpos mb)) (inject_Z (Zpos ma)) (inject_Z (Zpos mb))
               (inject_Z (2 ^ s)) (2 ^ eb)%Q (2 ^ e')%Q.
    intros iq A B ts pb pe H2 HB Hpb Hpe.
    setoid_replace ((iq + 1) * pe * (B * pb))%Q with (B * (iq + 1) * (pb * pe))%Q by ring.
    setoid_replace (A * (pb * pe * ts))%Q with (A * ts * (pb * pe))%Q by ring.
    apply Qmult_lt_compat_r; [apply Qmult_lt_0_compat; assumption|exact H2].
  - unfold e'. lia.
  - apply Qle_shift_div_l; [exact Hden|].
    apply Qle_trans with (2 ^ (D - 1) * 2 ^ (Zdigits2 (Zpos mb) + eb))%Q.
    + apply Qmult_le_l; [apply pow2_pos|]. apply mantissa_upper. lia.
    + rewrite <- pow2_add.
      replace (D - 1 + (Zdigits2 (Zpos mb) + eb)) with (Zdigits2 (Zpos ma) - 1 + ea)
        by (unfold D; lia).
      apply mantissa_lower. lia.
Qed.

(** A quotient of finite values by a value other than zero, of magnitude
    at most [2^100], is finite and lies within [|q| * 2^-52 + 2^-1074] of
    the exact quotient [q]. *)
Lemma div_error (a b : float) :
  finite a = true -> finite b = true -> ~ (value b == 0)%Q ->
  (Qabs (value a / value b) <= 2 ^ 100)%Q ->
  finite (PrimFloat.div a b) = true
  /\ (Qabs (value (PrimFloat.div a b) - value a / value b)
      <= Qabs (value a / value b) * 2 ^ (-52) + 2 ^ (-1074))%Q.
Proof.
  unfold finite, value. rewrite div_spec.
  destruct (Prim2SF a) as [sa|sa| |sa ma ea]; try discriminate;
    destruct (Prim2SF b) as [sb|sb| |sb mb eb]; try discriminate;
    intros _ _ Hnz Hbig; cbn [SF64div SFdiv exact] in *;
    try (exfalso; apply Hnz; reflexivity).
  - split; [reflexivity|]. apply zero_error. unfold Qdiv. ring.
  - destruct (div_core_spec ma mb ea eb) as (q & e' & l & E & Hq & Hlo & Hhi & He' & HD).
    rewrite E.
    set (D := Zdigits2 (Zpos ma) + ea - (Zdigits2 (Zpos mb) + eb)) in *.
    set (M := (inject_Z (Zpos ma) * 2 ^ ea / (inject_Z (Zpos mb) * 2 ^ eb))%Q) in *.
    assert (HB : ~ (inject_Z (Zpos mb) * 2 ^ eb == 0)%Q).
    { intros H0. pose proof (pow2_pos eb).
      assert (0 < inject_Z (Zpos mb) * 2 ^ eb)%Q
        by (apply Qmult_lt_0_compat; [reflexivity|assumption]).
      lra. }
    assert (Hquot : (inject_Z (cond_Zopp sa (Zpos ma)) * 2 ^ ea
                     / (inject_Z (cond_Zopp sb (Zpos mb)) * 2 ^ eb)
                     == signed (xorb sa sb) M)%Q).
    { unfold M. destruct sa, sb; cbn [cond_Zopp xorb signed];
        change (Z.neg ma) with (- Zpos ma); change (Z.neg mb) with (- Zpos mb);
        rewrite ?inject_Z_opp; try reflexivity; field;
        (split; [intros H0; pose proof (pow2_pos eb); lra|intros H0; discriminate H0]). }
    assert (HM : (0 <= M)%Q).
    { apply Qle_trans with (2 ^ (D - 1))%Q; [apply Qlt_le_weak, pow2_pos|exact HD]. }
    rewrite Hquot in *. rewrite Qabs_signed in * by exact HM.
    assert (Hcase : exists L,
               Z.max e' (fexp prec emax (Zdigits2 q + e')) <= Z.max L (-1074)
               /\ (2 ^ (L + 52) <= M)%Q).
    { destruct (Z.eq_dec q 0) as [Hq0|Hq0].
      - exists (D - 53). split.
        + rewrite Hq0. cbn [Zdigits2]. unfold fexp, SpecFloat.emin, prec, emax in *. lia.
        + replace (D - 53 + 52) with (D - 1) by lia. exact HD.
      - destruct (Z_le_gt_dec (Zdigits2 q + e') D) as [Hd|Hd].
        + exists (D - 53). split.
          * unfold fexp, SpecFloat.emin, prec, emax in *. lia.
          * replace (D - 53 + 52) with (D - 1) by lia. exact HD.
        + exists (Zdigits2 q + e' - 53). split.
          * unfold fexp, SpecFloat.emin, prec, emax in *. lia.
          * replace (Zdigits2 q + e' - 53 + 52) with (Zdigits2 q - 1 + e') by lia.
            apply Qle_trans with (inject_Z q * 2 ^ e')%Q; [|exact Hlo].
            apply mantissa_lower. lia. }
    destruct Hcase as (L & HL1 & HL2).
    destruct (round_aux_error (xorb sa sb) q e' l M L Hq Hlo Hhi Hbig) as [Hfin Herr].
    + right. split; assumption.
    + split; [apply finite_outcome; exact Hfin|exact Herr].
Qed.

End Binary64Division.

Section Binary64RoundTrip.

Import Floats.
Import Binary64.
Local Open Scope Q_scope.

(** ** The round trip through the lattice *)

Lemma scale_value : finite scale = true /\ value scale == 100.
Proof. split; vm_compute; reflexivity. Qed.

Lemma pow2_minus_52 : 2 ^ (-52) == 1 # 4503599627370496.
Proof. reflexivity. Qed.

Lemma pow2_minus_1074 : 2 ^ (-1074) <= 1 # 1267650600228229401496703205376.
Proof.
  apply Qle_trans with (2 ^ (-100)); [apply pow2_le; lia|].
  apply Qle_lteq. right. reflexivity.
Qed.

Lemma pow2_40 : 2 ^ 40 == 1099511627776.
Proof. reflexivity. Qed.

Lemma pow2_100 : 2 ^ 100 == 1267650600228229401496703205376.
Proof. reflexivity. Qed.

(** One coordinate, up and back down. *)
Lemma round_trip_coordinate (c : float) :
  finite c = true -> Qabs (value c) <= 2 ^ 40 ->
  finite (PrimFloat.div (Math_round (PrimFloat.mul c scale)) scale) = true
  /\ Qabs (value (PrimFloat.div (Math_round (PrimFloat.mul c scale)) scale) - value c)
     <= (1 # 200) + (Qabs (value c) + 1) * 2 ^ (-50).
Proof.
  intros Hf Hc. destruct scale_value as [Hfs Hs].
  pose proof pow2_minus_1074 as Heta.
  assert (Hc100 : Qabs (value c * value scale) == 100 * Qabs (value c)).
  { rewrite Hs, Qabs_Qmult. change (Qabs 100) with 100. ring. }
  destruct (mul_error c scale Hf Hfs) as [Hf1 He1].
  { rewrite Hc100, pow2_100. rewrite pow2_40 in Hc. lra. }
  rewrite Hc100, Hs, pow2_minus_52 in He1.
  pose proof (Math_round_nearest (PrimFloat.mul c scale)) as Hr.
  unfold nearest_ties_up in Hr. rewrite Hf1 in Hr.
  destruct Hr as (Hf2 & n & Hn & Hlo & Hhi).
  set (y1 := value (PrimFloat.mul c scale)) in *.
  set (r := Math_round (PrimFloat.mul c scale)) in *.
  assert (Hq : value r / value scale == value r * (1 # 100)).
  { rewrite Hs. unfold Qdiv. change (/ 100) with (1 # 100). reflexivity. }
  assert (Hr100 : Qabs (value r / value scale) == Qabs (value r) * (1 # 100)).
  { rewrite Hq, Qabs_Qmult. reflexivity. }
  rewrite pow2_40 in Hc.
  apply Qabs_Qle_condition in He1.
  assert (Hrbound : Qabs (value r) <= 100 * Qabs (value c) + 2).
  { rewrite Hn. apply Qabs_Qle_condition.
    revert He1 Hlo Hhi Heta Hc. generalize (inject_Z n) (value c) (2 ^ (-1074)).
    intros vn vc eta. apply (Qabs_case vc); intros; split; lra. }
  destruct (div_error r scale Hf2 Hfs) as [Hf3 He3].
  { rewrite Hs. discriminate. }
  { rewrite Hr100, pow2_100. lra. }
  split; [exact Hf3|].
  rewrite Hr100, Hq, pow2_minus_52 in He3.
  apply Qabs_Qle_condition in He3.
  apply Qabs_Qle_condition.
  setoid_replace (2 ^ (-50)) with (1 # 1125899906842624) by reflexivity.
  revert He1 Hlo Hhi Heta Hc He3 Hrbound. rewrite Hn.
  generalize (value (PrimFloat.div r scale)) (inject_Z n) y1 (value c) (2 ^ (-1074)).
  intros vz vn vy vc eta.
  apply (Qabs_case vc); intros Hsign; apply (Qabs_case vn); intros Hsn; intros; split; lra.
Qed.

End Binary64RoundTrip.

Section Binary64Sums.

Import Floats.
Import Binary64.
Local Open Scope Z_scope.

(** *** Negation, addition and subtraction *)

Lemma opp_value (a : float) :
  finite (PrimFloat.opp a) = finite a /\ (value (PrimFloat.opp a) == - value a)%Q.
Proof.
  unfold finite, value. rewrite opp_spec.
  destruct (Prim2SF a) as [s|s| |s m e]; cbn [SFopp exact]; split; try reflexivity.
  destruct s; cbn [negb cond_Zopp]; rewrite ?inject_Z_opp; ring.
Qed.

(** The sum of two mantissas at a common exponent, made a binary64 value:
    [binary_normalize] is within one unit in the last place of the exact
    sum. *)
Lemma normalize_error (S e : Z) (szero : bool) :
  (Qabs (inject_Z S * 2 ^ e) <= 2 ^ 100)%Q ->
  match binary_normalize prec emax S e szero with
  | S754_zero _ | S754_finite _ _ _ => True
  | _ => False
  end
  /\ (Qabs (exact (binary_normalize prec emax S e szero) - inject_Z S * 2 ^ e)
      <= Qabs (inject_Z S * 2 ^ e) * 2 ^ (-52) + 2 ^ (-1074))%Q.
Proof.
  assert (H : forall (s : bool) (m : positive),
            (inject_Z (Zpos m) * 2 ^ e <= 2 ^ 100)%Q ->
            match binary_round prec emax s m e with
            | S754_zero _ | S754_finite _ _ _ => True
            | _ => False
            end
            /\ (Qabs (exact (binary_round prec emax s m e)
                      - signed s (inject_Z (Zpos m) * 2 ^ e))
                <= inject_Z (Zpos m) * 2 ^ e * 2 ^ (-52) + 2 ^ (-1074))%Q).
  { intros s m Hbig. unfold binary_round, shl_align.
    set (d := Zpos (digits2_pos m)).
    pose proof (pow2_pos e) as Hp.
    assert (Hone : (2 ^ e <= inject_Z (Zpos m) * 2 ^ e)%Q).
    { assert (H1 : (1 <= inject_Z (Zpos m))%Q)
        by (change 1%Q with (inject_Z 1); rewrite <- Zle_Qle; lia).
      revert H1 Hp. generalize (inject_Z (Zpos m)) (2 ^ e)%Q. intros u v H1 Hp. nra. }
    assert (Hup : (inject_Z (Zpos m) * 2 ^ e
                   < (inject_Z (Zpos m) + 1) * 2 ^ e)%Q).
    { revert Hp. generalize (inject_Z (Zpos m)) (2 ^ e)%Q. intros u v Hp. nra. }
    destruct (fexp prec emax (d + e) - e) as [|k|k] eqn:Ek.
    - (* the exponent is the one of the format *)
      apply (round_aux_error s (Zpos m) e loc_Exact _ 0); try assumption; try lia.
      + apply Qle_refl.
      + left. split; [reflexivity|]. split; [reflexivity|].
        cbn [Zdigits2]. fold d. split; [lia|]. apply pow2_le_inv. lra.
    - (* the exponent is below the one of the format: the mantissa is rounded *)
      apply (round_aux_error s (Zpos m) e loc_Exact _ (d + e - 53)); try assumption; try lia.
      + apply Qle_refl.
      + right. cbn [Zdigits2]. fold d. split.
        * unfold fexp, SpecFloat.emin, prec, emax in *. lia.
        * replace (d + e - 53 + 52) with (Zdigits2 (Zpos m) - 1 + e)
            by (cbn [Zdigits2]; fold d; lia).
          apply mantissa_lower. lia.
    - (* the exponent is above: the mantissa is shifted to the left *)
      assert (Hv : (inject_Z (Zpos (Pos.iter xO m k)) * 2 ^ fexp prec emax (d + e)
                    == inject_Z (Zpos m) * 2 ^ e)%Q).
      { rewrite Zpos_shift, inject_Z_mult.
        replace e with (fexp prec emax (d + e) + Zpos k) at 2 by lia.
        rewrite pow2_add, (pow2_inject (Zpos k)) by lia. ring. }
      rewrite <- Hv.
      apply (round_aux_error s (Zpos (Pos.iter xO m k)) (fexp prec emax (d + e))
               loc_Exact _ 0); try lia.
      + apply Qle_refl.
      + pose proof (pow2_pos (fexp prec emax (d + e))) as Hq.
        revert Hq. generalize (inject_Z (Zpos (Pos.iter xO m k)))
                              (2 ^ fexp prec emax (d + e))%Q.
        intros u v Hq. nra.
      + rewrite Hv. exact Hbig.
      + left. split; [reflexivity|]. split; [reflexivity|].
        cbn [Zdigits2]. rewrite digits2_pos_shift, Pos2Z.inj_add. fold d.
        replace (d + Zpos k + fexp prec emax (d + e)) with (d + e) by lia.
        split; [lia|].
        assert (fexp prec emax (d + e) <= e) by lia.
        assert (e <= 100) by (apply pow2_le_inv; lra). lia. }
  intros Hbig. destruct S as [|m|m]; cbn [binary_normalize].
  - split; [exact I|]. cbn [exact].
    setoid_replace (inject_Z 0 * 2 ^ e)%Q with 0%Q by (change (inject_Z 0) with 0%Q; ring).
    apply (zero_error 0). reflexivity.
  - assert (Hpos : (0 <= inject_Z (Zpos m) * 2 ^ e)%Q).
    { apply Qmult_le_0_compat; [apply inject_Z_nonneg; lia|apply Qlt_le_weak, pow2_pos]. }
    rewrite (Qabs_pos _ Hpos) in Hbig. rewrite (Qabs_pos _ Hpos).
    exact (H false m Hbig).
  - assert (Hpos : (0 <= inject_Z (Zpos m) * 2 ^ e)%Q).
    { apply Qmult_le_0_compat; [apply inject_Z_nonneg; lia|apply Qlt_le_weak, pow2_pos]. }
    assert (Hneg : (inject_Z (Zneg m) * 2 ^ e == signed true (inject_Z (Zpos m) * 2 ^ e))%Q).
    { cbn [signed]. change (Zneg m) with (- Zpos m). rewrite inject_Z_opp. ring. }
    rewrite Hneg in Hbig. rewrite (Qabs_signed true _ Hpos) in Hbig.
    rewrite Hneg. rewrite (Qabs_signed true _ Hpos).
    exact (H true m Hbig).
Qed.

End Binary64Sums.

Section Binary64AddSub.

Import Floats.
Import Binary64.
Local Open Scope Z_scope.

Lemma shl_align_value (m : positive) (e ez : Z) :
  ez <= e -> Zpos (fst (shl_align m e ez)) = Zpos m * 2 ^ (e - ez).
Proof.
  intros H. unfold shl_align. destruct (ez - e) as [|k|k] eqn:E; try lia; cbn [fst].
  - replace (e - ez) with 0 by lia. change (2 ^ 0) with 1. lia.
  - rewrite Zpos_shift. f_equal. f_equal. lia.
Qed.

Lemma aligned_value (s : bool) (m : positive) (e ez : Z) :
  ez <= e ->
  (inject_Z (cond_Zopp s (Zpos (fst (shl_align m e ez)))) * 2 ^ ez
   == inject_Z (cond_Zopp s (Zpos m)) * 2 ^ e)%Q.
Proof.
  intros H. rewrite shl_align_value by exact H.
  replace e with (ez + (e - ez)) at 2 by lia.
  rewrite pow2_add, <- (pow2_inject (e - ez)) by lia.
  destruct s; cbn [cond_Zopp]; rewrite ?inject_Z_opp, inject_Z_mult; ring.
Qed.

Lemma exact_error (v : Q) : (Qabs (v - v) <= Qabs v * 2 ^ (-52) + 2 ^ (-1074))%Q.
Proof.
  setoid_replace (v - v)%Q with 0%Q by ring.
  apply (error_allowance (Qabs v)). apply Qabs_nonneg.
Qed.

(** A sum of finite values, of magnitude at most [2^100], is finite and
    lies within [|s| * 2^-52 + 2^-1074] of the exact sum [s]. *)
Lemma add_error (a b : float) :
  finite a = true -> finite b = true ->
  (Qabs (value a + value b) <= 2 ^ 100)%Q ->
  finite (PrimFloat.add a b) = true
  /\ (Qabs (value (PrimFloat.add a b) - (value a + value b))
      <= Qabs (value a + value b) * 2 ^ (-52) + 2 ^ (-1074))%Q.
Proof.
  unfold finite, value. rewrite add_spec.
  destruct (Prim2SF a) as [sa|sa| |sa ma ea]; try discriminate;
    destruct (Prim2SF b) as [sb|sb| |sb mb eb]; try discriminate;
    intros _ _ Hbig; cbn [SF64add SFadd exact] in *.
  - split; [destruct sa, sb; reflexivity|].
    setoid_replace (exact (if sa then if sb then S754_zero sa else S754_zero false
                           else if sb then S754_zero false else S754_zero sa))
      with 0%Q by (destruct sa, sb; reflexivity).
    apply zero_error. ring.
  - split; [reflexivity|].
    setoid_replace (0 + inject_Z (cond_Zopp sb (Zpos mb)) * 2 ^ eb)%Q
      with (inject_Z (cond_Zopp sb (Zpos mb)) * 2 ^ eb)%Q by ring.
    apply exact_error.
  - split; [reflexivity|].
    setoid_replace (inject_Z (cond_Zopp sa (Zpos ma)) * 2 ^ ea + 0)%Q
      with (inject_Z (cond_Zopp sa (Zpos ma)) * 2 ^ ea)%Q by ring.
    apply exact_error.
  - set (ez := Z.min ea eb) in *.
    set (S := cond_Zopp sa (Zpos (fst (shl_align ma ea ez)))
              + cond_Zopp sb (Zpos (fst (shl_align mb eb ez)))).
    assert (HS : (inject_Z S * 2 ^ ez
                  == inject_Z (cond_Zopp sa (Zpos ma)) * 2 ^ ea
                     + inject_Z (cond_Zopp sb (Zpos mb)) * 2 ^ eb)%Q).
    { unfold S. rewrite inject_Z_plus, Qmult_plus_distr_l.
      rewrite !aligned_value by (unfold ez; lia). reflexivity. }
    rewrite <- HS in *.
    destruct (normalize_error S ez false Hbig) as [Hfin Herr].
    split; [apply finite_outcome; exact Hfin|exact Herr].
Qed.

(** The same for a difference. *)
Lemma sub_error (a b : float) :
  finite a = true -> finite b = true ->
  (Qabs (value a - value b) <= 2 ^ 100)%Q ->
  finite (PrimFloat.sub a b) = true
  /\ (Qabs (value (PrimFloat.sub a b) - (value a - value b))
      <= Qabs (value a - value b) * 2 ^ (-52) + 2 ^ (-1074))%Q.
Proof.
  unfold finite, value. rewrite sub_spec.
  destruct (Prim2SF a) as [sa|sa| |sa ma ea]; try discriminate;
    destruct (Prim2SF b) as [sb|sb| |sb mb eb]; try discriminate;
    intros _ _ Hbig; cbn [SF64sub SFsub exact] in *.
  - split; [destruct sa, sb; reflexivity|].
    setoid_replace (exact (if sa then if sb then S754_zero false else S754_zero sa
                           else if sb then S754_zero sa else S754_zero false))
      with 0%Q by (destruct sa, sb; reflexivity).
    apply zero_error. ring.
  - split; [reflexivity|].
    setoid_replace (inject_Z (cond_Zopp (negb sb) (Zpos mb)) * 2 ^ eb)%Q
      with (0 - inject_Z (cond_Zopp sb (Zpos mb)) * 2 ^ eb)%Q
      by (destruct sb; cbn [negb cond_Zopp]; rewrite ?inject_Z_opp; ring).
    apply exact_error.
  - split; [reflexivity|].
    setoid_replace (inject_Z (cond_Zopp sa (Zpos ma)) * 2 ^ ea - 0)%Q
      with (inject_Z (cond_Zopp sa (Zpos ma)) * 2 ^ ea)%Q by ring.
    apply exact_error.
  - set (ez := Z.min ea eb) in *.
    set (S := cond_Zopp sa (Zpos (fst (shl_align ma ea ez)))
              - cond_Zopp sb (Zpos (fst (shl_align mb eb ez)))).
    assert (HS : (inject_Z S * 2 ^ ez
                  == inject_Z (cond_Zopp sa (Zpos ma)) * 2 ^ ea
                     - inject_Z (cond_Zopp sb (Zpos mb)) * 2 ^ eb)%Q).
    { unfold S, Z.sub. rewrite inject_Z_plus, inject_Z_opp, Qmult_plus_distr_l.
      setoid_replace (- inject_Z (cond_Zopp sb (Zpos (fst (shl_align mb eb ez)))) * 2 ^ ez)%Q
        with (- (inject_Z (cond_Zopp sb (Zpos (fst (shl_align mb eb ez)))) * 2 ^ ez))%Q
        by ring.
      rewrite !aligned_value by (unfold ez; lia). reflexivity. }
    rewrite <- HS in *.
    destruct (normalize_error S ez false Hbig) as [Hfin Herr].
    split; [apply finite_outcome; exact Hfin|exact Herr].
Qed.

End Binary64AddSub.

Section Binary64Sqrt.

Import Floats.
Import Binary64.
Local Open Scope Z_scope.

(** *** Square root *)

Lemma sqrtrem_sqrt (n : Z) :
  0 <= n ->
  fst (Z.sqrtrem n) * fst (Z.sqrtrem n) <= n
  /\ n < (fst (Z.sqrtrem n) + 1) * (fst (Z.sqrtrem n) + 1)
  /\ 0 <= fst (Z.sqrtrem n).
Proof.
  intros Hn. pose proof (Z.sqrtrem_spec n Hn) as H.
  destruct (Z.sqrtrem n) as [q r]. cbn [fst]. destruct H as [H1 H2]. nia.
Qed.

(** The square root of a positive finite value [v] is a positive finite
    value [r] with [(r * (1 - 2^-52))^2 <= v <= (r * (1 + 2^-52))^2]. *)
Lemma sqrt_bounds (a : float) :
  finite a = true -> (0 < value a)%Q ->
  finite (PrimFloat.sqrt a) = true
  /\ (0 < value (PrimFloat.sqrt a))%Q
  /\ (value (PrimFloat.sqrt a) * (1 - 2 ^ (-52))
      * (value (PrimFloat.sqrt a) * (1 - 2 ^ (-52))) <= value a)%Q
  /\ (value a <= value (PrimFloat.sqrt a) * (1 + 2 ^ (-52))
                 * (value (PrimFloat.sqrt a) * (1 + 2 ^ (-52))))%Q.
Proof.
  unfold finite, value. rewrite sqrt_spec.
  destruct (Prim2SF a) as [sa|sa| |sa m e] eqn:E; try discriminate; intros _ Hpos;
    cbn [exact] in Hpos.
  destruct (Prim2SF_finite a sa m e E) as (Hm & He & Hd).
  destruct sa.
  { exfalso. cbn [cond_Zopp] in Hpos. pose proof (pow2_pos e) as Hp.
    assert (H0 : (inject_Z (- Zpos m) < 0)%Q)
      by (change 0%Q with (inject_Z 0); rewrite <- Zlt_Qlt; lia).
    revert Hpos H0 Hp. generalize (inject_Z (- Zpos m)) (2 ^ e)%Q. intros u v H1 H2 H3. nra. }
  cbn [SF64sqrt SFsqrt cond_Zopp].
  set (d := Zdigits2 (Zpos m)).
  destruct (Zdigits2_bounds (Zpos m)) as [[Hlo Hhi] Hd0]; [lia|]. fold d in Hlo, Hhi, Hd0.
  assert (Hd53 : d <= 53) by (unfold d; cbn [Zdigits2]; apply digits2_pos_le; lia).
  set (e' := Z.min (fexp prec emax (Z.div2 (d + e + 1))) (Z.div2 e)).
  assert (Hx : 2 * ((d + e + 1) / 2) <= d + e + 1 < 2 * ((d + e + 1) / 2 + 1))
    by (split; [apply Z.mul_div_le|apply Z.mul_succ_div_gt]; lia).
  assert (Hy : 2 * (e / 2) <= e < 2 * (e / 2 + 1))
    by (split; [apply Z.mul_div_le|apply Z.mul_succ_div_gt]; lia).
  assert (He' : e' = (d + e + 1) / 2 - 53).
  { unfold e', fexp, SpecFloat.emin, prec, emax. rewrite !Z.div2_div.
    revert Hx Hy. generalize ((d + e + 1) / 2) (e / 2). intros x y Hx Hy. lia. }
  set (s := e - 2 * e').
  assert (Hs : 105 - d <= s <= 106 - d).
  { unfold s. rewrite He'. revert Hx. generalize ((d + e + 1) / 2). intros x Hx. lia. }
  set (m' := match s with Zpos _ => Z.shiftl (Zpos m) s | 0 => Zpos m | Zneg _ => 0 end).
  assert (Hm' : m' = Zpos m * 2 ^ s).
  { unfold m'. destruct s as [|p|p] eqn:Es; try lia. apply Z.shiftl_mul_pow2. lia. }
  assert (Hm'lo : 2 ^ 104 <= m').
  { rewrite Hm'. apply Z.le_trans with (2 ^ (d - 1) * 2 ^ s).
    - rewrite <- Z.pow_add_r by lia. apply Z.pow_le_mono_r; lia.
    - apply Z.mul_le_mono_nonneg_r; [apply Z.pow_nonneg; lia|exact Hlo]. }
  assert (Hm'hi : m' < 2 ^ 106).
  { rewrite Hm'. apply Z.lt_le_trans with (2 ^ d * 2 ^ s).
    - apply Z.mul_lt_mono_pos_r; [apply Z.pow_pos_nonneg; lia|exact Hhi].
    - rewrite <- Z.pow_add_r by lia. apply Z.pow_le_mono_r; lia. }
  assert (Hcore : SFsqrt_core_binary prec emax (Zpos m) e
                  = let (q, r) := Z.sqrtrem m' in
                    (q, e', if (r =? 0) then loc_Exact
                            else loc_Inexact (if r <=? q then Lt else Gt)))
    by reflexivity.
  rewrite Hcore. clear Hcore.
  destruct (sqrtrem_sqrt m') as (Hq1 & Hq2 & Hq0); [lia|].
  destruct (Z.sqrtrem m') as [q r] eqn:Eq. cbn [fst] in Hq1, Hq2, Hq0.
  assert (Hqlo : 2 ^ 52 <= q) by (change (2 ^ 104) with (2 ^ 52 * 2 ^ 52) in Hm'lo; nia).
  assert (Hqhi : q < 2 ^ 53) by (change (2 ^ 106) with (2 ^ 53 * 2 ^ 53) in Hm'hi; nia).
  assert (Hdq : Zdigits2 q = 53).
  { destruct (Zdigits2_bounds q) as [[H1 H2] H3]; [lia|].
    assert (Zdigits2 q <= 53).
    { destruct (Z_le_gt_dec (Zdigits2 q) 53) as [H|H]; [exact H|exfalso].
      assert (2 ^ 53 <= 2 ^ (Zdigits2 q - 1)) by (apply Z.pow_le_mono_r; lia). lia. }
    assert (53 <= Zdigits2 q).
    { destruct (Z_le_gt_dec 53 (Zdigits2 q)) as [H'|H']; [exact H'|exfalso].
      assert (2 ^ Zdigits2 q <= 2 ^ 52) by (apply Z.pow_le_mono_r; lia). lia. }
    lia. }
  set (l := if (r =? 0) then loc_Exact else loc_Inexact (if r <=? q then Lt else Gt)).
  assert (Hfe : fexp prec emax (Zdigits2 q + e') = e')
    by (rewrite Hdq; unfold fexp, SpecFloat.emin, prec, emax; lia).
  destruct (binary_round_aux_spec false q e' l Hq0) as (m2 & Hm2 & _ & Hfin & Hval).
  { rewrite Hfe. unfold prec, emax. lia. }
  rewrite Hfe in Hm2, Hval.
  replace (Z.max e' e' - e') with 0 in Hm2 by lia.
  replace (Z.max e' e') with e' in Hval by lia.
  change (2 ^ 0) with 1 in Hm2. rewrite Z.div_1_r in Hm2.
  split; [apply finite_outcome; exact Hfin|].
  rewrite Hval. cbn [cond_Zopp].
  assert (Hv : (inject_Z (Zpos m) * 2 ^ e == inject_Z m' * (2 ^ e' * 2 ^ e'))%Q).
  { rewrite Hm', inject_Z_mult, (pow2_inject s) by lia.
    assert (He2 : e = s + (e' + e')) by (unfold s; lia).
    rewrite He2 at 1. rewrite !pow2_add. ring. }
  rewrite Hv.
  pose proof (pow2_pos e') as Hu.
  assert (Hq1' : (inject_Z q * inject_Z q <= inject_Z m')%Q)
    by (rewrite <- inject_Z_mult, <- Zle_Qle; exact Hq1).
  assert (Hq2' : (inject_Z m' <= (inject_Z q + 1) * (inject_Z q + 1))%Q).
  { change 1%Q with (inject_Z 1). rewrite <- inject_Z_plus, <- inject_Z_mult, <- Zle_Qle. lia. }
  assert (Hqlo' : (4503599627370496 <= inject_Z q)%Q)
    by (change 4503599627370496%Q with (inject_Z (2 ^ 52)); rewrite <- Zle_Qle; exact Hqlo).
  rewrite pow2_minus_52.
  assert (Hm2' : (inject_Z q <= inject_Z m2 <= inject_Z q + 1)%Q).
  { destruct Hm2 as [-> | ->]; [|rewrite inject_Z_plus; change (inject_Z 1) with 1%Q];
      split; lra. }
  clear Hm2 Hval Hfin Hv. revert Hq1' Hq2' Hqlo' Hm2' Hu.
  generalize (inject_Z q) (inject_Z m2) (inject_Z m') (2 ^ e')%Q.
  intros iq im x u Hq1' Hq2' Hqlo' [Hm2a Hm2b] Hu.
  assert (Hlow : (im * (1 - (1 # 4503599627370496)) <= iq)%Q) by lra.
  assert (Hupp : (iq + 1 <= im * (1 + (1 # 4503599627370496)))%Q) by lra.
  assert (Hu2 : (0 < u * u)%Q) by nra.
  split; [nra|]. split.
  - setoid_replace (im * u * (1 - (1 # 4503599627370496))
                    * (im * u * (1 - (1 # 4503599627370496))))%Q
      with (im * (1 - (1 # 4503599627370496)) * (im * (1 - (1 # 4503599627370496)))
            * (u * u))%Q by ring.
    apply Qmult_le_compat_r; [|lra].
    apply Qle_trans with (iq * iq)%Q; [|exact Hq1'].
    assert (0 <= im * (1 - (1 # 4503599627370496)))%Q by nra. nra.
  - setoid_replace (im * u * (1 + (1 # 4503599627370496))
                    * (im * u * (1 + (1 # 4503599627370496))))%Q
      with (im * (1 + (1 # 4503599627370496)) * (im * (1 + (1 # 4503599627370496)))
            * (u * u))%Q by ring.
    apply Qmult_le_compat_r; [|lra].
    apply Qle_trans with ((iq + 1) * (iq + 1))%Q; [exact Hq2'|]. nra.
Qed.

End Binary64Sqrt.

Section Binary64Bounds.

Import Floats.
Import Binary64.
Local Open Scope Q_scope.

(** ** Rational bounds for the blade *)

Local Notation "'ulp'" := (1 # 4503599627370496).
Local Notation "'tiny'" := (1 # 1267650600228229401496703205376).

Lemma square_nonneg (a : Q) : 0 <= a * a.
Proof. nra. Qed.

Lemma square_abs (a : Q) : a * a == Qabs a * Qabs a.
Proof. apply Qabs_case; intros H; ring. Qed.

Lemma product_le (a b c d : Q) : 0 <= a <= b -> 0 <= c <= d -> a * c <= b * d.
Proof. intros [H1 H2] [H3 H4]. nra. Qed.

Lemma square_le (a b : Q) : 0 <= a <= b -> a * a <= b * b.
Proof. intros H. apply product_le; exact H. Qed.

Lemma square_le_inv (a b : Q) : 0 <= b -> a * a <= b * b -> Qabs a <= b.
Proof.
  intros Hb H. rewrite square_abs in H. pose proof (Qabs_nonneg a) as Ha.
  destruct (Qlt_le_dec b (Qabs a)) as [Hlt|Hle]; [exfalso|exact Hle].
  revert H Ha Hlt. generalize (Qabs a). intros p H Ha Hlt. nra.
Qed.

Lemma abs_product_le (a b A B : Q) :
  Qabs a <= A -> Qabs b <= B -> Qabs (a * b) <= A * B.
Proof.
  intros Ha Hb. rewrite Qabs_Qmult. apply product_le; split;
    try apply Qabs_nonneg; assumption.
Qed.

Lemma abs_cancel (n b c : Q) : 0 < b -> Qabs (n * b) <= c * b -> Qabs n <= c.
Proof.
  intros Hb H. rewrite Qabs_Qmult, (Qabs_pos b) in H by lra.
  apply Qmult_lt_0_le_reg_r with b; assumption.
Qed.

Lemma abs_quotient (a b : Q) : 0 < b -> Qabs (a / b) * b == Qabs a.
Proof.
  intros Hb. rewrite <- (Qabs_pos b) at 2 by lra. rewrite <- Qabs_Qmult.
  apply Qabs_wd. field. lra.
Qed.

Lemma quotient_error (n a b u h : Q) :
  0 < b -> Qabs (n - a / b) <= Qabs (a / b) * u + h ->
  Qabs (n * b - a) <= Qabs a * u + h * b.
Proof.
  intros Hb H.
  setoid_replace (n * b - a) with ((n - a / b) * b) by (field; lra).
  rewrite Qabs_Qmult, (Qabs_pos b) by lra.
  rewrite <- (abs_quotient a b Hb).
  setoid_replace (Qabs (a / b) * b * u + h * b) with ((Qabs (a / b) * u + h) * b) by ring.
  apply Qmult_le_compat_r; [exact H|lra].
Qed.

Lemma taxicab_square (p q : Q) :
  p * p + q * q <= (Qabs p + Qabs q) * (Qabs p + Qabs q)
  /\ (Qabs p + Qabs q) * (Qabs p + Qabs q) <= 2 * (p * p + q * q).
Proof.
  rewrite (square_abs p), (square_abs q).
  pose proof (Qabs_nonneg p). pose proof (Qabs_nonneg q).
  generalize dependent (Qabs q). generalize dependent (Qabs p). intros a Ha b Hb.
  pose proof (Qmult_le_0_compat a b Ha Hb). pose proof (square_nonneg (a - b)).
  split; lra.
Qed.

Lemma perturbed_cross (p q r s e1 e2 e3 e4 E : Q) :
  Qabs e1 <= E -> Qabs e2 <= E -> Qabs e3 <= E -> Qabs e4 <= E ->
  p * s - q * r - E * (Qabs p + Qabs q + Qabs r + Qabs s) - 2 * (E * E)
  <= (p + e1) * (s + e4) - (q + e2) * (r + e3).
Proof.
  intros H1 H2 H3 H4.
  pose proof (abs_product_le p e4 _ _ (Qle_refl _) H4) as G1.
  pose proof (abs_product_le e1 s _ _ H1 (Qle_refl _)) as G2.
  pose proof (abs_product_le e1 e4 _ _ H1 H4) as G3.
  pose proof (abs_product_le q e3 _ _ (Qle_refl _) H3) as G4.
  pose proof (abs_product_le e2 r _ _ H2 (Qle_refl _)) as G5.
  pose proof (abs_product_le e2 e3 _ _ H2 H3) as G6.
  apply Qabs_Qle_condition in G1, G2, G3, G4, G5, G6.
  lra.
Qed.

(** The error of one operation, with the constants written out. *)
Lemma operation_error (r v : Q) :
  Qabs (r - v) <= Qabs v * 2 ^ (-52) + 2 ^ (-1074) ->
  - (Qabs v * ulp + tiny) <= r - v <= Qabs v * ulp + tiny.
Proof.
  intros H. apply Qabs_Qle_condition.
  pose proof pow2_minus_1074 as Ht. rewrite pow2_minus_52 in H. lra.
Qed.

Lemma abs_bounds (v : Q) : - Qabs v <= v <= Qabs v.
Proof. apply Qabs_Qle_condition. apply Qle_refl. Qed.

(** *** The differences of the coordinates *)

Lemma difference_error (a b : float) :
  finite a = true -> finite b = true ->
  Qabs (value a) <= 1048576 -> Qabs (value b) <= 1048576 ->
  finite (PrimFloat.sub b a) = true
  /\ Qabs (value (PrimFloat.sub b a) - (value b - value a)) <= 1 # 1073741824
  /\ Qabs (value (PrimFloat.sub b a)) <= 4194304
  /\ Qabs (value (PrimFloat.sub b a) - (value b - value a))
     <= Qabs (value b - value a) * ulp + tiny.
Proof.
  intros Fa Fb Ha Hb.
  apply Qabs_Qle_condition in Ha, Hb.
  assert (Hd : Qabs (value b - value a) <= 2097152) by (apply Qabs_Qle_condition; lra).
  destruct (sub_error b a Fb Fa) as [F E].
  { rewrite pow2_100. lra. }
  apply operation_error in E. split; [exact F|].
  split; [|split]; apply Qabs_Qle_condition; lra.
Qed.

(** *** The length *)

Lemma length_bounds (dx dy : float) :
  finite dx = true -> finite dy = true ->
  Qabs (value dx) <= 4194304 -> Qabs (value dy) <= 4194304 ->
  1 # 2048 <= Qabs (value dx) + Qabs (value dy) ->
  let len := PrimFloat.sqrt (PrimFloat.add (PrimFloat.mul dx dx) (PrimFloat.mul dy dy)) in
  finite len = true /\ 0 < value len
  /\ (1 - (1 # 562949953421312)) * (value dx * value dx + value dy * value dy)
     <= value len * value len
  /\ value len * value len
     <= (1 + (1 # 562949953421312)) * (value dx * value dx + value dy * value dy).
Proof.
  intros Fx Fy Hx Hy HT len.
  pose proof (abs_product_le _ _ _ _ Hx Hx) as Hxx.
  pose proof (abs_product_le _ _ _ _ Hy Hy) as Hyy.
  rewrite (Qabs_pos _ (square_nonneg _)) in Hxx.
  rewrite (Qabs_pos _ (square_nonneg _)) in Hyy.
  destruct (mul_error dx dx Fx Fx) as [Fsx Esx].
  { rewrite (Qabs_pos _ (square_nonneg _)), pow2_100. lra. }
  destruct (mul_error dy dy Fy Fy) as [Fsy Esy].
  { rewrite (Qabs_pos _ (square_nonneg _)), pow2_100. lra. }
  apply operation_error in Esx, Esy.
  rewrite (Qabs_pos _ (square_nonneg _)) in Esx.
  rewrite (Qabs_pos _ (square_nonneg _)) in Esy.
  destruct (taxicab_square (value dx) (value dy)) as [_ HS].
  assert (HT2 : (1 # 2048) * (1 # 2048)
                <= (Qabs (value dx) + Qabs (value dy)) * (Qabs (value dx) + Qabs (value dy)))
    by (apply square_le; lra).
  pose proof (square_nonneg (value dx)) as Px.
  pose proof (square_nonneg (value dy)) as Py.
  revert HS HT2. generalize ((Qabs (value dx) + Qabs (value dy))
                             * (Qabs (value dx) + Qabs (value dy))).
  intros T2 HS HT2.
  assert (Hpos : 0 <= value (PrimFloat.mul dx dx) + value (PrimFloat.mul dy dy)) by lra.
  destruct (add_error _ _ Fsx Fsy) as [Fsum Esum].
  { rewrite (Qabs_pos _ Hpos), pow2_100. lra. }
  apply operation_error in Esum. rewrite (Qabs_pos _ Hpos) in Esum.
  destruct (sqrt_bounds _ Fsum) as (Flen & Plen & Hlo & Hhi); [lra|].
  fold len in Flen, Plen, Hlo, Hhi. rewrite pow2_minus_52 in Hlo, Hhi.
  split; [exact Flen|]. split; [exact Plen|].
  split; lra.
Qed.

(** *** One component of the offset *)

Lemma offset_component (a len : float) :
  finite a = true -> finite len = true -> 0 < value len ->
  Qabs (value a) <= (1001 # 1000) * value len ->
  let o := PrimFloat.mul (PrimFloat.div a len) 0.5%float in
  finite o = true /\ Qabs (value o) <= 51 # 100
  /\ Qabs (value o * value len - value a * (1 # 2)) <= (2 # 4503599627370496) * value len.
Proof.
  intros Fa Fl Pl Ha o.
  assert (Hq : Qabs (value a / value len) <= 1001 # 1000).
  { apply (abs_cancel _ (value len)); [exact Pl|].
    setoid_replace (value a / value len * value len) with (value a) by (field; lra).
    exact Ha. }
  destruct (div_error a len Fa Fl) as [Fn En]; [lra|rewrite pow2_100; lra|].
  assert (En' := En). apply operation_error in En'.
  rewrite pow2_minus_52 in En.
  assert (En2 : Qabs (value (PrimFloat.div a len) - value a / value len)
                <= Qabs (value a / value len) * ulp + tiny)
    by (pose proof pow2_minus_1074; lra).
  apply quotient_error in En2; [|exact Pl].
  assert (Hn : Qabs (value (PrimFloat.div a len)) <= 1002 # 1000).
  { pose proof (abs_bounds (value a / value len)). apply Qabs_Qle_condition. lra. }
  assert (Fh : finite 0.5%float = true) by reflexivity.
  assert (Vh : value 0.5%float == 1 # 2) by reflexivity.
  destruct (mul_error (PrimFloat.div a len) 0.5%float Fn Fh) as [Fo Eo].
  { rewrite Vh, Qabs_Qmult, pow2_100. change (Qabs (1 # 2)) with (1 # 2). lra. }
  fold o in Fo, Eo. apply operation_error in Eo.
  rewrite Vh, Qabs_Qmult in Eo. change (Qabs (1 # 2)) with (1 # 2) in Eo.
  split; [exact Fo|].
  assert (Ho : Qabs (value o - value (PrimFloat.div a len) * (1 # 2)) <= (1 # 4000000000000000)).
  { apply Qabs_Qle_condition. lra. }
  split.
  { pose proof (abs_bounds (value (PrimFloat.div a len))).
    apply Qabs_Qle_condition. apply Qabs_Qle_condition in Ho. lra. }
  pose proof (abs_product_le _ (value len) _ (value len) Ho) as G.
  rewrite (Qabs_pos (value len)) in G by lra. specialize (G (Qle_refl _)).
  apply Qabs_Qle_condition in G, En2. apply Qabs_Qle_condition.
  lra.
Qed.

(** *** One coordinate of a vertex *)

Lemma vertex_error (p o : float) :
  finite p = true -> finite o = true ->
  Qabs (value p) <= 1048576 -> Qabs (value o) <= 51 # 100 ->
  (finite (PrimFloat.add p o) = true
   /\ Qabs (value (PrimFloat.add p o) - (value p + value o)) <= 1 # 2147483648)
  /\ (finite (PrimFloat.sub p o) = true
      /\ Qabs (value (PrimFloat.sub p o) - (value p - value o)) <= 1 # 2147483648).
Proof.
  intros Fp Fo Hp Ho. apply Qabs_Qle_condition in Hp, Ho.
  assert (H1 : Qabs (value p + value o) <= 1048577) by (apply Qabs_Qle_condition; lra).
  assert (H2 : Qabs (value p - value o) <= 1048577) by (apply Qabs_Qle_condition; lra).
  destruct (add_error p o Fp Fo) as [Fa Ea]; [rewrite pow2_100; lra|].
  destruct (sub_error p o Fp Fo) as [Fs Es]; [rewrite pow2_100; lra|].
  apply operation_error in Ea, Es.
  split; (split; [assumption|apply Qabs_Qle_condition; lra]).
Qed.

End Binary64Bounds.

Section Binary64Quadrilateral.

Import Floats.
Import Binary64.
Local Open Scope Q_scope.

(** ** Convex quadrilaterals *)

Lemma turn_cycle (a b c : Point) : turn a b c == turn b c a.
Proof. unfold turn. ring. Qed.

Lemma convex_combination_positive (A B s : Q) :
  0 < A -> 0 < B -> 0 <= s <= 1 -> 0 < (1 - s) * A + s * B.
Proof.
  intros HA HB [H0 H1].
  assert (G1 : 0 <= (1 - s) * A) by (apply Qmult_le_0_compat; lra).
  assert (G2 : 0 <= s * B) by (apply Qmult_le_0_compat; lra).
  destruct (Qlt_le_dec 0 s) as [Hs|Hs].
  - assert (0 < s * B) by (apply Qmult_lt_0_compat; assumption). lra.
  - assert (E : s == 0) by lra. rewrite E. lra.
Qed.

(** Two points on the same side of the line through [a] and [b]: the side
    between them does not meet the side from [a] to [b]. *)
Lemma opposite_sides_apart (a b c d : Point) (u v : Q) :
  0 < turn a b c -> 0 < turn a b d ->
  on_side a b u v -> on_side c d u v -> False.
Proof.
  intros Hc Hd (t & Ht & Hu & Hv) (s & Hs & Hu' & Hv').
  assert (A1 : (px b - px a) * (v - py a) - (py b - py a) * (u - px a) == 0)
    by (rewrite Hu, Hv; ring).
  assert (A2 : (px b - px a) * (v - py a) - (py b - py a) * (u - px a)
               == (1 - s) * turn a b c + s * turn a b d)
    by (rewrite Hu', Hv'; unfold turn; ring).
  pose proof (convex_combination_positive _ _ s Hc Hd Hs) as G.
  rewrite <- A2, A1 in G. apply (Qlt_irrefl 0). exact G.
Qed.

(** Two sides that follow each other at a corner that turns have only the
    corner in common. *)
Lemma corner_only (a b c : Point) (u v : Q) :
  0 < turn a b c -> on_side a b u v -> on_side b c u v -> u == px b /\ v == py b.
Proof.
  intros Hc (t & Ht & Hu & Hv) (s & Hs & Hu' & Hv').
  assert (A1 : (px b - px a) * (v - py a) - (py b - py a) * (u - px a) == 0)
    by (rewrite Hu, Hv; ring).
  assert (A2 : (px b - px a) * (v - py a) - (py b - py a) * (u - px a)
               == s * turn a b c)
    by (rewrite Hu', Hv'; unfold turn; ring).
  rewrite A1 in A2. symmetry in A2. apply Qmult_integral in A2.
  destruct A2 as [E|E]; [|rewrite E in Hc; exfalso; apply (Qlt_irrefl 0); exact Hc].
  rewrite Hu', Hv', E. split; ring.
Qed.

(** A quadrilateral whose four corners turn the same way is simple, and
    its signed area has the sign of the turns. *)
Lemma convex_simple (a b c d : Point) :
  convex_positive a b c d ->
  simple_quadrilateral a b c d /\ 0 < doubled_area a b c d.
Proof.
  intros (H1 & H2 & H3 & H4). split.
  - split; [|split; [|split; [|split; [|split]]]].
    + intros u v. apply opposite_sides_apart; [exact H1|].
      rewrite turn_cycle, turn_cycle. exact H4.
    + intros u v. apply opposite_sides_apart; [exact H2|].
      rewrite turn_cycle, turn_cycle. exact H1.
    + intros u v. apply corner_only. exact H1.
    + intros u v. apply corner_only. exact H2.
    + intros u v. apply corner_only. exact H3.
    + intros u v. apply corner_only. exact H4.
  - setoid_replace (doubled_area a b c d) with (turn a b c + turn c d a)
      by (unfold doubled_area, turn; ring).
    lra.
Qed.

End Binary64Quadrilateral.

Section Binary64BladeBounds.

Import Floats.
Import Binary64.
Local Open Scope Q_scope.

(** ** The blade of a tame segment *)

Local Notation "'ulp'" := (1 # 4503599627370496).
Local Notation "'tiny'" := (1 # 1267650600228229401496703205376).

Lemma abs_le_add (a b e : Q) : Qabs (a - b) <= e -> Qabs b <= Qabs a + e.
Proof.
  intros H. pose proof (Qabs_triangle_reverse b a) as G.
  rewrite (Qabs_Qminus b a) in G. lra.
Qed.

(** Endpoints at least [2^-10] apart: the computed differences are not
    both small. *)
Lemma taxicab_lower (ux uy dx dy : Q) :
  (1 # 1048576) <= ux * ux + uy * uy ->
  Qabs (dx - ux) <= 1 # 1073741824 -> Qabs (dy - uy) <= 1 # 1073741824 ->
  (1 # 1024) <= Qabs ux + Qabs uy /\ (1 # 2048) <= Qabs dx + Qabs dy.
Proof.
  intros HS Hx Hy.
  destruct (taxicab_square ux uy) as [H1 _].
  assert (H0 : 0 <= Qabs ux + Qabs uy)
    by (pose proof (Qabs_nonneg ux); pose proof (Qabs_nonneg uy); lra).
  assert (HT : Qabs (1 # 1024) <= Qabs ux + Qabs uy).
  { apply square_le_inv; [exact H0|].
    setoid_replace ((1 # 1024) * (1 # 1024)) with (1 # 1048576) by reflexivity. lra. }
  change (Qabs (1 # 1024)) with (1 # 1024) in HT.
  pose proof (abs_le_add _ _ _ Hx). pose proof (abs_le_add _ _ _ Hy).
  split; lra.
Qed.

(** Each difference is at most the length, and the length at most the sum
    of their magnitudes, up to the rounding of the length. *)
Lemma component_le_length (dx dy len : Q) :
  0 < len ->
  (1 - (1 # 562949953421312)) * (dx * dx + dy * dy) <= len * len ->
  len * len <= (1 + (1 # 562949953421312)) * (dx * dx + dy * dy) ->
  Qabs dx <= (1001 # 1000) * len /\ Qabs dy <= (1001 # 1000) * len
  /\ len <= (1001 # 1000) * (Qabs dx + Qabs dy).
Proof.
  intros Hl Hlo Hhi.
  pose proof (square_nonneg dx) as Px. pose proof (square_nonneg dy) as Py.
  pose proof (square_nonneg len) as Pl.
  destruct (taxicab_square dx dy) as [H1 _].
  assert (H0 : 0 <= Qabs dx + Qabs dy)
    by (pose proof (Qabs_nonneg dx); pose proof (Qabs_nonneg dy); lra).
  split; [|split].
  - apply square_le_inv; lra.
  - apply square_le_inv; lra.
  - rewrite <- (Qabs_pos len) by lra. apply square_le_inv; lra.
Qed.

(** The offset [(oX, oY)] against the computed differences: it points to
    the right of them, has length one half and is at a right angle to
    them, up to rounding. *)
Lemma offset_geometry (dx dy len oX oY : Q) :
  (1 # 2048) <= Qabs dx + Qabs dy ->
  0 < len ->
  (1 - (1 # 562949953421312)) * (dx * dx + dy * dy) <= len * len ->
  len * len <= (1 + (1 # 562949953421312)) * (dx * dx + dy * dy) ->
  Qabs (oX * len - dy * (1 # 2)) <= (2 # 4503599627370496) * len ->
  Qabs (oY * len - - dx * (1 # 2)) <= (2 # 4503599627370496) * len ->
  (49 # 100) * (Qabs dx + Qabs dy) <= 2 * (dy * oX - dx * oY)
  /\ Qabs (oX * oX + oY * oY - (1 # 4)) <= 7 # 4503599627370496
  /\ Qabs (oX * dx + oY * dy) <= (2 # 4503599627370496) * (Qabs dx + Qabs dy).
Proof.
  intros HT Hl Hlo Hhi HX HY.
  destruct (component_le_length dx dy len Hl Hlo Hhi) as (Bx & By & Bl).
  pose proof (square_nonneg dx) as Px. pose proof (square_nonneg dy) as Py.
  pose proof (square_nonneg len) as Pl.
  destruct (taxicab_square dx dy) as [_ H2].
  assert (H0 : 0 <= Qabs dx + Qabs dy) by lra.
  assert (HT2 : (1 # 2048) * (1 # 2048) <= (Qabs dx + Qabs dy) * (Qabs dx + Qabs dy))
    by (apply square_le; lra).
  pose proof (abs_product_le _ _ _ _ By HX) as G1.
  pose proof (abs_product_le _ _ _ _ Bx HY) as G2.
  pose proof (abs_product_le _ _ _ _ HX HX) as G3.
  pose proof (abs_product_le _ _ _ _ HY HY) as G4.
  pose proof (abs_product_le _ _ _ _ HX (Qle_refl (Qabs dx))) as G5.
  pose proof (abs_product_le _ _ _ _ HY (Qle_refl (Qabs dy))) as G6.
  apply Qabs_Qle_condition in G1, G2, G3, G4, G5, G6.
  assert (HK : (99 # 100) * (dx * dx + dy * dy) <= 2 * (dy * oX - dx * oY) * len) by lra.
  split; [|split].
  - destruct (Qlt_le_dec (2 * (dy * oX - dx * oY)) ((49 # 100) * (Qabs dx + Qabs dy)))
      as [Hlt|Hle]; [exfalso|exact Hle].
    assert (K1 : 2 * (dy * oX - dx * oY) * len < (49 # 100) * (Qabs dx + Qabs dy) * len)
      by (apply Qmult_lt_compat_r; assumption).
    assert (K2 : (Qabs dx + Qabs dy) * len
                 <= (Qabs dx + Qabs dy) * ((1001 # 1000) * (Qabs dx + Qabs dy)))
      by (apply product_le; split; lra).
    lra.
  - apply (abs_cancel _ (len * len)); [nra|].
    apply Qabs_Qle_condition. split; lra.
  - apply (abs_cancel _ len); [exact Hl|].
    apply Qabs_Qle_condition. split; lra.
Qed.

Lemma perturbed_turn (u1 u2 v1 v2 p q r s E : Q) :
  Qabs (u1 - p) <= E -> Qabs (u2 - q) <= E ->
  Qabs (v1 - r) <= E -> Qabs (v2 - s) <= E ->
  p * s - q * r - E * (Qabs p + Qabs q + Qabs r + Qabs s) - 2 * (E * E)
  <= u1 * v2 - u2 * v1.
Proof.
  intros H1 H2 H3 H4.
  pose proof (perturbed_cross p q r s _ _ _ _ E H1 H2 H3 H4). lra.
Qed.

(** The four corners of the blade turn the same way. *)
Lemma blade_turns (X0 Y0 X1 Y1 dx dy oX oY aX aY bX bY cX cY dX dY : Q) :
  Qabs (dx - (X1 - X0)) <= 1 # 1073741824 ->
  Qabs (dy - (Y1 - Y0)) <= 1 # 1073741824 ->
  Qabs oX <= 51 # 100 -> Qabs oY <= 51 # 100 ->
  (1 # 2048) <= Qabs dx + Qabs dy ->
  (49 # 100) * (Qabs dx + Qabs dy) <= 2 * (dy * oX - dx * oY) ->
  Qabs (aX - (X0 + oX)) <= 1 # 2147483648 -> Qabs (aY - (Y0 + oY)) <= 1 # 2147483648 ->
  Qabs (bX - (X1 + oX)) <= 1 # 2147483648 -> Qabs (bY - (Y1 + oY)) <= 1 # 2147483648 ->
  Qabs (cX - (X1 - oX)) <= 1 # 2147483648 -> Qabs (cY - (Y1 - oY)) <= 1 # 2147483648 ->
  Qabs (dX - (X0 - oX)) <= 1 # 2147483648 -> Qabs (dY - (Y0 - oY)) <= 1 # 2147483648 ->
  0 < (bX - aX) * (cY - aY) - (bY - aY) * (cX - aX)
  /\ 0 < (cX - bX) * (dY - bY) - (cY - bY) * (dX - bX)
  /\ 0 < (dX - cX) * (aY - cY) - (dY - cY) * (aX - cX)
  /\ 0 < (aX - dX) * (bY - dY) - (aY - dY) * (bX - dX).
Proof.
  intros Ex Ey HoX HoY HT HK HaX HaY HbX HbY HcX HcY HdX HdY.
  apply Qabs_Qle_condition in Ex, Ey, HoX, HoY, HaX, HaY, HbX, HbY, HcX, HcY, HdX, HdY.
  pose proof (abs_bounds dx) as Ax. pose proof (abs_bounds dy) as Ay.
  assert (R : forall k t : Q,
             Qabs k <= 102 # 100 -> Qabs (t - dx) <= 0 \/ Qabs (t + dx) <= 0 ->
             Qabs (t + k) <= Qabs dx + (102 # 100)).
  { intros k t Hk [Ht|Ht]; apply Qabs_Qle_condition in Hk, Ht;
      apply Qabs_Qle_condition; lra. }
  assert (R' : forall k t : Q,
             Qabs k <= 102 # 100 -> Qabs (t - dy) <= 0 \/ Qabs (t + dy) <= 0 ->
             Qabs (t + k) <= Qabs dy + (102 # 100)).
  { intros k t Hk [Ht|Ht]; apply Qabs_Qle_condition in Hk, Ht;
      apply Qabs_Qle_condition; lra. }
  assert (Z : forall t : Q, Qabs (t - t) <= 0)
    by (intros t; apply Qabs_Qle_condition; lra).
  assert (Z' : forall t : Q, Qabs (- t + t) <= 0)
    by (intros t; apply Qabs_Qle_condition; lra).
  assert (W : forall k c : Q, - (51 # 100) <= k <= 51 # 100 ->
              c == 2 * k \/ c == - (2 * k) -> Qabs c <= 102 # 100).
  { intros k c Hk [E|E]; apply Qabs_Qle_condition; lra. }
  split; [|split; [|split]].
  - eapply Qlt_le_trans;
      [|apply (perturbed_turn _ _ _ _ dx dy (dx + - (2 * oX)) (dy + - (2 * oY))
                 (1 # 536870912)); apply Qabs_Qle_condition; lra].
    pose proof (R (- (2 * oX)) dx (W oX _ HoX (or_intror (Qeq_refl _)))
                  (or_introl (Z dx))).
    pose proof (R' (- (2 * oY)) dy (W oY _ HoY (or_intror (Qeq_refl _)))
                  (or_introl (Z dy))).
    lra.
  - eapply Qlt_le_trans;
      [|apply (perturbed_turn _ _ _ _ (- (2 * oX)) (- (2 * oY))
                 (- dx + - (2 * oX)) (- dy + - (2 * oY))
                 (1 # 536870912)); apply Qabs_Qle_condition; lra].
    pose proof (R (- (2 * oX)) (- dx) (W oX _ HoX (or_intror (Qeq_refl _)))
                  (or_intror (Z' dx))).
    pose proof (R' (- (2 * oY)) (- dy) (W oY _ HoY (or_intror (Qeq_refl _)))
                  (or_intror (Z' dy))).
    pose proof (W oX _ HoX (or_intror (Qeq_refl _))).
    pose proof (W oY _ HoY (or_intror (Qeq_refl _))).
    lra.
  - eapply Qlt_le_trans;
      [|apply (perturbed_turn _ _ _ _ (- dx) (- dy)
                 (- dx + 2 * oX) (- dy + 2 * oY)
                 (1 # 536870912)); apply Qabs_Qle_condition; lra].
    pose proof (R (2 * oX) (- dx) (W oX _ HoX (or_introl (Qeq_refl _)))
                  (or_intror (Z' dx))).
    pose proof (R' (2 * oY) (- dy) (W oY _ HoY (or_introl (Qeq_refl _)))
                  (or_intror (Z' dy))).
    rewrite (Qabs_opp dx), (Qabs_opp dy).
    lra.
  - eapply Qlt_le_trans;
      [|apply (perturbed_turn _ _ _ _ (2 * oX) (2 * oY)
                 (dx + 2 * oX) (dy + 2 * oY)
                 (1 # 536870912)); apply Qabs_Qle_condition; lra].
    pose proof (R (2 * oX) dx (W oX _ HoX (or_introl (Qeq_refl _)))
                  (or_introl (Z dx))).
    pose proof (R' (2 * oY) dy (W oY _ HoY (or_introl (Qeq_refl _)))
                  (or_introl (Z dy))).
    pose proof (W oX _ HoX (or_introl (Qeq_refl _))).
    pose proof (W oY _ HoY (or_introl (Qeq_refl _))).
    lra.
Qed.

(** The same offset against the segment itself. *)
Lemma offset_against_segment (ux uy dx dy oX oY : Q) :
  (1 # 1024) <= Qabs ux + Qabs uy ->
  (1 # 2048) <= Qabs dx + Qabs dy ->
  Qabs (dx - ux) <= Qabs ux * ulp + tiny -> Qabs (dy - uy) <= Qabs uy * ulp + tiny ->
  Qabs (dx - ux) <= 1 # 1073741824 -> Qabs (dy - uy) <= 1 # 1073741824 ->
  Qabs oX <= 51 # 100 -> Qabs oY <= 51 # 100 ->
  (49 # 100) * (Qabs dx + Qabs dy) <= 2 * (dy * oX - dx * oY) ->
  Qabs (oX * dx + oY * dy) <= (2 # 4503599627370496) * (Qabs dx + Qabs dy) ->
  Qabs (oX * ux + oY * uy) <= (1 # 1125899906842624) * (Qabs ux + Qabs uy)
  /\ 0 < oX * uy - oY * ux.
Proof.
  intros HT HT' Rx Ry Ax Ay HoX HoY HK Hperp.
  pose proof (abs_product_le _ _ _ _ HoX Rx) as G1.
  pose proof (abs_product_le _ _ _ _ HoY Ry) as G2.
  pose proof (abs_product_le _ _ _ _ HoX Ay) as G3.
  pose proof (abs_product_le _ _ _ _ HoY Ax) as G4.
  rewrite (Qabs_Qminus dx ux) in Rx. rewrite (Qabs_Qminus dy uy) in Ry.
  pose proof (abs_le_add _ _ _ Rx) as Bx. pose proof (abs_le_add _ _ _ Ry) as By.
  pose proof (Qabs_nonneg ux). pose proof (Qabs_nonneg uy).
  apply Qabs_Qle_condition in G1, G2, G3, G4, Hperp.
  split; [apply Qabs_Qle_condition; split|]; lra.
Qed.

End Binary64BladeBounds.

Section Binary64Mapper.

Import Floats.
Import Binary64.
Local Open Scope float_scope.

(** C4, as stated, fails: [scaleUpPath] follows neither of the two named
    rules on all inputs.  At scale 100 the coordinate -0.125 goes to -12
    where round-half-away-from-zero gives -13, and 0.125 goes to 13 where
    round-half-to-even gives 12.  Both products, -12.5 and 12.5, are exact
    in binary64. *)
Lemma C4_counterexample :
  ~ ((forall path : Polygon,
        Forall2
          (fun p q =>
             (value (X q) == inject_Z (round_half_away_from_zero (value (x p * scale))))%Q
             /\ (value (Y q) == inject_Z (round_half_away_from_zero (value (y p * scale))))%Q)
          path (scaleUpPath path scale))
     \/
     (forall path : Polygon,
        Forall2
          (fun p q =>
             (value (X q) == inject_Z (round_half_to_even (value (x p * scale))))%Q
             /\ (value (Y q) == inject_Z (round_half_to_even (value (y p * scale))))%Q)
          path (scaleUpPath path scale))).
Proof.
  intros [H|H];
    specialize (H [ {| x := -0.125; y := 0.125 |} ]);
    inversion H as [|p q rest rest' [HX HY] Hrest]; subst.
  - vm_compute in HX. discriminate HX.
  - vm_compute in HY. discriminate HY.
Qed.

(** C4, amended: [scaleUpPath] multiplies each coordinate by the scale in
    binary64 and rounds the product it obtained, not the exact product,
    to the nearest integer with ties toward +infinity, for every input,
    negative ones included: for a finite product [v] the lattice value is
    the integer [n] with [n - 1/2 <= v < n + 1/2], so a product exactly
    halfway between [n] and [n + 1] goes to [n + 1].  A product that is
    NaN or infinite is passed on as it is. *)
Theorem C4_scaleUpPath_rounds_half_up (path : Polygon) (s : float) :
  Forall2
    (fun p q =>
       (nearest_ties_up (x p * s) (X q) /\ nearest_ties_up (y p * s) (Y q))
       /\ (forall n : Z, finite (x p * s) = true ->
             (value (x p * s) == inject_Z n + (1 # 2))%Q ->
             (value (X q) == inject_Z (n + 1))%Q)
       /\ (forall n : Z, finite (y p * s) = true ->
             (value (y p * s) == inject_Z n + (1 # 2))%Q ->
             (value (Y q) == inject_Z (n + 1))%Q))
    path (scaleUpPath path s).
Proof.
  assert (Htie : forall (v : float) (n : Z), finite v = true ->
            (value v == inject_Z n + (1 # 2))%Q ->
            (value (Math_round v) == inject_Z (n + 1))%Q).
  { intros v n Hf Hv. pose proof (Math_round_nearest v) as H.
    unfold nearest_ties_up in H. rewrite Hf in H.
    destruct H as (_ & m & Hm & Hlo & Hhi). rewrite Hm.
    rewrite Hv in Hlo, Hhi.
    assert (Hmn : m = (n + 1)%Z).
    { assert (H1 : (inject_Z n < inject_Z m)%Q) by lra.
      assert (H2 : (inject_Z m < inject_Z (n + 2))%Q)
        by (rewrite inject_Z_plus; change (inject_Z 2) with 2%Q; lra).
      rewrite <- Zlt_Qlt in H1, H2. lia. }
    rewrite Hmn. reflexivity. }
  induction path as [|p rest IH]; simpl; constructor; [|exact IH].
  cbn [X Y]. split; [split; apply Math_round_nearest|].
  split; intros n; apply Htie.
Qed.

(** C10, as stated, fails: the coordinate 0.125 goes up to the lattice
    value 13 and comes back as the binary64 value of 13/100, which lies
    more than 0.005 away from 0.125. *)
Lemma C10_counterexample :
  ~ (forall path : Polygon,
       Forall2
         (fun p q => (Qabs (value (x q) - value (x p)) <= 5 # 1000)%Q
                     /\ (Qabs (value (y q) - value (y p)) <= 5 # 1000)%Q)
         path (scaleDownPath (scaleUpPath path scale) scale)).
Proof.
  intros H. specialize (H [ {| x := 0.125; y := 0.125 |} ]).
  inversion H as [|p q rest rest' [HX _] Hrest]; subst.
  vm_compute in HX. apply HX. reflexivity.
Qed.

(** C10, amended: at the fixed scale of 100, scaling a path up and back
    down moves a finite coordinate [c] of magnitude at most [2^40] by at
    most [0.005 + (|c| + 1) * 2^-50]: half a lattice unit, and the
    roundings of the product and of the quotient. *)
Theorem C10_scale_round_trip (path : Polygon) :
  Forall (fun p => moderate (x p) /\ moderate (y p)) path ->
  Forall2
    (fun p q => returns_near (x p) (x q) /\ returns_near (y p) (y q))
    path (scaleDownPath (scaleUpPath path scale) scale).
Proof.
  induction path as [|p rest IH]; intros H; simpl; constructor.
  - inversion H as [|p' rest' [[Hfx Hx] [Hfy Hy]] Hrest]; subst. cbn [x y X Y].
    split; apply round_trip_coordinate; assumption.
  - apply IH. inversion H; assumption.
Qed.

(** C10 at the point (0.125, 1920.015). *)
Lemma C10_scale_round_trip_witness :
  Forall (fun p => moderate (x p) /\ moderate (y p))
    [ {| x := 0.125; y := 1920.015 |} ]
  /\ Forall2
       (fun p q => returns_near (x p) (x q) /\ returns_near (y p) (y q))
       [ {| x := 0.125; y := 1920.015 |} ]
       (scaleDownPath (scaleUpPath [ {| x := 0.125; y := 1920.015 |} ] scale) scale).
Proof.
  assert (H : Forall (fun p => moderate (x p) /\ moderate (y p))
                [ {| x := 0.125; y := 1920.015 |} ]).
  { constructor; [|constructor].
    split; (split; [vm_compute; reflexivity|vm_compute; discriminate]). }
  split; [exact H|].
  apply (C10_scale_round_trip [ {| x := 0.125; y := 1920.015 |} ] H).
Defined.

(** The lattice value of an engine coordinate survives the trip down to
    canvas coordinates and back up, as long as it is at most [2^40] in
    absolute value. *)
Lemma lattice_coordinate_round_trip (c : float) (n : Z) :
  finite c = true -> (value c == inject_Z n)%Q -> (Z.abs n <= 2 ^ 40)%Z ->
  finite (Math_round (c / scale * scale)) = true
  /\ (value (Math_round (c / scale * scale)) == value c)%Q.
Proof.
  intros Hf Hn Hbound. destruct scale_value as [Hfs Hs].
  pose proof pow2_minus_1074 as Heta.
  assert (Hnq : (Qabs (inject_Z n) <= 1099511627776)%Q).
  { apply Qabs_Qle_condition.
    change 1099511627776%Q with (inject_Z (2 ^ 40)).
    rewrite <- inject_Z_opp, <- !Zle_Qle. lia. }
  assert (Hq : (value c / value scale == inject_Z n * (1 # 100))%Q).
  { rewrite Hs, Hn. unfold Qdiv. change (/ 100)%Q with (1 # 100)%Q. reflexivity. }
  assert (Hq100 : (Qabs (value c / value scale) == Qabs (inject_Z n) * (1 # 100))%Q).
  { rewrite Hq, Qabs_Qmult. reflexivity. }
  destruct (div_error c scale Hf Hfs) as [Hf1 He1].
  { rewrite Hs. discriminate. }
  { rewrite Hq100, pow2_100. lra. }
  rewrite Hq100, Hq, pow2_minus_52 in He1.
  apply Qabs_Qle_condition in He1.
  set (z := (c / scale)%float) in *.
  assert (Hz : (Qabs (value z) <= Qabs (inject_Z n) * (1 # 100) + 1)%Q).
  { apply Qabs_Qle_condition. revert He1 Heta Hnq.
    generalize (value z) (2 ^ (-1074))%Q. intros vz eta.
    apply (Qabs_case (inject_Z n)); intros; split; lra. }
  assert (Hz100 : (Qabs (value z * value scale) == 100 * Qabs (value z))%Q).
  { rewrite Hs, Qabs_Qmult. change (Qabs 100) with 100%Q. ring. }
  destruct (mul_error z scale Hf1 Hfs) as [Hf2 He2].
  { rewrite Hz100, pow2_100. lra. }
  rewrite Hz100, Hs, pow2_minus_52 in He2.
  apply Qabs_Qle_condition in He2.
  pose proof (Math_round_nearest (z * scale)) as Hr.
  unfold nearest_ties_up in Hr. rewrite Hf2 in Hr.
  destruct Hr as (Hf3 & m & Hm & Hlo & Hhi).
  split; [exact Hf3|]. rewrite Hm, Hn.
  assert (Hmn : m = n).
  { assert (H1 : (inject_Z (n - 1) < inject_Z m)%Q /\ (inject_Z m < inject_Z (n + 1))%Q).
    { unfold Z.sub. rewrite !inject_Z_plus.
      change (inject_Z (- (1))) with (- (1))%Q. change (inject_Z 1) with 1%Q.
      revert He1 He2 Hlo Hhi Heta Hnq Hz.
      generalize (value (z * scale)) (value z) (inject_Z m) (2 ^ (-1074))%Q.
      intros vy vz vm eta.
      apply (Qabs_case (inject_Z n)); intros Hsn; apply (Qabs_case vz); intros; split; lra. }
    destruct H1 as [H1 H2]. rewrite <- Zlt_Qlt in H1, H2. lia. }
  rewrite Hmn. reflexivity.
Qed.

(** X1: at the scale of 100, [scaleUpPath] applied to the result of
    [scaleDownPath] returns the lattice values it started from, for every
    path whose coordinates are integers of at most [2^40] in absolute
    value: converting the engine's output to canvas coordinates loses no
    information in that range. *)
Theorem scaleUpPath_scaleDownPath (path : Path) :
  Forall (fun q => (exists n, (value (X q) == inject_Z n)%Q /\ (Z.abs n <= 2 ^ 40)%Z
                               /\ finite (X q) = true)
                   /\ (exists n, (value (Y q) == inject_Z n)%Q /\ (Z.abs n <= 2 ^ 40)%Z
                                  /\ finite (Y q) = true)) path ->
  Forall2
    (fun q q' => (finite (X q') = true /\ (value (X q') == value (X q))%Q)
                 /\ (finite (Y q') = true /\ (value (Y q') == value (Y q))%Q))
    path (scaleUpPath (scaleDownPath path scale) scale).
Proof.
  induction path as [|q rest IH]; intros H; simpl; constructor.
  - inversion H as [|q' rest' [(n & Hn & Hb & Hf) (m & Hm & Hc & Hg)] Hrest]; subst.
    cbn [x y X Y]. split.
    + apply (lattice_coordinate_round_trip (X q) n); assumption.
    + apply (lattice_coordinate_round_trip (Y q) m); assumption.
  - apply IH. inversion H; assumption.
Qed.

Lemma scaleUpPath_scaleDownPath_witness :
  Forall (fun q => (exists n, (value (X q) == inject_Z n)%Q /\ (Z.abs n <= 2 ^ 40)%Z
                               /\ finite (X q) = true)
                   /\ (exists n, (value (Y q) == inject_Z n)%Q /\ (Z.abs n <= 2 ^ 40)%Z
                                  /\ finite (Y q) = true))
    [ {| X := 13; Y := -4950 |} ]
  /\ Forall2
       (fun q q' => (finite (X q') = true /\ (value (X q') == value (X q))%Q)
                    /\ (finite (Y q') = true /\ (value (Y q') == value (Y q))%Q))
       [ {| X := 13; Y := -4950 |} ]
       (scaleUpPath (scaleDownPath [ {| X := 13; Y := -4950 |} ] scale) scale).
Proof.
  assert (H : Forall (fun q => (exists n, (value (X q) == inject_Z n)%Q /\ (Z.abs n <= 2 ^ 40)%Z
                               /\ finite (X q) = true)
                   /\ (exists n, (value (Y q) == inject_Z n)%Q /\ (Z.abs n <= 2 ^ 40)%Z
                                  /\ finite (Y q) = true))
                [ {| X := 13; Y := -4950 |} ]).
  { constructor; [|constructor]. split.
    - exists 13%Z. split; [vm_compute; reflexivity|]. split; [vm_compute; discriminate|reflexivity].
    - exists (-4950)%Z. split; [vm_compute; reflexivity|]. split; [vm_compute; discriminate|reflexivity]. }
  split; [exact H|].
  apply (scaleUpPath_scaleDownPath [ {| X := 13; Y := -4950 |} ] H).
Defined.

End Binary64Mapper.

Section Binary64Run.

Import Floats.
Import Binary64.
Local Open Scope float_scope.

Variable lib : ClipperLib.

Lemma addBlade_fold (clipper : Clipper lib) (lines : list Polyline) (w : World lib) :
  fold_left (addBlade lib clipper) lines w
  = {| library := fold_left (fun lb path => AddPath lib clipper path ptClip true lb)
                    (bladePaths lines) (library w);
       calls := calls w ++ map (fun path => ClipperAddPath path ptClip true)
                              (bladePaths lines) |}.
Proof.
  revert w. induction lines as [|line rest IH]; intros w.
  - cbn [fold_left bladePaths flat_map map]. rewrite app_nil_r. destruct w; reflexivity.
  - cbn [fold_left]. rewrite IH. unfold addBlade, bladePaths. cbn [flat_map].
    destruct (bladePath line) as [path|]; cbn [app]; [|reflexivity].
    cbn [clipper_AddPath library calls fold_left map]. rewrite <- app_assoc. reflexivity.
Qed.

(** A run with cuts, as one state transformer. *)
Lemma splitSurface_run (st : State) (w : World lib) :
  polylines st <> [] ->
  splitSurface lib st w
  = (if fst (fst (executed lib st w))
     then collectPolygons (snd (fst (executed lib st w)))
     else [],
     {| library := snd (executed lib st w);
        calls := calls w ++ engineCalls st
                 ++ [if fst (fst (executed lib st w))
                     then ConsoleLog "SubSurfaces:"
                            (collectPolygons (snd (fst (executed lib st w))))
                     else ConsoleError
                            "Failed to split the surface with the given polylines."] |}).
Proof.
  intros Hne. unfold splitSurface, executed, engineCalls, loaded.
  destruct (polylines st) as [|line rest] eqn:Hp; [contradiction|]. rewrite <- Hp. clear Hne.
  unfold clipper_new. destruct (new_Clipper lib (library w)) as [clipper lb].
  rewrite addBlade_fold. unfold clipper_Execute, clipper_AddPath. cbn [library calls].
  destruct (Execute lib clipper ctDifference pftNonZero pftNonZero _) as [[succeeded paths] lb'].
  cbn [fst snd]. destruct succeeded; cbn [negb];
    unfold console_log, console_error; cbn [library calls];
    repeat rewrite <- app_assoc; reflexivity.
Qed.

End Binary64Run.

Section Binary64Purity.

Import Floats.
Import Binary64.
Local Open Scope float_scope.

Lemma executed_answer (lib : ClipperLib) (answer : Path -> Paths -> bool * Paths)
    (st : State) (w : World lib) :
  answers_by lib answer ->
  fst (executed lib st w)
  = answer (scaleUpPath (mainPolygon st) scale) (bladePaths (polylines st)).
Proof.
  intros H. unfold executed.
  rewrite <- (H (library w)). destruct (new_Clipper lib (library w)); reflexivity.
Qed.

Lemma engineCalls_console (st : State) : filter isConsole (engineCalls st) = [].
Proof.
  unfold engineCalls. cbn [app filter isConsole]. rewrite filter_app. cbn [filter isConsole].
  rewrite app_nil_r. induction (bladePaths (polylines st)) as [|path rest IH];
    [reflexivity|exact IH].
Qed.

Lemma fold_left_unchanged {A B : Type} (l : list A) (b : B) :
  fold_left (fun acc _ => acc) l b = b.
Proof. induction l as [|a rest IH]; [reflexivity|exact IH]. Qed.

(** [subjectClipper] answers with the subject of the object asked,
    whatever objects were made before. *)
Lemma subjectClipper_answers :
  answers_by subjectClipper (fun subj _ => (true, [subj])).
Proof.
  intros objects subj clips. cbn [subjectClipper new_Clipper Execute AddPath fst snd].
  unfold loaded. cbn [subjectClipper AddPath]. rewrite fold_left_unchanged.
  unfold appendTo. rewrite firstn_app, Nat.sub_diag, firstn_all, skipn_app, Nat.sub_diag,
    skipn_all. cbn [firstn skipn app]. rewrite app_nil_r.
  rewrite app_nth2, Nat.sub_diag by lia. reflexivity.
Qed.

(** C8, as stated, fails: [splitSurface] is not pure.  A run with one cut
    on a 100 x 100 canvas writes a message to the console. *)
Lemma C8_counterexample :
  ~ ((forall (lib : ClipperLib) (st : State) (w : World lib),
        console (snd (splitSurface lib st w)) = console w)
     /\ (forall (lib : ClipperLib) (st1 st2 : State) (w1 w2 : World lib),
           width st1 = width st2 -> height st1 = height st2 ->
           polylines st1 = polylines st2 ->
           fst (splitSurface lib st1 w1) = fst (splitSurface lib st2 w2))).
Proof.
  intros [Hpure _].
  specialize (Hpure subjectClipper (canvas 100 100 [segment 0 50 100 50])
                (mkWorld subjectClipper [] [])).
  rewrite splitSurface_run in Hpure by discriminate.
  unfold console in Hpure. cbn [snd calls app] in Hpure.
  rewrite filter_app, engineCalls_console in Hpure.
  destruct (fst (fst (executed subjectClipper _ _))); discriminate Hpure.
Qed.

(** C8, amended: [splitSurface] is deterministic, not pure.  With an
    engine whose answers depend on nothing but the paths added to the
    object asked, two invocations with the same width, height and cut list
    return the same list, the same polygons with the same points in the
    same order, whatever the other cells of the component state hold and
    whatever the library and the console held before: the list is
    [partitionBy] of the engine's answers.  An invocation with cuts is not
    without effect: it writes one message to the console. *)
Theorem C8_deterministic (lib : ClipperLib) (answer : Path -> Paths -> bool * Paths)
    (st1 st2 : State) (w1 w2 : World lib) :
  answers_by lib answer ->
  width st1 = width st2 ->
  height st1 = height st2 ->
  polylines st1 = polylines st2 ->
  fst (splitSurface lib st1 w1) = fst (splitSurface lib st2 w2)
  /\ fst (splitSurface lib st1 w1) = partitionBy answer st1
  /\ (polylines st1 <> [] ->
      exists message,
        console (snd (splitSurface lib st1 w1)) = console w1 ++ [message]
        /\ (message = ConsoleError "Failed to split the surface with the given polylines."
            \/ message = ConsoleLog "SubSurfaces:" (fst (splitSurface lib st1 w1)))).
Proof.
  intros Hanswer Hw Hh Hp.
  assert (Hby : forall st w, fst (splitSurface lib st w) = partitionBy answer st).
  { intros st w. unfold partitionBy.
    destruct (polylines st) as [|line rest] eqn:E.
    - unfold splitSurface. rewrite E. reflexivity.
    - rewrite <- E. rewrite splitSurface_run by (rewrite E; discriminate).
      cbn [fst]. rewrite (executed_answer lib answer st w Hanswer).
      destruct (answer _ _) as [succeeded paths]. reflexivity. }
  split; [|split].
  - rewrite !Hby. unfold partitionBy, mainPolygon. rewrite Hw, Hh, Hp. reflexivity.
  - apply Hby.
  - intros Hne. rewrite splitSurface_run by exact Hne.
    unfold console. cbn [fst snd calls]. rewrite !filter_app, engineCalls_console.
    destruct (fst (fst (executed lib st1 w1))); cbn [filter isConsole app];
      eexists; (split; [reflexivity|]); [right|left]; reflexivity.
Qed.

(** C8 at two component states that differ in the selected algorithm and
    colour set, in two worlds: one new, one in which the library holds an
    object and the console a message already. *)
Lemma C8_deterministic_witness :
  answers_by subjectClipper (fun subj _ => (true, [subj]))
  /\ fst (splitSurface subjectClipper (canvas 100 100 [segment 0 50 100 50])
            (mkWorld subjectClipper [] []))
     = fst (splitSurface subjectClipper
              (mkState 100 100 [segment 0 50 100 50] "Spiral Lines" "Ocean")
              (mkWorld subjectClipper [[[ {| X := 1; Y := 2 |} ]]]
                 [ConsoleLog "SubSurfaces:" []])).
Proof.
  split; [exact subjectClipper_answers|].
  apply (C8_deterministic subjectClipper (fun subj _ => (true, [subj]))
           (canvas 100 100 [segment 0 50 100 50])
           (mkState 100 100 [segment 0 50 100 50] "Spiral Lines" "Ocean")
           (mkWorld subjectClipper [] [])
           (mkWorld subjectClipper [[[ {| X := 1; Y := 2 |} ]]]
              [ConsoleLog "SubSurfaces:" []])
           subjectClipper_answers);
    reflexivity.
Defined.

(** The hypothesis on the engine is needed: with an engine whose objects
    share their paths, the second of two identical invocations returns the
    canvas twice. *)
Lemma shared_engine_differs :
  fst (splitSurface sharedClipper (canvas 100 100 [segment 0 50 100 50])
         (mkWorld sharedClipper [] []))
  <> fst (splitSurface sharedClipper (canvas 100 100 [segment 0 50 100 50])
            (snd (splitSurface sharedClipper (canvas 100 100 [segment 0 50 100 50])
                    (mkWorld sharedClipper [] [])))).
Proof.
  intros H. apply (f_equal (@List.length Polygon)) in H.
  vm_compute in H. discriminate H.
Qed.

End Binary64Purity.

Section Binary64Blade.

Import Floats.
Import Binary64.
Local Open Scope float_scope.

(** ** The blade builder *)

(** [offset / scale], the half width, is exactly one half. *)
Lemma half_width : lineWidth / 2 * scale / scale = 0.5.
Proof. vm_compute. reflexivity. Qed.







(** C7, as stated, fails: the segment from (0,0) to (1e-170,0) has distinct
    endpoints, yet its computed length is 0, the squares of the differences
    being below the smallest binary64 value, and no polygon is built. *)
Lemma C7_counterexample :
  ~ (forall line : Polyline,
       points0 line <> points1 line ->
       exists a b c d, bladePath line = Some [a; b; c; d]).
Proof.
  intros H. destruct (H (segment 0 0 1e-170 0)) as (a & b & c & d & E).
  - intros E. apply (f_equal (fun p => value (x p))) in E. vm_compute in E. discriminate E.
  - vm_compute in E. discriminate E.
Qed.

(** At the other end of the range the polygon is built, but without width:
    for the segment from (0,0) to (1e200,0) the squares overflow, the
    length is infinite, the normal is zero, and the four points are the two
    endpoints, each twice. *)
Lemma blade_without_width :
  bladePath (segment 0 0 1e200 0)
  = Some [ {| x := 0; y := 0 |}; {| x := 1e200; y := 0 |};
           {| x := 1e200; y := 0 |}; {| x := 0; y := 0 |} ].
Proof. vm_compute. reflexivity. Qed.

(** The computed normal has length 1 only up to rounding: for the segment
    from (0,0) to (100,100) the sum of the squares of its exact components
    is not 1. *)
Lemma normal_not_unit :
  let normX := (100 / segment_length (segment 0 0 100 100)) in
  let normY := (- (100) / segment_length (segment 0 0 100 100)) in
  ~ (value normX * value normX + value normY * value normY == 1)%Q.
Proof. vm_compute. discriminate. Qed.

Lemma positive_not_zero (v : float) : (0 < value v)%Q -> (v =? 0) = false.
Proof.
  unfold value. rewrite eqb_spec.
  destruct (Prim2SF v) as [s|s| |s m e]; cbn [exact]; intros H;
    try (exfalso; apply (Qlt_irrefl 0); exact H).
  destruct s; reflexivity.
Qed.

Lemma bladePath_offsets (line : Polyline) :
  (segment_length line =? 0) = false ->
  let dx := x (points1 line) - x (points0 line) in
  let dy := y (points1 line) - y (points0 line) in
  let oX := dy / segment_length line * 0.5 in
  let oY := - dx / segment_length line * 0.5 in
  bladePath line
  = Some [ {| x := x (points0 line) + oX; y := y (points0 line) + oY |};
           {| x := x (points1 line) + oX; y := y (points1 line) + oY |};
           {| x := x (points1 line) - oX; y := y (points1 line) - oY |};
           {| x := x (points0 line) - oX; y := y (points0 line) - oY |} ].
Proof.
  cbv zeta. unfold bladePath, segment_length. rewrite half_width.
  intros ->. reflexivity.
Qed.

Lemma pow2_literals :
  (2 ^ 20 == 1048576 /\ 2 ^ (-20) == 1 # 1048576 /\ 2 ^ (-31) == 1 # 2147483648
   /\ 2 ^ (-49) == 1 # 562949953421312 /\ 2 ^ (-50) == 1 # 1125899906842624)%Q.
Proof. repeat split. Qed.

(** C7, amended: for a segment with finite coordinates of magnitude at most
    [2^20] whose endpoints are at least [2^-10] apart, the blade builder
    produces a polygon of four points [a], [b], [c], [d].  There is an
    offset [o], one half of a unit normal of the segment up to rounding
    (its length is within [2^-49] of one half in the square, it is at a
    right angle to the segment within [2^-50] of the segment's extent, and
    it points to the right of the segment), such that [a] and [b] are the
    endpoints moved by [o] and [c] and [d] the endpoints moved by [- o],
    each coordinate within [2^-31].  The four corners turn the same way,
    so that the quadrilateral is convex, its boundary does not meet itself,
    and its signed area has the same sign for every such segment. *)
Theorem C7_blade_quadrilateral (line : Polyline) :
  tame line ->
  exists a b c d o : Point,
    bladePath line = Some [a; b; c; d]
    /\ half_normal line o
    /\ moved_by (points0 line) o a /\ moved_by (points1 line) o b
    /\ moved_against (points1 line) o c /\ moved_against (points0 line) o d
    /\ convex_positive a b c d
    /\ simple_quadrilateral a b c d
    /\ (0 < doubled_area a b c d)%Q.
Proof.
  destruct pow2_literals as (P20 & Pm20 & Pm31 & Pm49 & Pm50).
  unfold tame, px, py. cbv zeta. rewrite P20, Pm20.
  intros (Fx0 & Fy0 & Fx1 & Fy1 & Hx0 & Hy0 & Hx1 & Hy1 & HS).
  destruct (difference_error _ _ Fx0 Fx1 Hx0 Hx1) as (Fdx & Edx & Bdx & Rdx).
  destruct (difference_error _ _ Fy0 Fy1 Hy0 Hy1) as (Fdy & Edy & Bdy & Rdy).
  destruct (taxicab_lower _ _ _ _ HS Edx Edy) as [HT HT'].
  destruct (length_bounds _ _ Fdx Fdy Bdx Bdy HT') as (Flen & Plen & Hlo & Hhi).
  fold (segment_length line) in Flen, Plen, Hlo, Hhi.
  destruct (component_le_length _ _ _ Plen Hlo Hhi) as (Cx & Cy & Cl).
  destruct (opp_value (x (points1 line) - x (points0 line))) as [Fmx Vmx].
  rewrite Fdx in Fmx.
  destruct (offset_component _ _ Fdy Flen Plen Cy) as (FoX & BoX & EoX).
  destruct (offset_component _ _ Fmx Flen Plen) as (FoY & BoY & EoY).
  { rewrite Vmx, Qabs_opp. exact Cx. }
  rewrite Vmx in EoY.
  destruct (offset_geometry _ _ _ _ _ HT' Plen Hlo Hhi EoX EoY) as (HK & Hunit & Hperp).
  set (oX := (y (points1 line) - y (points0 line)) / segment_length line * 0.5) in *.
  set (oY := - (x (points1 line) - x (points0 line)) / segment_length line * 0.5) in *.
  destruct (vertex_error _ _ Fx0 FoX Hx0 BoX) as [[Fax Eax] [Fdx' Edx']].
  destruct (vertex_error _ _ Fy0 FoY Hy0 BoY) as [[Fay Eay] [Fdy' Edy']].
  destruct (vertex_error _ _ Fx1 FoX Hx1 BoX) as [[Fbx Ebx] [Fcx Ecx]].
  destruct (vertex_error _ _ Fy1 FoY Hy1 BoY) as [[Fby Eby] [Fcy Ecy]].
  exists {| x := x (points0 line) + oX; y := y (points0 line) + oY |},
         {| x := x (points1 line) + oX; y := y (points1 line) + oY |},
         {| x := x (points1 line) - oX; y := y (points1 line) - oY |},
         {| x := x (points0 line) - oX; y := y (points0 line) - oY |},
         {| x := oX; y := oY |}.
  split; [apply bladePath_offsets, positive_not_zero; exact Plen|].
  assert (Hconvex : convex_positive
            {| x := x (points0 line) + oX; y := y (points0 line) + oY |}
            {| x := x (points1 line) + oX; y := y (points1 line) + oY |}
            {| x := x (points1 line) - oX; y := y (points1 line) - oY |}
            {| x := x (points0 line) - oX; y := y (points0 line) - oY |}).
  { unfold convex_positive, turn, px, py. cbn [x y].
    apply (blade_turns (value (x (points0 line))) (value (y (points0 line)))
             (value (x (points1 line))) (value (y (points1 line)))
             (value (x (points1 line) - x (points0 line)))
             (value (y (points1 line) - y (points0 line)))
             (value oX) (value oY)); assumption. }
  destruct (convex_simple _ _ _ _ Hconvex) as [Hsimple Harea].
  split; [|split; [|split; [|split; [|split; [|split; [exact Hconvex|]]]]]];
    [ | unfold moved_by, px, py; cbn [x y]; rewrite Pm31; repeat split; assumption ..
      | unfold moved_against, px, py; cbn [x y]; rewrite Pm31; repeat split; assumption
      | unfold moved_against, px, py; cbn [x y]; rewrite Pm31; repeat split; assumption
      | split; [exact Hsimple|exact Harea] ].
  unfold half_normal, px, py. cbv zeta. cbn [x y]. rewrite Pm49, Pm50.
  split; [exact FoX|]. split; [exact FoY|].
  split; [apply Qle_trans with (7 # 4503599627370496)%Q; [exact Hunit|discriminate]|].
  exact (offset_against_segment _ _ _ _ _ _ HT HT' Rdx Rdy Edx Edy BoX BoY HK Hperp).
Qed.

(** C7 at the slanted cut (10,20)-(110,95). *)
Lemma C7_blade_quadrilateral_witness :
  tame (segment 10 20 110 95)
  /\ exists a b c d o : Point,
       bladePath (segment 10 20 110 95) = Some [a; b; c; d]
       /\ half_normal (segment 10 20 110 95) o
       /\ moved_by (points0 (segment 10 20 110 95)) o a
       /\ moved_by (points1 (segment 10 20 110 95)) o b
       /\ moved_against (points1 (segment 10 20 110 95)) o c
       /\ moved_against (points0 (segment 10 20 110 95)) o d
       /\ convex_positive a b c d
       /\ simple_quadrilateral a b c d
       /\ (0 < doubled_area a b c d)%Q.
Proof.
  assert (H : tame (segment 10 20 110 95)).
  { unfold tame. cbv zeta.
    repeat split; try reflexivity; vm_compute; discriminate. }
  split; [exact H|]. exact (C7_blade_quadrilateral (segment 10 20 110 95) H).
Defined.
End Binary64Blade.
